(** * Reward engine and LRU container of the Ethereum Classic plugin

    A shallow embedding of the reward arithmetic ([GetRewards],
    [AccumulateRewards], [ecip1017BlockReward], [GetBlockEra],
    [EthashBlockReward], ...), of the generic LRU container ([BasicLRU]
    over the intrusive doubly linked [list]) and of the hooks of the
    plugin into the client (fork predicates, discovery URLs, engine
    names), together with the properties the specification states about
    them and further properties of the sources.

    Go's [*big.Int] values are mutable heap cells: the reward code is
    written against a store of such cells, in a state-and-panic monad, so
    that aliasing and in-place updates ([r.Add(r, x)]) are the ones of the
    source.  The LRU container is written against a heap of [listElem]
    records linked by [next]/[prev] pointers. *)

From Stdlib Require Import ZArith Lia Sorted.
From stdpp Require Import base gmap list fin_maps strings.

Local Open Scope Z_scope.

(** ** A state-and-panic monad

    [m s = None] is a Go run-time panic (nil dereference, division by
    zero); [m s = Some (a, s')] is a normal return of [a] in state [s']. *)

Definition M (S A : Type) : Type := S → option (A * S).

#[global] Instance M_ret {S} : MRet (M S) := λ A a s, Some (a, s).

#[global] Instance M_bind {S} : MBind (M S) := λ A B f m s,
  match m s with
  | Some (a, s') => f a s'
  | None => None
  end.

Definition panic {S A} : M S A := λ _, None.

(** Weakest precondition for total correctness: the computation returns
    and its result satisfies [Q]. *)
Definition wp {S A} (m : M S A) (s : S) (Q : A → S → Prop) : Prop :=
  match m s with
  | Some (a, s') => Q a s'
  | None => False
  end.

(** ** Pointers and the store of big integers *)

Definition loc := positive.

(** A Go pointer: [None] is [nil]. *)
Definition ptr := option loc.

Abbreviation store := (gmap loc Z).

(** Go's [math/big] as used by the reward code.  Every method reads its
    operands through their pointers, writes the receiver [z] in place and
    returns [z]. *)
Module big.

(** [big.NewInt(x)]: a freshly allocated cell. *)
Definition NewInt (x : Z) : M store ptr :=
  λ s, let l := fresh (dom s) in Some (Some l, <[l:=x]> s).

(** [new(big.Int)] *)
Definition new_Int : M store ptr := NewInt 0.

(** Reading the integer behind a pointer; [nil] panics. *)
Definition value (x : ptr) : M store Z :=
  λ s, match x with
       | Some l => match s !! l with
                   | Some v => Some (v, s)
                   | None => None
                   end
       | None => None
       end.

(** Reading a pointer that may be [nil]. *)
Definition value_opt (x : ptr) : M store (option Z) :=
  match x with
  | Some _ => v ← value x; mret (Some v)
  | None => mret None
  end.

(** Writing the receiver in place. *)
Definition assign (z : ptr) (v : Z) : M store ptr :=
  λ s, match z with
       | Some l => match s !! l with
                   | Some _ => Some (z, <[l:=v]> s)
                   | None => None
                   end
       | None => None
       end.

Definition Set_ (z x : ptr) : M store ptr :=
  a ← value x; assign z a.

Definition SetUint64 (z : ptr) (u : N) : M store ptr :=
  assign z (Z.of_N u).

Definition Add (z x y : ptr) : M store ptr :=
  a ← value x; b ← value y; assign z (a + b).

Definition Sub (z x y : ptr) : M store ptr :=
  a ← value x; b ← value y; assign z (a - b).

Definition Mul (z x y : ptr) : M store ptr :=
  a ← value x; b ← value y; assign z (a * b).

(** Euclidean quotient and remainder: [0 <= emod a b < |b|]. *)
Definition ediv (a b : Z) : Z := Z.sgn b * (a / Z.abs b).

Definition emod (a b : Z) : Z := a mod Z.abs b.

(** [Div] and [Mod] are Euclidean; a zero divisor panics. *)
Definition Div (z x y : ptr) : M store ptr :=
  a ← value x; b ← value y;
  if decide (b = 0) then panic else assign z (ediv a b).

Definition Mod (z x y : ptr) : M store ptr :=
  a ← value x; b ← value y;
  if decide (b = 0) then panic else assign z (emod a b).

(** [z.Exp(x, y, nil)]: [x**y], and [1] when [y <= 0]. *)
Definition Exp (z x y : ptr) : M store ptr :=
  a ← value x; b ← value y;
  assign z (if b <=? 0 then 1 else a ^ b).

Definition Cmp (x y : ptr) : M store Z :=
  a ← value x; b ← value y;
  mret (match a ?= b with Lt => -1 | Eq => 0 | Gt => 1 end).

Definition Sign (x : ptr) : M store Z :=
  a ← value x; mret (Z.sgn a).

(** [x.Uint64()]: [x] when it fits a [uint64]; otherwise (a result the
    library documents as undefined) the low 64 bits of the magnitude of
    [x], which is what the implementation returns. *)
Definition Uint64 (x : ptr) : M store N :=
  a ← value x; mret (Z.to_N (Z.abs a mod 2 ^ 64)).

End big.

(** The integer behind a pointer, if any. *)
Definition read (s : store) (p : ptr) : option Z := l ← p; s !! l.

(** ** Headers *)

(** The fields of [types.Header] the reward code reads. *)
Record Header := mkHeader { Number : ptr; Coinbase : N }.

(** The numbers behind a list of headers. *)
Definition numbered (s : store) (hs : list Header) (ns : list Z) : Prop :=
  Forall2 (λ h n, read s (Number h) = Some n) hs ns.

(** The numbers behind a list of headers, as far as [P] requires them. *)
Definition numbered_when (P : Prop) (s : store) (hs : list Header)
    (ns : list Z) : Prop :=
  Forall2 (λ h n, P → read s (Number h) = Some n) hs ns.

(** The integers behind freshly allocated results: cells absent from [s]
    that hold [vs] in [s']. *)
Definition fresh_results (s s' : store) (ps : list ptr) (vs : list Z) : Prop :=
  Forall2 (λ p v, ∃ l, p = Some l ∧ s !! l = None ∧ s' !! l = Some v) ps vs.

(** [modifies W t t']: from [t] to [t'] no cell is freed and only the
    cells of [W] change. *)
Definition modifies (W : list loc) (t t' : store) : Prop :=
  ∀ k, is_Some (t !! k) → is_Some (t' !! k) ∧ (k ∉ W → t' !! k = t !! k).

(** A freshly allocated cell with respect to [s0]. *)
Definition fresh_ptr (s0 : store) (p : ptr) : Prop :=
  ∃ l, p = Some l ∧ s0 !! l = None.

(** [preserves s0 m P]: whenever [m] returns, every cell of [s0] is as it
    was and the result satisfies [P]. *)
Definition preserves {A} (s0 : store) (m : M store A) (P : A → Prop) : Prop :=
  ∀ s a s', s0 ⊆ s → m s = Some (a, s') → s0 ⊆ s' ∧ P a.

(** ** The reward engine *)

(** The fork configurator is consumed through its interface only: the
    type [PluginConfigurator] and its methods are not among the sources at
    hand, and stand as parameters.  [IsEnabled] is taken as a function of
    the getter's result and of the value behind the block number. *)
Class Configurator (PluginConfigurator : Type) := {
  (* getters of the transition heights: [*uint64], [None] is [nil] *)
  GetEthashECIP1017Transition : PluginConfigurator → option N;
  GetEthashEIP1234Transition : PluginConfigurator → option N;
  GetEthashEIP649Transition : PluginConfigurator → option N;
  GetEthashECIP1017EraRounds : PluginConfigurator → option N;
  (* [Uint64BigMapEncodesHex], a [map[uint64]*big.Int] *)
  GetEthashBlockRewardSchedule : PluginConfigurator → gmap N ptr;
  (* [c.IsEnabled(getter, n)], given the getter's result and the value
     behind [n]: [None] when [n] is [nil] *)
  IsEnabled : PluginConfigurator → option N → option Z → bool
}.

(** The addresses of the package-level big integers.  [big8], [big32] and
    the disinflation rates are initialised by the sources ([constants_ok]
    below); the three block rewards are declared elsewhere, and their
    values are whatever the store holds at their addresses. *)
Class Package := {
  big8 : loc;
  big32 : loc;
  DisinflationRateQuotient : loc;
  DisinflationRateDivisor : loc;
  FrontierBlockReward : loc;
  EIP649FBlockReward : loc;
  EIP1234FBlockReward : loc
}.

Section Reward.

Context {PluginConfigurator : Type} {Cfg : Configurator PluginConfigurator}
        {Pkg : Package}.

(** The values the package initialises its constants with. *)
Definition constants_ok (s : store) : Prop :=
  s !! big8 = Some 8 ∧ s !! big32 = Some 32 ∧
  s !! DisinflationRateQuotient = Some 4 ∧
  s !! DisinflationRateDivisor = Some 5.

Definition GetBlockWinnerRewardByEra (era blockReward : ptr) : M store ptr :=
  z ← big.NewInt 0;
  c ← big.Cmp era z;
  if decide (c = 0) then
    r ← big.new_Int; big.Set_ r blockReward
  else
    q ← big.new_Int;
    d ← big.new_Int;
    r ← big.new_Int;
    _ ← big.Exp q (Some DisinflationRateQuotient) era;
    _ ← big.Exp d (Some DisinflationRateDivisor) era;
    _ ← big.Mul r blockReward q;
    _ ← big.Div r r d;
    mret r.

(** The integer [GetBlockWinnerRewardByEra] leaves in its result. *)
Definition winner_value (e R : Z) : Z :=
  if decide (e = 0) then R
  else big.ediv (R * (if e <=? 0 then 1 else 4 ^ e))
                (if e <=? 0 then 1 else 5 ^ e).

Definition getEraUncleBlockReward (era blockReward : ptr) : M store ptr :=
  z ← big.new_Int;
  w ← GetBlockWinnerRewardByEra era blockReward;
  big.Div z w (Some big32).

(** The integer [GetBlockUncleRewardByEra] leaves in its result, for a
    header numbered [hn] and an uncle numbered [un]. *)
Definition uncle_value (e hn un R : Z) : Z :=
  if decide (e = 0) then big.ediv ((un + 8 - hn) * R) 8
  else big.ediv (winner_value e R) 32.

Definition GetBlockUncleRewardByEra (era : ptr) (header uncle : Header)
    (blockReward : ptr) : M store ptr :=
  z ← big.NewInt 0;
  c ← big.Cmp era z;
  if decide (c = 0) then
    r ← big.new_Int;
    _ ← big.Add r (Number uncle) (Some big8);
    _ ← big.Sub r r (Number header);
    _ ← big.Mul r r blockReward;
    _ ← big.Div r r (Some big8);
    mret r
  else getEraUncleBlockReward era blockReward.

(** The body of [for range uncles]. *)
Fixpoint GetBlockWinnerRewardForUnclesByEra_loop (era : ptr)
    (uncles : list Header) (blockReward r : ptr) : M store unit :=
  match uncles with
  | [] => mret tt
  | _ :: rest =>
      u ← getEraUncleBlockReward era blockReward;
      _ ← big.Add r r u;
      GetBlockWinnerRewardForUnclesByEra_loop era rest blockReward r
  end.

Definition GetBlockWinnerRewardForUnclesByEra (era : ptr)
    (uncles : list Header) (blockReward : ptr) : M store ptr :=
  r ← big.NewInt 0;
  _ ← GetBlockWinnerRewardForUnclesByEra_loop era uncles blockReward r;
  mret r.

(** The integer [GetBlockEra] leaves in its result. *)
Definition era_value (n L : Z) : Z :=
  if decide (Z.sgn n < 1) then 0
  else
    let remainder := big.emod (n - 1) L in
    let base := n - remainder in
    let d := big.ediv base L in
    d - big.emod d 1.

Definition GetBlockEra (blockNum eraLength : ptr) : M store ptr :=
  sg ← big.Sign blockNum;
  if decide (sg < 1) then big.new_Int
  else
    z1 ← big.NewInt 0;
    z2 ← big.NewInt 0;
    one ← big.NewInt 1;
    t ← big.Sub z2 blockNum one;
    remainder ← big.Mod z1 t eraLength;
    z3 ← big.NewInt 0;
    base ← big.Sub z3 blockNum remainder;
    z4 ← big.NewInt 0;
    d ← big.Div z4 base eraLength;
    z5 ← big.NewInt 0;
    one' ← big.NewInt 1;
    dremainder ← big.Mod z5 d one';
    z6 ← big.new_Int;
    big.Sub z6 d dremainder.

(** The body of [for i, uncle := range uncles] of [ecip1017BlockReward]. *)
Fixpoint ecip1017BlockReward_loop (era : ptr) (header : Header)
    (blockReward : ptr) (i : nat) (uncles : list Header)
    (uncleRewards : list ptr) : M store (list ptr) :=
  match uncles with
  | [] => mret uncleRewards
  | uncle :: rest =>
      ur ← GetBlockUncleRewardByEra era header uncle blockReward;
      ecip1017BlockReward_loop era header blockReward (S i) rest
        (<[i:=ur]> uncleRewards)
  end.

Definition ecip1017BlockReward (config : PluginConfigurator)
    (header : Header) (uncles : list Header) : M store (ptr * list ptr) :=
  let blockReward := Some FrontierBlockReward in
  match GetEthashECIP1017EraRounds config with
  | None => panic
  | Some eraLen =>
      z ← big.new_Int;
      el ← big.SetUint64 z eraLen;
      era ← GetBlockEra (Number header) el;
      wr ← GetBlockWinnerRewardByEra era blockReward;
      wurs ← GetBlockWinnerRewardForUnclesByEra era uncles blockReward;
      _ ← big.Add wr wr wurs;
      uncleRewards ← ecip1017BlockReward_loop era header blockReward 0
                       uncles (replicate (length uncles) None);
      mret (wr, uncleRewards)
  end.

(** One iteration of the schedule walk on the pair
    [(lastActivation, blockReward)], for [u = n.Uint64()]. *)
Definition schedule_step (u : N) (st entry : N * ptr) : N * ptr :=
  if decide (entry.1 ≤ u)%N then
    if decide (st.1 ≤ entry.1)%N then entry else st
  else st.

(** The pointer [EthashBlockReward] returns for a configurator [c] and a
    block number of value [nv]. *)
Definition reward_choice (iter : list (N * ptr)) (c : PluginConfigurator)
    (nv : Z) : ptr :=
  if IsEnabled c (GetEthashEIP1234Transition c) (Some nv) then
    Some EIP1234FBlockReward
  else if IsEnabled c (GetEthashEIP649Transition c) (Some nv) then
    Some EIP649FBlockReward
  else if decide (0 < size (GetEthashBlockRewardSchedule c))%nat then
    (foldl (schedule_step (Z.to_N (Z.abs nv mod 2 ^ 64)))
           (0%N, Some FrontierBlockReward) iter).2
  else Some FrontierBlockReward.

(** The body of [for activation, reward := range schedule]; [iter] is the
    order in which the map is enumerated. *)
Fixpoint EthashBlockReward_loop (n : ptr) (iter : list (N * ptr))
    (lastActivation : N) (blockReward : ptr) : M store ptr :=
  match iter with
  | [] => mret blockReward
  | (activation, reward) :: rest =>
      u ← big.Uint64 n;
      if decide (activation ≤ u)%N then
        if decide (lastActivation ≤ activation)%N then
          EthashBlockReward_loop n rest activation reward
        else EthashBlockReward_loop n rest lastActivation blockReward
      else EthashBlockReward_loop n rest lastActivation blockReward
  end.

(** Go enumerates a map in an unspecified order: [iter] is the order of
    this call's [range], an enumeration of the schedule. *)
Definition EthashBlockReward (iter : list (N * ptr))
    (c : option PluginConfigurator) (n : ptr) : M store ptr :=
  let blockReward := Some FrontierBlockReward in
  match c, n with
  | Some c, Some _ =>
      nv ← big.value_opt n;
      if IsEnabled c (GetEthashEIP1234Transition c) nv then
        mret (Some EIP1234FBlockReward)
      else if IsEnabled c (GetEthashEIP649Transition c) nv then
        mret (Some EIP649FBlockReward)
      else if decide (0 < size (GetEthashBlockRewardSchedule c))%nat then
        EthashBlockReward_loop n iter 0%N blockReward
      else mret blockReward
  | _, _ => mret blockReward
  end.

(** The body of [for i, uncle := range uncles] of [GetRewards]. *)
Fixpoint GetRewards_loop (header : Header) (blockReward reward r : ptr)
    (i : nat) (uncles : list Header) (uncleRewards : list ptr)
    : M store (list ptr) :=
  match uncles with
  | [] => mret uncleRewards
  | uncle :: rest =>
      _ ← big.Add r (Number uncle) (Some big8);
      _ ← big.Sub r r (Number header);
      _ ← big.Mul r r blockReward;
      _ ← big.Div r r (Some big8);
      z ← big.new_Int;
      ur ← big.Set_ z r;
      _ ← big.Div r blockReward (Some big32);
      _ ← big.Add reward reward r;
      GetRewards_loop header blockReward reward r (S i) rest
        (<[i:=ur]> uncleRewards)
  end.

Definition GetRewards (iter : list (N * ptr)) (config : PluginConfigurator)
    (header : Header) (uncles : list Header) : M store (ptr * list ptr) :=
  hn ← big.value_opt (Number header);
  if IsEnabled config (GetEthashECIP1017Transition config) hn then
    ecip1017BlockReward config header uncles
  else
    blockReward ← EthashBlockReward iter (Some config) (Number header);
    let uncleRewards := replicate (length uncles) None in
    z ← big.new_Int;
    reward ← big.Set_ z blockReward;
    r ← big.new_Int;
    uncleRewards ← GetRewards_loop header blockReward reward r 0 uncles
                     uncleRewards;
    mret (reward, uncleRewards).

End Reward.

(** ** Crediting the rewards *)

(** [core.RWStateDB] is consumed through [AddBalance] only.  The interface
    is not among the sources at hand and stands as a parameter:
    [AddBalance st addr amount] is the state database after
    [st.AddBalance(addr, amount)], given the value behind [amount]
    ([None] when [amount] is [nil]). *)
Class RWStateDB (StateDB : Type) := {
  AddBalance : StateDB → N → option Z → StateDB
}.

Section Accumulate.

Context {PluginConfigurator : Type} {Cfg : Configurator PluginConfigurator}
        {Pkg : Package} {StateDB : Type} {DB : RWStateDB StateDB}.

(** The body of [for i, uncle := range uncles]; an index [i] outside
    [uncleRewards] panics. *)
Fixpoint AccumulateRewards_loop (state : StateDB) (i : nat)
    (uncles : list Header) (uncleRewards : list ptr) : M store StateDB :=
  match uncles with
  | [] => mret state
  | uncle :: rest =>
      match uncleRewards !! i with
      | None => panic
      | Some ur =>
          amount ← big.value_opt ur;
          AccumulateRewards_loop (AddBalance state (Coinbase uncle) amount)
            (S i) rest uncleRewards
      end
  end.

Definition AccumulateRewards (iter : list (N * ptr))
    (config : PluginConfigurator) (state : StateDB) (header : Header)
    (uncles : list Header) : M store StateDB :=
  res ← GetRewards iter config header uncles;
  let minerReward := res.1 in
  let uncleRewards := res.2 in
  state ← AccumulateRewards_loop state 0 uncles uncleRewards;
  amount ← big.value_opt minerReward;
  mret (AddBalance state (Coinbase header) amount).

End Accumulate.

(** ** A concrete configuration, for examples

    An instance of the configurator interface on which the statements
    below are run.  In it a transition is enabled from its height on and
    never for a [nil] height or block number; the statements themselves
    hold for every instance. *)

Record ChainConfig := mkChainConfig {
  ECIP1017Transition : option N;
  EIP1234Transition : option N;
  EIP649Transition : option N;
  ECIP1017EraRounds : option N;
  BlockRewardSchedule : gmap N ptr
}.

Definition ChainConfig_Configurator : Configurator ChainConfig := {|
  GetEthashECIP1017Transition := ECIP1017Transition;
  GetEthashEIP1234Transition := EIP1234Transition;
  GetEthashEIP649Transition := EIP649Transition;
  GetEthashECIP1017EraRounds := ECIP1017EraRounds;
  GetEthashBlockRewardSchedule := BlockRewardSchedule;
  IsEnabled := λ _ t n,
    match t, n with
    | Some t, Some n => bool_decide (Z.of_N t ≤ n)
    | _, _ => false
    end
|}.

Definition ex_package : Package := {|
  big8 := 1; big32 := 2;
  DisinflationRateQuotient := 3; DisinflationRateDivisor := 4;
  FrontierBlockReward := 5; EIP649FBlockReward := 6; EIP1234FBlockReward := 7
|}%positive.

(** The package constants, and cells [10], [11], ... for the numbers of
    the example. *)
Definition ex_store (cells : list Z) : store :=
  list_to_map
    ([(1%positive, 8); (2%positive, 32); (3%positive, 4); (4%positive, 5);
      (5%positive, 5 * 10 ^ 18); (6%positive, 3 * 10 ^ 18);
      (7%positive, 2 * 10 ^ 18)]
     ++ zip (Pos.of_nat <$> seq 10 (length cells)) cells).

(** A state database that is the map of the balances. *)
Definition Balances_RWStateDB : RWStateDB (gmap N Z) := {|
  AddBalance := λ st addr amount,
    match amount with
    | Some a => <[addr:=default 0 (st !! addr) + a]> st
    | None => st
    end
|}.

(** No transition, no schedule: the Frontier reward throughout. *)
Definition ex_frontier : ChainConfig := mkChainConfig None None None None ∅.

(** A reward schedule: cell [10] from block [0] on, cell [11] from block
    [100] on. *)
Definition ex_scheduled : ChainConfig :=
  mkChainConfig None None None None {[0%N := Some 10%positive; 100%N := Some 11%positive]}.

(** ECIP-1017 from block [0] on, with eras of [L] blocks. *)
Definition ex_ecip1017 (L : N) : ChainConfig :=
  mkChainConfig (Some 0%N) None None (Some L) ∅.

(** ** The recency list and the generic LRU container *)

Module lru.

Section LRU.

Context {K V : Type} `{Countable K}.
(** Go's zero values of the key and value types. *)
Variable zeroK : K.
Variable zeroV : V.

Record listElem := mkElem { next : ptr; prev : ptr; v : K }.

Record cacheItem := mkItem { elem : ptr; value : V }.

(** The part of the Go heap that holds [listElem] records. *)
Abbreviation heap := (gmap loc listElem).

(** [list_] (the field [list]) is the address of the [list] struct, that
    is of its [root] element. *)
Record BasicLRU := mkLRU { list_ : loc; items : gmap K cacheItem; cap : Z }.

(** *** Field access through a pointer; [nil] panics *)

Definition deref (e : ptr) : M heap listElem :=
  λ h, match e with
       | Some l => match h !! l with
                   | Some x => Some (x, h)
                   | None => None
                   end
       | None => None
       end.

Definition update (e : ptr) (f : listElem → listElem) : M heap unit :=
  λ h, match e with
       | Some l => match h !! l with
                   | Some x => Some (tt, <[l:=f x]> h)
                   | None => None
                   end
       | None => None
       end.

Definition get_next (e : ptr) : M heap ptr := x ← deref e; mret (next x).
Definition get_prev (e : ptr) : M heap ptr := x ← deref e; mret (prev x).
Definition get_v (e : ptr) : M heap K := x ← deref e; mret (v x).
Definition set_next (e x : ptr) : M heap unit :=
  update e (λ r, mkElem x (prev r) (v r)).
Definition set_prev (e x : ptr) : M heap unit :=
  update e (λ r, mkElem (next r) x (v r)).
Definition set_v (e : ptr) (k : K) : M heap unit :=
  update e (λ r, mkElem (next r) (prev r) k).

(** [new(listElem[K])] *)
Definition new_listElem : M heap ptr :=
  λ h, let l := fresh (dom h) in Some (Some l, <[l:=mkElem None None zeroK]> h).

(** *** The doubly linked list *)

Definition list_init (l : loc) : M heap unit :=
  _ ← set_next (Some l) (Some l);
  set_prev (Some l) (Some l).

Definition newList : M heap loc :=
  l ← new_listElem;
  match l with
  | Some l => _ ← list_init l; mret l
  | None => panic
  end.

Definition pushElem (l : loc) (e : ptr) : M heap unit :=
  _ ← set_prev e (Some l);
  n ← get_next (Some l);
  _ ← set_next e n;
  _ ← set_next (Some l) e;
  n ← get_next e;
  set_prev n e.

Definition moveToFront (l : loc) (e : ptr) : M heap unit :=
  p ← get_prev e;
  n ← get_next e;
  _ ← set_next p n;
  n ← get_next e;
  p ← get_prev e;
  _ ← set_prev n p;
  pushElem l e.

Definition remove (l : loc) (e : ptr) : M heap unit :=
  p ← get_prev e;
  n ← get_next e;
  _ ← set_next p n;
  n ← get_next e;
  p ← get_prev e;
  _ ← set_prev n p;
  _ ← set_next e None;
  set_prev e None.

Definition last (l : loc) : M heap ptr :=
  e ← get_prev (Some l);
  if decide (e = Some l) then mret None else mret e.

Definition removeLast (l : loc) : M heap ptr :=
  lst ← last l;
  match lst with
  | Some _ => _ ← remove l lst; mret lst
  | None => mret lst
  end.

(** [for e := l.root.prev; e != &l.root; e = e.prev]: the loop has no
    bound in the source; [fuel] bounds the number of iterations here and
    running out of it is reported as [None]. *)
Fixpoint appendTo_loop (fuel : nat) (l : loc) (e : ptr) (slice : list K)
    : M heap (list K) :=
  match fuel with
  | O => panic
  | S fuel =>
      if decide (e = Some l) then mret slice
      else
        k ← get_v e;
        p ← get_prev e;
        appendTo_loop fuel l p (slice ++ [k])
  end.

Definition appendTo (fuel : nat) (l : loc) (slice : list K) : M heap (list K) :=
  e ← get_prev (Some l);
  appendTo_loop fuel l e slice.

(** *** The container

    A method with receiver [c *BasicLRU] takes the struct and returns it
    updated next to its results; the list elements live in the heap. *)

Definition NewBasicLRU (capacity : Z) : M heap BasicLRU :=
  let capacity := if decide (capacity ≤ 0) then 1 else capacity in
  l ← newList;
  mret (mkLRU l ∅ capacity).

Definition Len (c : BasicLRU) : Z := Z.of_nat (size (items c)).

Definition Add (c : BasicLRU) (key : K) (val : V) : M heap (bool * BasicLRU) :=
  match items c !! key with
  | Some item =>
      let item := mkItem (elem item) val in
      let c := mkLRU (list_ c) (<[key:=item]> (items c)) (cap c) in
      _ ← moveToFront (list_ c) (elem item);
      mret (false, c)
  | None =>
      '(e, evicted, c) ←
        (if decide (cap c ≤ Len c) then
           e ← removeLast (list_ c);
           k ← get_v e;
           mret (e, true, mkLRU (list_ c) (delete k (items c)) (cap c))
         else
           e ← new_listElem;
           mret (e, false, c));
      _ ← set_v e key;
      let c := mkLRU (list_ c) (<[key:=mkItem e val]> (items c)) (cap c) in
      _ ← pushElem (list_ c) e;
      mret (evicted, c)
  end.

Definition Contains (c : BasicLRU) (key : K) : bool :=
  bool_decide (is_Some (items c !! key)).

Definition Get (c : BasicLRU) (key : K) : M heap (V * bool * BasicLRU) :=
  match items c !! key with
  | None => mret (zeroV, false, c)
  | Some item =>
      _ ← moveToFront (list_ c) (elem item);
      mret (value item, true, c)
  end.

(** [c.items[key]] of a missing key is the zero [cacheItem]. *)
Definition item_at (c : BasicLRU) (key : K) : cacheItem :=
  default (mkItem None zeroV) (items c !! key).

Definition GetOldest (c : BasicLRU) : M heap (K * V * bool) :=
  lastElem ← last (list_ c);
  match lastElem with
  | None => mret (zeroK, zeroV, false)
  | Some _ =>
      key ← get_v lastElem;
      mret (key, value (item_at c key), true)
  end.

Definition Peek (c : BasicLRU) (key : K) : V * bool :=
  (value (item_at c key), bool_decide (is_Some (items c !! key))).

(** [for k := range c.items { delete(c.items, k) }] *)
Definition Purge (c : BasicLRU) : M heap BasicLRU :=
  _ ← list_init (list_ c);
  mret (mkLRU (list_ c)
          (foldr (λ kv m, delete kv.1 m) (items c) (map_to_list (items c)))
          (cap c)).

Definition Remove (c : BasicLRU) (key : K) : M heap (bool * BasicLRU) :=
  match items c !! key with
  | Some item =>
      let c := mkLRU (list_ c) (delete key (items c)) (cap c) in
      _ ← remove (list_ c) (elem item);
      mret (true, c)
  | None => mret (false, c)
  end.

Definition RemoveOldest (c : BasicLRU) : M heap (K * V * bool * BasicLRU) :=
  lastElem ← last (list_ c);
  match lastElem with
  | None => mret (zeroK, zeroV, false, c)
  | Some _ =>
      key ← get_v lastElem;
      let item := item_at c key in
      let c := mkLRU (list_ c) (delete key (items c)) (cap c) in
      _ ← remove (list_ c) lastElem;
      mret (key, value item, true, c)
  end.

Definition Keys (fuel : nat) (c : BasicLRU) : M heap (list K) :=
  let keys := [] in
  appendTo fuel (list_ c) keys.

(** *** Sequences of operations *)

Inductive op :=
| OpAdd (key : K) (val : V)
| OpGet (key : K)
| OpPeek (key : K)
| OpRemove (key : K)
| OpRemoveOldest
| OpPurge.

Definition step (o : op) (c : BasicLRU) : M heap BasicLRU :=
  match o with
  | OpAdd key val => r ← Add c key val; mret r.2
  | OpGet key => r ← Get c key; mret r.2
  | OpPeek key => let _ := Peek c key in mret c
  | OpRemove key => r ← Remove c key; mret r.2
  | OpRemoveOldest => r ← RemoveOldest c; mret r.2
  | OpPurge => Purge c
  end.

Fixpoint steps (os : list op) (c : BasicLRU) : M heap BasicLRU :=
  match os with
  | [] => mret c
  | o :: os => c ← step o c; steps os c
  end.

(** [NewBasicLRU(capacity)] followed by the operations [os]. *)
Definition session (capacity : Z) (os : list op) : M heap BasicLRU :=
  c ← NewBasicLRU capacity; steps os c.

(** *** The recency order as the specification words it

    The keys of the container, most recently used first: [Add] puts its
    key at the front (evicting the least recently used entry when the
    key is new and the container is full), a [Get] that hits moves its
    key to the front, [Peek] changes nothing, [Remove] drops its key,
    [RemoveOldest] drops the last key and [Purge] drops all. *)
Definition spec_step (capacity : Z) (o : op) (r : list K) : list K :=
  match o with
  | OpAdd key _ =>
      if decide (key ∈ r) then key :: filter (λ k, k ≠ key) r
      else if decide (Z.max capacity 1 ≤ Z.of_nat (length r))
           then key :: removelast r
           else key :: r
  | OpGet key =>
      if decide (key ∈ r) then key :: filter (λ k, k ≠ key) r else r
  | OpPeek _ => r
  | OpRemove key => filter (λ k, k ≠ key) r
  | OpRemoveOldest => removelast r
  | OpPurge => []
  end.

Definition spec_recency (capacity : Z) (os : list op) : list K :=
  foldl (λ r o, spec_step capacity o r) [] os.

(** The value of the latest [Add] of [key] among [os], if there is one. *)
Definition last_added (os : list op) (key : K) : option V :=
  foldl (λ r o, match o with
                | OpAdd k val => if decide (k = key) then Some val else r
                | _ => r
                end) None os.

(** Every value of the container is the one of the latest [Add] of its
    key. *)
Definition latest_values (os : list op) (c : BasicLRU) : Prop :=
  ∀ k it, items c !! k = Some it → last_added os k = Some (value it).

(** *** The representation of the list in the heap *)

(** The fields of the element at an address, if it is allocated. *)
Definition nextof (h : heap) (x : loc) : option ptr := next <$> h !! x.
Definition prevof (h : heap) (x : loc) : option ptr := prev <$> h !! x.
Definition vof (h : heap) (x : loc) : option K := v <$> h !! x.

(** [y] follows [x]. *)
Definition link (h : heap) (x y : loc) : Prop :=
  nextof h x = Some (Some y) ∧ prevof h y = Some (Some x).

(** From [x] the elements [xs] follow one another and [z] follows the last
    of them. *)
Fixpoint chain (h : heap) (x : loc) (xs : list loc) (z : loc) : Prop :=
  match xs with
  | [] => link h x z
  | y :: ys => link h x y ∧ chain h y ys z
  end.

(** The list at [l] is the ring [l → ps → l]: [ps] are the addresses and
    keys of its elements, front ([l.root.next]) first. *)
Definition is_list (h : heap) (l : loc) (ps : list (loc * K)) : Prop :=
  NoDup (l :: ps.*1) ∧ chain h l ps.*1 l ∧
  Forall (λ p, vof h p.1 = Some p.2) ps.

(** The container invariant: the list holds one element per key of
    [items], each item points to the element of its key, and the size is
    within the capacity. *)
Definition lru_inv (h : heap) (c : BasicLRU) (ps : list (loc * K)) : Prop :=
  is_list h (list_ c) ps ∧ NoDup ps.*2 ∧
  dom (items c) = list_to_set ps.*2 ∧
  (∀ x k, (x, k) ∈ ps → elem <$> items c !! k = Some (Some x)) ∧
  1 ≤ cap c ∧ Z.of_nat (length ps) ≤ cap c.

End LRU.

End lru.

(** ** The plugin's hooks into the client *)

(** Go's [strings.ReplaceAll(s, old, new)] on ASCII strings: the
    occurrences of [old] are replaced from left to right, without overlap;
    an empty [old] matches before every character and at the end.
    [skip] counts the characters of a match still to be passed over. *)
Fixpoint ReplaceAll_from (skip : nat) (s old new : string) : string :=
  match s with
  | EmptyString => EmptyString
  | String ch rest =>
      match skip with
      | S k => ReplaceAll_from k rest old new
      | O =>
          if String.prefix old s
          then new +:+ ReplaceAll_from (String.length old - 1) rest old new
          else String ch (ReplaceAll_from 0 rest old new)
      end
  end.

(** An empty [old]: [new] before every character and at the end. *)
Fixpoint ReplaceAll_empty (s new : string) : string :=
  match s with
  | EmptyString => new
  | String ch rest => new +:+ String ch (ReplaceAll_empty rest new)
  end.

Definition ReplaceAll (s old new : string) : string :=
  match old with
  | EmptyString => ReplaceAll_empty s new
  | _ => ReplaceAll_from 0 s old new
  end.

Definition dnsPrefixETC : string :=
  "enrtree://AJE62Q4DUX4QMMXEHCSSCSC65TDHZYSMONSD64P3WULVLSF6MRQ3K@".

Definition ClassicDNSNetwork1 : string :=
  dnsPrefixETC +:+ "all.classic.blockd.info".

Definition forkBlockIds : list N :=
  [1150000; 2500000; 3000000; 5000000; 5900000; 8772000; 9573000; 10500839;
   11700000; 13189133; 14525000; 19250000]%N.

Definition forkTimeIds : list N := [].

(** The package variable [snapDiscoveryURLs]: [None] is the [nil] slice it
    starts as. *)
Abbreviation globals := (option (list string)).

Definition Is1559 (_ : ptr) : bool := false.

Definition Is160 (num : ptr) : M store bool :=
  z ← big.NewInt 3000000;
  r ← big.Cmp num z;
  mret (bool_decide (0 ≤ r)).

Definition IsShanghai (num : ptr) : M store bool :=
  z ← big.NewInt 19250000;
  r ← big.Cmp num z;
  mret (bool_decide (0 ≤ r)).

Definition ForkIDs (_ _ : list N) : list N * list N :=
  (forkBlockIds, forkTimeIds).

Definition SetETHDiscoveryURLs (lightSync : bool) : M globals (list string) :=
  λ _,
    let url := ClassicDNSNetwork1 in
    let url := if lightSync then ReplaceAll url "all" "les" else url in
    let result := [url] in
    Some (result, Some result).

Definition SetSnapDiscoveryURLs : M globals (option (list string)) :=
  λ snapDiscoveryURLs, Some (snapDiscoveryURLs, snapDiscoveryURLs).

(** [ConsensusEngineT] and [BlockSealingT] are Go [int]s. *)
Definition ConsensusEngineT_Unknown : Z := 0.
Definition ConsensusEngineT_Ethash : Z := 1.

Definition ConsensusEngineT_String (c : Z) : string :=
  if decide (c = ConsensusEngineT_Ethash) then "ethash" else "unknown".

Definition IsEthash (c : Z) : bool := bool_decide (c = ConsensusEngineT_Ethash).

Definition IsUnknown (c : Z) : bool := bool_decide (c = ConsensusEngineT_Unknown).

Definition BlockSealing_Unknown : Z := 0.
Definition BlockSealing_Ethereum : Z := 1.

Definition BlockSealingT_String (b : Z) : string :=
  if decide (b = BlockSealing_Ethereum) then "ethereum" else "unknown".

(** * Proofs *)

(** ** Rules of the weakest precondition *)

Section wp_rules.
Context {S : Type}.
Implicit Types s : S.

Lemma wp_ret {A} (a : A) s (Q : A → S → Prop) : Q a s → wp (mret a) s Q.
Proof. done. Qed.

Lemma wp_bind {A B} (m : M S A) (f : A → M S B) s (Q : B → S → Prop) :
  wp m s (λ a s', wp (f a) s' Q) → wp (m ≫= f) s Q.
Proof.
  unfold wp, mbind, M_bind. destruct (m s) as [[a s']|]; done.
Qed.

Lemma wp_mono {A} (m : M S A) s (Q Q' : A → S → Prop) :
  wp m s Q → (∀ a s', Q a s' → Q' a s') → wp m s Q'.
Proof. unfold wp. destruct (m s) as [[a s']|]; [eauto | done]. Qed.

Lemma wp_run {A} (m : M S A) s (Q : A → S → Prop) :
  wp m s Q ↔ ∃ a s', m s = Some (a, s') ∧ Q a s'.
Proof.
  unfold wp. split.
  - destruct (m s) as [[a s']|]; [eauto | done].
  - intros (a & s' & -> & HQ). done.
Qed.
End wp_rules.

(** ** Rules for [math/big] *)

Section big_rules.
Implicit Types (s : store) (l x y z : loc).

Lemma wp_NewInt v s (Q : ptr → store → Prop) :
  (∀ l, s !! l = None → Q (Some l) (<[l:=v]> s)) → wp (big.NewInt v) s Q.
Proof.
  intros HQ. unfold wp, big.NewInt. apply HQ.
  apply not_elem_of_dom, is_fresh.
Qed.

Lemma wp_new_Int s (Q : ptr → store → Prop) :
  (∀ l, s !! l = None → Q (Some l) (<[l:=0]> s)) → wp big.new_Int s Q.
Proof. apply wp_NewInt. Qed.

Lemma wp_value x a s (Q : Z → store → Prop) :
  s !! x = Some a → Q a s → wp (big.value (Some x)) s Q.
Proof. intros Hx HQ. unfold wp, big.value. by rewrite Hx. Qed.

Lemma wp_value_opt x a s (Q : option Z → store → Prop) :
  s !! x = Some a → Q (Some a) s → wp (big.value_opt (Some x)) s Q.
Proof.
  intros Hx HQ. unfold big.value_opt. apply wp_bind.
  eapply wp_value; [done|]. by apply wp_ret.
Qed.

Lemma wp_assign z v s (Q : ptr → store → Prop) :
  is_Some (s !! z) → Q (Some z) (<[z:=v]> s) → wp (big.assign (Some z) v) s Q.
Proof. intros [w Hz] HQ. unfold wp, big.assign. by rewrite Hz. Qed.

Lemma wp_binop (f : Z → Z → Z) z x y a b s (Q : ptr → store → Prop) :
  s !! x = Some a → s !! y = Some b → is_Some (s !! z) →
  Q (Some z) (<[z:=f a b]> s) →
  wp (a ← big.value (Some x); b ← big.value (Some y);
      big.assign (Some z) (f a b)) s Q.
Proof.
  intros Hx Hy Hz HQ. apply wp_bind. eapply wp_value; [done|].
  apply wp_bind. eapply wp_value; [done|]. by apply wp_assign.
Qed.

Lemma wp_Set z x a s (Q : ptr → store → Prop) :
  s !! x = Some a → is_Some (s !! z) →
  Q (Some z) (<[z:=a]> s) → wp (big.Set_ (Some z) (Some x)) s Q.
Proof.
  intros Hx Hz HQ. apply wp_bind. eapply wp_value; [done|]. by apply wp_assign.
Qed.

Lemma wp_Add z x y a b s (Q : ptr → store → Prop) :
  s !! x = Some a → s !! y = Some b → is_Some (s !! z) →
  Q (Some z) (<[z:=a + b]> s) → wp (big.Add (Some z) (Some x) (Some y)) s Q.
Proof. apply (wp_binop Z.add). Qed.

Lemma wp_Sub z x y a b s (Q : ptr → store → Prop) :
  s !! x = Some a → s !! y = Some b → is_Some (s !! z) →
  Q (Some z) (<[z:=a - b]> s) → wp (big.Sub (Some z) (Some x) (Some y)) s Q.
Proof. apply (wp_binop Z.sub). Qed.

Lemma wp_Mul z x y a b s (Q : ptr → store → Prop) :
  s !! x = Some a → s !! y = Some b → is_Some (s !! z) →
  Q (Some z) (<[z:=a * b]> s) → wp (big.Mul (Some z) (Some x) (Some y)) s Q.
Proof. apply (wp_binop Z.mul). Qed.

Lemma wp_Exp z x y a b s (Q : ptr → store → Prop) :
  s !! x = Some a → s !! y = Some b → is_Some (s !! z) →
  Q (Some z) (<[z:=if b <=? 0 then 1 else a ^ b]> s) →
  wp (big.Exp (Some z) (Some x) (Some y)) s Q.
Proof. apply (wp_binop (λ a b, if b <=? 0 then 1 else a ^ b)). Qed.

Lemma wp_Div z x y a b s (Q : ptr → store → Prop) :
  s !! x = Some a → s !! y = Some b → is_Some (s !! z) → b ≠ 0 →
  Q (Some z) (<[z:=big.ediv a b]> s) →
  wp (big.Div (Some z) (Some x) (Some y)) s Q.
Proof.
  intros Hx Hy Hz Hb HQ. apply wp_bind. eapply wp_value; [done|].
  apply wp_bind. eapply wp_value; [done|].
  destruct (decide (b = 0)); [done|]. by apply wp_assign.
Qed.

Lemma wp_Mod z x y a b s (Q : ptr → store → Prop) :
  s !! x = Some a → s !! y = Some b → is_Some (s !! z) → b ≠ 0 →
  Q (Some z) (<[z:=big.emod a b]> s) →
  wp (big.Mod (Some z) (Some x) (Some y)) s Q.
Proof.
  intros Hx Hy Hz Hb HQ. apply wp_bind. eapply wp_value; [done|].
  apply wp_bind. eapply wp_value; [done|].
  destruct (decide (b = 0)); [done|]. by apply wp_assign.
Qed.

Lemma wp_Cmp x y a b s (Q : Z → store → Prop) :
  s !! x = Some a → s !! y = Some b →
  Q (match a ?= b with Lt => -1 | Eq => 0 | Gt => 1 end) s →
  wp (big.Cmp (Some x) (Some y)) s Q.
Proof.
  intros Hx Hy HQ. apply wp_bind. eapply wp_value; [done|].
  apply wp_bind. eapply wp_value; [done|]. by apply wp_ret.
Qed.

Lemma wp_Sign x a s (Q : Z → store → Prop) :
  s !! x = Some a → Q (Z.sgn a) s → wp (big.Sign (Some x)) s Q.
Proof.
  intros Hx HQ. apply wp_bind. eapply wp_value; [done|]. by apply wp_ret.
Qed.

Lemma wp_Uint64 x a s (Q : N → store → Prop) :
  s !! x = Some a → Q (Z.to_N (Z.abs a mod 2 ^ 64)) s →
  wp (big.Uint64 (Some x)) s Q.
Proof.
  intros Hx HQ. apply wp_bind. eapply wp_value; [done|]. by apply wp_ret.
Qed.

Lemma ediv_pos a b : 0 < b → big.ediv a b = a / b.
Proof.
  intros Hb. unfold big.ediv.
  rewrite Z.sgn_pos, Z.abs_eq by lia. lia.
Qed.

Lemma emod_pos a b : 0 < b → big.emod a b = a mod b.
Proof. intros Hb. unfold big.emod. by rewrite Z.abs_eq by lia. Qed.
End big_rules.

(** ** Symbolic execution of store code *)

Ltac norm_fresh H :=
  repeat match type of H with
         | <[_:=_]> _ !! _ = None =>
             let Hne := fresh "Hne" in
             apply lookup_insert_None in H as [H Hne]
         end.

Ltac solve_lookup :=
  repeat first
    [ rewrite lookup_insert_eq
    | rewrite lookup_insert_ne by congruence ];
  first [ reflexivity | eassumption
        | match goal with
          | Hsub : ?t ⊆ ?s1 |- ?s1 !! _ = Some _ =>
              eapply lookup_weaken; [| exact Hsub]; solve_lookup
          end ].

Ltac solve_some := eexists; solve_lookup.

Ltac solve_none :=
  first [ assumption
        | match goal with
          | H : ?m !! ?l = None, Hsub : ?s ⊆ ?m |- ?s !! ?l = None =>
              exact (lookup_weaken_None _ _ _ H Hsub)
          end ].

Ltac solve_sub :=
  repeat (apply insert_subseteq_r; [solve_none |]);
  first [ reflexivity | assumption
        | match goal with
          | H1 : ?s ⊆ ?t, H2 : ?t ⊆ ?u |- ?s ⊆ ?u => exact (transitivity H1 H2)
          | H2 : ?t ⊆ ?u |- ?s ⊆ ?u => transitivity t; [solve_sub | exact H2]
          end ].

Ltac wp_alloc :=
  let l := fresh "l" in
  let Hl := fresh "Hl" in
  first [apply wp_new_Int | apply wp_NewInt]; intros l Hl; norm_fresh Hl.

Ltac wp_op :=
  first
    [ eapply wp_Add; [solve_lookup | solve_lookup | solve_some |]
    | eapply wp_Sub; [solve_lookup | solve_lookup | solve_some |]
    | eapply wp_Mul; [solve_lookup | solve_lookup | solve_some |]
    | eapply wp_Exp; [solve_lookup | solve_lookup | solve_some |]
    | eapply wp_Set; [solve_lookup | solve_some |]
    | eapply wp_Cmp; [solve_lookup | solve_lookup |]
    | eapply wp_Sign; [solve_lookup |]
    | eapply wp_Uint64; [solve_lookup |] ].

Ltac wp_step := first [apply wp_bind; first [wp_alloc | wp_op] | wp_alloc | wp_op].

(** After a call that extends the store to [s1], what is known of the
    locations at hand is restated for [s1]. *)
Ltac lift_key Hsub s1 k :=
  lazymatch goal with
  | _ : s1 !! k = Some _ |- _ => fail
  | _ => idtac
  end;
  let H := fresh "Hlift" in
  eassert (s1 !! k = Some _) as H
    by (eapply lookup_weaken; [| exact Hsub]; solve_lookup).

Ltac lift_facts Hsub :=
  match type of Hsub with
  | _ ⊆ ?s1 =>
      repeat match goal with
             | k : loc |- _ => lift_key Hsub s1 k
             | _ : _ !! ?k = Some _ |- _ => lift_key Hsub s1 k
             end
  end.

(** ** Frame rules: what a computation leaves untouched *)

Section preserves_rules.
Implicit Types (x y z : ptr).

Lemma preserves_ret  {A} (s0 : store) (a : A) (P : A → Prop) :
  P a → preserves s0 (mret a) P.
Proof. intros HP s b s' Hsub [= <- <-]. done. Qed.

Lemma preserves_panic  {A} (s0 : store) (P : A → Prop) : preserves s0 panic P.
Proof. by intros s b s' Hsub. Qed.

Lemma preserves_bind {A B} (s0 : store) (m : M store A) (f : A → M store B)
    (P : A → Prop) (Q : B → Prop) :
  preserves s0 m P → (∀ a, P a → preserves s0 (f a) Q) →
  preserves s0 (m ≫= f) Q.
Proof.
  intros Hm Hf s b s' Hsub Hrun. unfold mbind, M_bind in Hrun.
  destruct (m s) as [[a s1]|] eqn:E; [|done].
  destruct (Hm s a s1 Hsub E) as [Hsub1 HP].
  by apply (Hf a HP s1 b s').
Qed.

Lemma preserves_mono  {A} (s0 : store) (m : M store A) (P Q : A → Prop) :
  preserves s0 m P → (∀ a, P a → Q a) → preserves s0 m Q.
Proof.
  intros Hm HPQ s a s' Hsub Hrun.
  destruct (Hm s a s' Hsub Hrun). auto.
Qed.

Lemma preserves_NewInt (s0 : store) v : preserves s0 (big.NewInt v) (fresh_ptr s0).
Proof.
  intros s a s' Hsub [= <- <-].
  assert (s !! fresh (dom s) = None) as Hf by apply not_elem_of_dom, is_fresh.
  assert (s0 !! fresh (dom s) = None) as Hf0 by eauto using lookup_weaken_None.
  split; [by apply insert_subseteq_r | by eexists].
Qed.

Lemma preserves_new_Int (s0 : store) : preserves s0 big.new_Int (fresh_ptr s0).
Proof. apply preserves_NewInt. Qed.

Lemma preserves_value (s0 : store) x : preserves s0 (big.value x) (λ _, True).
Proof.
  intros s a s' Hsub Hrun. unfold big.value in Hrun.
  destruct x as [l|]; [|done]. destruct (s !! l); [|done].
  by injection Hrun as <- <-.
Qed.

Lemma preserves_value_opt (s0 : store) x : preserves s0 (big.value_opt x) (λ _, True).
Proof.
  destruct x as [l|]; simpl.
  - eapply preserves_bind; [apply preserves_value|].
    intros a _. by apply preserves_ret.
  - by apply preserves_ret.
Qed.

Lemma preserves_assign (s0 : store) z v :
  fresh_ptr s0 z → preserves s0 (big.assign z v) (fresh_ptr s0).
Proof.
  intros (l & -> & Hl) s a s' Hsub Hrun. unfold big.assign in Hrun.
  destruct (s !! l); [|done]. injection Hrun as <- <-.
  split; [by apply insert_subseteq_r | by eexists].
Qed.

Lemma preserves_binop (s0 : store) z x y (f : Z → Z → Z) :
  fresh_ptr s0 z →
  preserves s0 (a ← big.value x; b ← big.value y; big.assign z (f a b))
    (fresh_ptr s0).
Proof.
  intros Hz. eapply preserves_bind; [apply preserves_value|]. intros a _.
  eapply preserves_bind; [apply preserves_value|]. intros b _.
  by apply preserves_assign.
Qed.

Lemma preserves_Set (s0 : store) z x :
  fresh_ptr s0 z → preserves s0 (big.Set_ z x) (fresh_ptr s0).
Proof.
  intros Hz. eapply preserves_bind; [apply preserves_value|]. intros a _.
  by apply preserves_assign.
Qed.

Lemma preserves_SetUint64 (s0 : store) z u :
  fresh_ptr s0 z → preserves s0 (big.SetUint64 z u) (fresh_ptr s0).
Proof. apply preserves_assign. Qed.

Lemma preserves_Add (s0 : store) z x y :
  fresh_ptr s0 z → preserves s0 (big.Add z x y) (fresh_ptr s0).
Proof. apply (preserves_binop s0 z x y Z.add). Qed.

Lemma preserves_Sub (s0 : store) z x y :
  fresh_ptr s0 z → preserves s0 (big.Sub z x y) (fresh_ptr s0).
Proof. apply (preserves_binop s0 z x y Z.sub). Qed.

Lemma preserves_Mul (s0 : store) z x y :
  fresh_ptr s0 z → preserves s0 (big.Mul z x y) (fresh_ptr s0).
Proof. apply (preserves_binop s0 z x y Z.mul). Qed.

Lemma preserves_Exp (s0 : store) z x y :
  fresh_ptr s0 z → preserves s0 (big.Exp z x y) (fresh_ptr s0).
Proof.
  apply (preserves_binop s0 z x y (λ a b, if b <=? 0 then 1 else a ^ b)).
Qed.

Lemma preserves_Div (s0 : store) z x y :
  fresh_ptr s0 z → preserves s0 (big.Div z x y) (fresh_ptr s0).
Proof.
  intros Hz. eapply preserves_bind; [apply preserves_value|]. intros a _.
  eapply preserves_bind; [apply preserves_value|]. intros b _.
  destruct (decide (b = 0)); [apply preserves_panic | by apply preserves_assign].
Qed.

Lemma preserves_Mod (s0 : store) z x y :
  fresh_ptr s0 z → preserves s0 (big.Mod z x y) (fresh_ptr s0).
Proof.
  intros Hz. eapply preserves_bind; [apply preserves_value|]. intros a _.
  eapply preserves_bind; [apply preserves_value|]. intros b _.
  destruct (decide (b = 0)); [apply preserves_panic | by apply preserves_assign].
Qed.

Lemma preserves_Cmp (s0 : store) x y : preserves s0 (big.Cmp x y) (λ _, True).
Proof.
  eapply preserves_bind; [apply preserves_value|]. intros a _.
  eapply preserves_bind; [apply preserves_value|]. intros b _.
  by apply preserves_ret.
Qed.

Lemma preserves_Sign (s0 : store) x : preserves s0 (big.Sign x) (λ _, True).
Proof.
  eapply preserves_bind; [apply preserves_value|]. intros a _.
  by apply preserves_ret.
Qed.

Lemma preserves_Uint64 (s0 : store) x : preserves s0 (big.Uint64 x) (λ _, True).
Proof.
  eapply preserves_bind; [apply preserves_value|]. intros a _.
  by apply preserves_ret.
Qed.
End preserves_rules.

(** One step of a frame proof: the next primitive, then its result. *)
Ltac pres_prim :=
  first
    [ apply preserves_new_Int | apply preserves_NewInt
    | apply preserves_Cmp | apply preserves_Sign | apply preserves_Uint64
    | apply preserves_value_opt | apply preserves_value
    | apply preserves_Set; assumption
    | apply preserves_SetUint64; assumption
    | apply preserves_Add; assumption
    | apply preserves_Sub; assumption
    | apply preserves_Mul; assumption
    | apply preserves_Exp; assumption
    | apply preserves_Div; assumption
    | apply preserves_Mod; assumption ].

Ltac pres_step :=
  lazymatch goal with
  | |- preserves _ (mbind _ _) _ => eapply preserves_bind; [pres_prim | intros ? ?]
  | |- preserves _ (mret _) _ => apply preserves_ret
  | |- preserves _ _ _ => pres_prim
  end.

Section reward_proofs.
Context {PluginConfigurator : Type} {Cfg : Configurator PluginConfigurator}
        {Pkg : Package}.

Implicit Types (s : store).

Lemma Cmp_zero_eq e :
  match e ?= 0 with Lt => -1 | Eq => 0 | Gt => 1 end = 0 ↔ e = 0.
Proof. destruct (Z.compare_spec e 0); split; (done || lia). Qed.

Lemma GetBlockWinnerRewardByEra_spec (era blockReward : loc) e R s
    (Q : ptr → store → Prop) :
  constants_ok s → s !! era = Some e → s !! blockReward = Some R →
  (∀ r s', s ⊆ s' → s !! r = None → s' !! r = Some (winner_value e R) →
           Q (Some r) s') →
  wp (GetBlockWinnerRewardByEra (Some era) (Some blockReward)) s Q.
Proof.
  intros (H8 & H32 & Hq & Hd) He HR HQ. unfold GetBlockWinnerRewardByEra.
  do 2 wp_step.
  destruct (decide _) as [Hc|Hc]; rewrite Cmp_zero_eq in Hc.
  - do 2 wp_step. apply HQ; [solve_sub | done |].
    unfold winner_value. rewrite decide_True by done. solve_lookup.
  - do 6 wp_step. apply wp_bind. eapply wp_Div; [solve_lookup .. | solve_some | |].
    + destruct (Z.leb_spec e 0); [done | apply Z.pow_nonzero; lia].
    + apply wp_ret. apply HQ; [solve_sub | done |].
      unfold winner_value. rewrite decide_False by done. solve_lookup.
Qed.

Lemma getEraUncleBlockReward_spec (era blockReward : loc) e R s
    (Q : ptr → store → Prop) :
  constants_ok s → s !! era = Some e → s !! blockReward = Some R →
  (∀ r s', s ⊆ s' → s !! r = None → s' !! r = Some (big.ediv (winner_value e R) 32) →
           Q (Some r) s') →
  wp (getEraUncleBlockReward (Some era) (Some blockReward)) s Q.
Proof.
  intros (H8 & H32 & Hq & Hd) He HR HQ. unfold getEraUncleBlockReward.
  wp_step. apply wp_bind.
  eapply GetBlockWinnerRewardByEra_spec; [repeat split; solve_lookup | solve_lookup ..|].
  intros w s1 Hsub Hw Hwv. norm_fresh Hw. lift_facts Hsub.
  eapply wp_Div; [solve_lookup | solve_lookup | solve_some | done |].
  apply HQ; [solve_sub | done | solve_lookup].
Qed.

Lemma read_Some s p v : read s p = Some v ↔ ∃ l, p = Some l ∧ s !! l = Some v.
Proof.
  destruct p as [l|]; simpl.
  - split; [eauto | by intros (? & [= <-] & ?)].
  - split; [done | by intros (? & ? & ?)].
Qed.

Lemma GetBlockUncleRewardByEra_spec (era blockReward hN : loc) header uncle
    e R hn un s (Q : ptr → store → Prop) :
  constants_ok s → s !! era = Some e → s !! blockReward = Some R →
  Number header = Some hN → s !! hN = Some hn →
  (e = 0 → read s (Number uncle) = Some un) →
  (∀ r s', s ⊆ s' → s !! r = None → s' !! r = Some (uncle_value e hn un R) →
           Q (Some r) s') →
  wp (GetBlockUncleRewardByEra (Some era) header uncle (Some blockReward)) s Q.
Proof.
  intros Hc He HR HhN Hhn Hu HQ.
  unfold GetBlockUncleRewardByEra. rewrite HhN.
  pose proof Hc as (H8 & H32 & Hq & Hd).
  do 2 wp_step.
  destruct (decide (_ = 0)) as [Hz|Hz]; rewrite Cmp_zero_eq in Hz;
    unfold uncle_value in HQ.
  - rewrite decide_True in HQ by done.
    apply Hu, read_Some in Hz as (uN & HuN & Hun). rewrite HuN.
    do 4 wp_step. apply wp_bind.
    eapply wp_Div; [solve_lookup | solve_lookup | solve_some | done |].
    apply wp_ret. apply HQ; [solve_sub | done | solve_lookup].
  - rewrite decide_False in HQ by done.
    eapply getEraUncleBlockReward_spec; [repeat split; solve_lookup | solve_lookup ..|].
    intros r s' Hsub Hr Hv. norm_fresh Hr.
    apply HQ; [solve_sub | done | done].
Qed.

Lemma GetBlockEra_spec (blockNum eraLength : loc) n L s (Q : ptr → store → Prop) :
  s !! blockNum = Some n → s !! eraLength = Some L → L ≠ 0 →
  (∀ r s', s ⊆ s' → s !! r = None → s' !! r = Some (era_value n L) →
           Q (Some r) s') →
  wp (GetBlockEra (Some blockNum) (Some eraLength)) s Q.
Proof.
  intros Hn HL HL0 HQ. unfold GetBlockEra, era_value in *.
  wp_step. destruct (decide (Z.sgn n < 1)) as [Hs|Hs].
  - wp_step. apply HQ; [solve_sub | done | solve_lookup].
  - do 4 wp_step. apply wp_bind.
    eapply wp_Mod; [solve_lookup | solve_lookup | solve_some | done |].
    do 3 wp_step. apply wp_bind.
    eapply wp_Div; [solve_lookup | solve_lookup | solve_some | done |].
    do 2 wp_step. apply wp_bind.
    eapply wp_Mod; [solve_lookup | solve_lookup | solve_some | done |].
    do 2 wp_step.
    apply HQ; [solve_sub | done | solve_lookup].
Qed.

Lemma read_weaken s s' p v : read s p = Some v → s ⊆ s' → read s' p = Some v.
Proof.
  rewrite !read_Some. intros (l & -> & Hl) Hsub.
  eauto using lookup_weaken.
Qed.

Lemma winner_loop_spec (era blockReward r : loc) e R s uncles :
  constants_ok s → s !! era = Some e → s !! blockReward = Some R →
  s !! r = None →
  ∀ t acc (Q : unit → store → Prop),
    s ⊆ t → t !! r = Some acc →
    (∀ t', s ⊆ t' →
           t' !! r = Some (acc + Z.of_nat (length uncles) *
                                 big.ediv (winner_value e R) 32) →
           Q tt t') →
    wp (GetBlockWinnerRewardForUnclesByEra_loop (Some era) uncles
          (Some blockReward) (Some r)) t Q.
Proof.
  intros (H8 & H32 & Hq & Hd) He HR Hr.
  induction uncles as [|u uncles IH]; intros t acc Q Hsub Hacc HQ.
  - apply wp_ret. apply HQ; [done|]. rewrite Hacc. f_equal. simpl. lia.
  - simpl GetBlockWinnerRewardForUnclesByEra_loop. apply wp_bind.
    eapply getEraUncleBlockReward_spec; [repeat split; solve_lookup | solve_lookup ..|].
    intros x t1 Hsub1 Hx Hxv. lift_facts Hsub1.
    wp_step. eapply IH; [solve_sub | solve_lookup |].
    intros t' Hsub' Hv. apply HQ; [done|]. rewrite Hv. f_equal.
    rewrite length_cons. lia.
Qed.

Lemma GetBlockWinnerRewardForUnclesByEra_spec (era blockReward : loc) e R s
    uncles (Q : ptr → store → Prop) :
  constants_ok s → s !! era = Some e → s !! blockReward = Some R →
  (∀ r s', s ⊆ s' → s !! r = None →
           s' !! r = Some (Z.of_nat (length uncles) *
                           big.ediv (winner_value e R) 32) →
           Q (Some r) s') →
  wp (GetBlockWinnerRewardForUnclesByEra (Some era) uncles (Some blockReward))
     s Q.
Proof.
  intros Hc He HR HQ. unfold GetBlockWinnerRewardForUnclesByEra.
  wp_step. apply wp_bind.
  eapply (winner_loop_spec era blockReward l e R s); [done .. | solve_sub | solve_lookup |].
  intros t' Hsub Hv. apply wp_ret. by apply HQ.
Qed.

Lemma numbered_weaken s s' hs ns : numbered s hs ns → s ⊆ s' → numbered s' hs ns.
Proof.
  intros Hn Hsub. eapply Forall2_impl; [exact Hn|].
  intros h n Hh. simpl in Hh. by apply (read_weaken s s').
Qed.

Lemma fresh_results_weaken s0 s s' s'' ps vs :
  fresh_results s s' ps vs → s0 ⊆ s → s' ⊆ s'' → fresh_results s0 s'' ps vs.
Proof.
  intros Hf H0 H1. eapply Forall2_impl; [exact Hf|].
  intros p v (l & -> & Hl & Hv). exists l.
  eauto using lookup_weaken, lookup_weaken_None.
Qed.

Lemma insert_app_replicate {A} (done : list A) (x y : A) n :
  <[length done:=x]> (done ++ y :: replicate n y) = (done ++ [x]) ++ replicate n y.
Proof.
  rewrite insert_app_r_alt, Nat.sub_diag by lia. simpl.
  by rewrite <- app_assoc.
Qed.

Lemma numbered_when_weaken P s s' hs ns :
  numbered_when P s hs ns → s ⊆ s' → numbered_when P s' hs ns.
Proof.
  intros Hn Hsub. eapply Forall2_impl; [exact Hn|].
  intros h n Hh HP. simpl in Hh. apply (read_weaken s s'); auto.
Qed.

Lemma ecip1017_loop_spec (era blockReward hN : loc) header e R hn uncles :
  Number header = Some hN →
  ∀ uns done t (Q : list ptr → store → Prop),
    constants_ok t → t !! era = Some e → t !! blockReward = Some R →
    t !! hN = Some hn → numbered_when (e = 0) t uncles uns →
    (∀ urs t', t ⊆ t' →
               fresh_results t t' urs ((λ un, uncle_value e hn un R) <$> uns) →
               Q (done ++ urs) t') →
    wp (ecip1017BlockReward_loop (Some era) header (Some blockReward)
          (length done) uncles (done ++ replicate (length uncles) None)) t Q.
Proof.
  intros HhN.
  induction uncles as [|u uncles IH]; intros uns done t Q Hc He HR Hhn Hnum HQ.
  - apply Forall2_nil_inv_l in Hnum as ->. apply wp_ret.
    simpl. apply HQ; [reflexivity | constructor].
  - apply Forall2_cons_inv_l in Hnum as (un & uns' & Hu & Hnum & ->).
    simpl ecip1017BlockReward_loop. apply wp_bind.
    eapply GetBlockUncleRewardByEra_spec; [done .. |].
    intros r t1 Hsub Hr Hv.
    rewrite insert_app_replicate.
    replace (S (length done)) with (length (done ++ [Some r]))
      by (rewrite length_app; simpl; lia).
    destruct Hc as (H8 & H32 & Hq & Hd).
    eapply IH; [repeat split; solve_lookup | solve_lookup ..
               | by eapply numbered_when_weaken |].
    intros urs t' Hsub' Hres. rewrite <- app_assoc. apply HQ; [solve_sub|].
    rewrite fmap_cons. constructor.
    + exists r. eauto using lookup_weaken.
    + eapply fresh_results_weaken; [exact Hres | done | done].
Qed.

Lemma wp_SetUint64 z u s (Q : ptr → store → Prop) :
  is_Some (s !! z) → Q (Some z) (<[z:=Z.of_N u]> s) →
  wp (big.SetUint64 (Some z) u) s Q.
Proof. apply wp_assign. Qed.

Lemma ecip1017BlockReward_spec config header uncles (hN : loc) L R hn uns s
    (Q : ptr * list ptr → store → Prop) :
  constants_ok s → s !! FrontierBlockReward = Some R →
  GetEthashECIP1017EraRounds config = Some L → L ≠ 0%N →
  Number header = Some hN → s !! hN = Some hn →
  numbered_when (era_value hn (Z.of_N L) = 0) s uncles uns →
  (∀ wr urs s',
     s ⊆ s' → s !! wr = None →
     s' !! wr = Some (winner_value (era_value hn (Z.of_N L)) R +
                      Z.of_nat (length uncles) *
                      big.ediv (winner_value (era_value hn (Z.of_N L)) R) 32) →
     fresh_results s s' urs
       ((λ un, uncle_value (era_value hn (Z.of_N L)) hn un R) <$> uns) →
     Q (Some wr, urs) s') →
  wp (ecip1017BlockReward config header uncles) s Q.
Proof.
  intros Hc HR HL HL0 HhN Hhn Hnum HQ. unfold ecip1017BlockReward.
  rewrite HL, HhN. pose proof Hc as (H8 & H32 & Hq & Hd).
  wp_step. apply wp_bind. apply wp_SetUint64; [solve_some|].
  apply wp_bind. eapply GetBlockEra_spec; [solve_lookup | solve_lookup | lia |].
  intros era s1 Hsub1 Hera Hev. norm_fresh Hera. lift_facts Hsub1.
  assert (s ⊆ s1) as Hs1 by solve_sub.
  apply wp_bind.
  eapply GetBlockWinnerRewardByEra_spec; [repeat split; solve_lookup | solve_lookup ..|].
  intros wr s2 Hsub2 Hwr Hwrv. lift_facts Hsub2.
  assert (s ⊆ s2) as Hs2 by solve_sub.
  apply wp_bind.
  eapply GetBlockWinnerRewardForUnclesByEra_spec; [repeat split; solve_lookup | solve_lookup ..|].
  intros wurs s3 Hsub3 Hwurs Hwursv. lift_facts Hsub3.
  assert (s ⊆ s3) as Hs3 by solve_sub.
  assert (s !! wr = None) as Hwr0 by solve_none.
  wp_step. apply wp_bind.
  eapply (ecip1017_loop_spec era FrontierBlockReward hN header _ R hn uncles HhN uns []);
    [repeat split; solve_lookup | solve_lookup .. | |].
  { eapply numbered_when_weaken; [exact Hnum | solve_sub]. }
  intros urs t' Hsub' Hres. apply wp_ret.
  apply HQ; [solve_sub | done | solve_lookup |].
  eapply fresh_results_weaken; [exact Hres | solve_sub | done].
Qed.

(** *** The schedule walk *)

Lemma Uint64_run (n : loc) nv s :
  s !! n = Some nv →
  big.Uint64 (Some n) s = Some (Z.to_N (Z.abs nv mod 2 ^ 64), s).
Proof.
  intros Hn. unfold big.Uint64, mbind, M_bind, big.value. by rewrite Hn.
Qed.

Lemma EthashBlockReward_loop_run (n : loc) nv s iter :
  s !! n = Some nv →
  ∀ st, EthashBlockReward_loop (Some n) iter st.1 st.2 s =
        Some ((foldl (schedule_step (Z.to_N (Z.abs nv mod 2 ^ 64))) st iter).2, s).
Proof.
  intros Hn. induction iter as [|[a r] iter IH]; intros [la br]; [done|].
  cbn [EthashBlockReward_loop fst snd foldl].
  unfold mbind at 1, M_bind at 1. rewrite (Uint64_run n nv s Hn).
  unfold schedule_step at 2. cbn [fst snd].
  repeat case_decide; apply (IH (_, _)).
Qed.

Lemma EthashBlockReward_run iter c (n : loc) nv s :
  s !! n = Some nv →
  EthashBlockReward iter (Some c) (Some n) s = Some (reward_choice iter c nv, s).
Proof.
  intros Hn. unfold EthashBlockReward, reward_choice.
  unfold big.value_opt, mbind, M_bind, big.value. rewrite Hn. simpl.
  repeat case_match; try done.
  apply (EthashBlockReward_loop_run n nv s iter Hn (0%N, _)).
Qed.

Lemma schedule_step_cases u st e :
  ((e.1 ≤ u)%N ∧ (st.1 ≤ e.1)%N ∧ schedule_step u st e = e) ∨
  (((u < e.1)%N ∨ (e.1 < st.1)%N) ∧ schedule_step u st e = st).
Proof.
  unfold schedule_step. repeat case_decide; [left | right ..]; split_and?; (done || lia).
Qed.

(** The walk keeps the entry with the greatest qualifying activation. *)
Lemma schedule_walk_max u F iter :
  let res := foldl (schedule_step u) (0%N, F) iter in
  (Forall (λ e, (u < e.1)%N) iter ∧ res = (0%N, F)) ∨
  (res ∈ iter ∧ (res.1 ≤ u)%N ∧ Forall (λ e, (e.1 ≤ u)%N → (e.1 ≤ res.1)%N) iter).
Proof.
  induction iter as [|e iter IH] using rev_ind; simpl.
  { left. by split. }
  rewrite foldl_app. simpl. set (st := foldl _ _ iter) in *.
  destruct (schedule_step_cases u st e) as [(Hq & Hl & ->)|(Hno & ->)].
  - right. split_and!; [apply elem_of_app; right; by apply list_elem_of_singleton | done |].
    apply Forall_app. split; [|by repeat constructor].
    destruct IH as [[Hall _]|(_ & _ & Hmax)].
    + eapply Forall_impl; [exact Hall|]. simpl. lia.
    + eapply Forall_impl; [exact Hmax|]. simpl. lia.
  - destruct IH as [[Hall Hst]|(Hin & Hle & Hmax)].
    + left. split; [|done]. apply Forall_app. split; [done|].
      repeat constructor. rewrite Hst in Hno. simpl in Hno. lia.
    + right. split_and!; [apply elem_of_app; by left | done |].
      apply Forall_app. split; [done|]. repeat constructor. lia.
Qed.

(** Two enumerations of one map give the same walk. *)
Lemma schedule_walk_order (sched : gmap N ptr) u F iter1 iter2 :
  iter1 ≡ₚ map_to_list sched → iter2 ≡ₚ map_to_list sched →
  (foldl (schedule_step u) (0%N, F) iter1).2 =
  (foldl (schedule_step u) (0%N, F) iter2).2.
Proof.
  intros H1 H2.
  assert (∀ iter, iter ≡ₚ map_to_list sched →
            ∀ e, e ∈ iter ↔ sched !! e.1 = Some e.2) as Hin.
  { intros iter Hp [a r]. rewrite Hp. apply elem_of_map_to_list. }
  pose proof (schedule_walk_max u F iter1) as W1.
  pose proof (schedule_walk_max u F iter2) as W2. cbv zeta in W1, W2.
  destruct W1 as [[Hall1 ->]|(Hin1 & Hle1 & Hmax1)],
           W2 as [[Hall2 ->]|(Hin2 & Hle2 & Hmax2)]; [done | | |].
  - apply (Hin _ H2), (Hin _ H1) in Hin2.
    rewrite Forall_forall in Hall1. specialize (Hall1 _ Hin2). lia.
  - apply (Hin _ H1), (Hin _ H2) in Hin1.
    rewrite Forall_forall in Hall2. specialize (Hall2 _ Hin1). lia.
  - set (r1 := foldl _ _ iter1) in *. set (r2 := foldl _ _ iter2) in *.
    rewrite Forall_forall in Hmax1, Hmax2.
    pose proof Hin1 as Hin1'. apply (Hin _ H1), (Hin _ H2) in Hin1'.
    pose proof Hin2 as Hin2'. apply (Hin _ H2), (Hin _ H1) in Hin2'.
    assert (r1.1 = r2.1) as Heq.
    { apply N.le_antisymm; [by apply (Hmax2 r1) | by apply (Hmax1 r2)]. }
    apply (Hin _ H1) in Hin1. apply (Hin _ H2) in Hin2.
    rewrite Heq in Hin1. congruence.
Qed.

(** *** The flat path *)

Lemma modifies_subseteq W s t t' :
  s ⊆ t → modifies W t t' → (∀ k, k ∈ W → s !! k = None) → s ⊆ t'.
Proof.
  intros Hsub Hmod HW. apply map_subseteq_spec. intros k v Hk.
  pose proof (lookup_weaken _ _ _ _ Hk Hsub) as Hkt.
  destruct (Hmod k) as [_ Heq]; [by eexists|].
  rewrite Heq; [done|]. intros Hin. apply HW in Hin. congruence.
Qed.

Lemma GetRewards_loop_spec (blockReward reward r hN : loc) header R hn s uncles :
  Number header = Some hN → s !! hN = Some hn → s !! blockReward = Some R →
  s !! big8 = Some 8 → s !! big32 = Some 32 →
  s !! reward = None → s !! r = None → reward ≠ r →
  ∀ uns done t acc (Q : list ptr → store → Prop),
    s ⊆ t → numbered s uncles uns →
    t !! reward = Some acc → is_Some (t !! r) →
    (∀ urs t',
       s ⊆ t' → modifies [r; reward] t t' →
       t' !! reward = Some (acc + Z.of_nat (length uncles) * big.ediv R 32) →
       fresh_results t t' urs ((λ un, big.ediv ((un + 8 - hn) * R) 8) <$> uns) →
       Q (done ++ urs) t') →
    wp (GetRewards_loop header (Some blockReward) (Some reward) (Some r)
          (length done) uncles (done ++ replicate (length uncles) None)) t Q.
Proof.
  intros HhN Hhn HR H8 H32 Hrew Hr Hne.
  induction uncles as [|u uncles IH]; intros uns done t acc Q Hsub Hnum Hacc [rv Hrv] HQ.
  - apply Forall2_nil_inv_l in Hnum as ->. apply wp_ret. simpl.
    apply HQ; [done | | | constructor].
    + intros k Hk. by split.
    + rewrite Hacc. f_equal. simpl. lia.
  - apply Forall2_cons_inv_l in Hnum as (un & uns' & Hu & Hnum & ->).
    apply read_Some in Hu as (uN & HuN & Hun).
    cbn [GetRewards_loop length replicate]. rewrite HuN, HhN.
    lift_facts Hsub. do 3 wp_step. apply wp_bind.
    eapply wp_Div; [solve_lookup | solve_lookup | solve_some | done |].
    do 2 wp_step. apply wp_bind.
    eapply wp_Div; [solve_lookup | solve_lookup | solve_some | done |].
    wp_step.
    rewrite insert_app_replicate.
    replace (S (length done)) with (length (done ++ [Some l]))
      by (rewrite length_app; simpl; lia).
    assert (l ≠ r) as Hlr by congruence.
    assert (l ≠ reward) as Hlrew by congruence.
    eapply IH; [solve_sub | done | solve_lookup | solve_some |].
    intros urs t' Hsub' Hmod Hv Hres. rewrite <- app_assoc.
    apply HQ; [done | | | ].
    + intros k [w Hk]. destruct (Hmod k) as [Hk1 Hk2].
      { destruct (decide (k = reward)) as [->|]; [solve_some|].
        destruct (decide (k = r)) as [->|]; [solve_some|].
        assert (k ≠ l) by congruence. solve_some. }
      split; [done|]. intros Hin. rewrite Hk2 by done.
      rewrite !not_elem_of_cons in Hin. destruct Hin as (? & ? & _).
      assert (k ≠ l) by congruence. solve_lookup.
    + rewrite Hv. f_equal. rewrite length_cons. lia.
    + rewrite fmap_cons. constructor.
      * exists l. split_and!; [done | done |].
        destruct (Hmod l) as [_ Hl2]; [solve_some|].
        rewrite Hl2 by (rewrite !not_elem_of_cons; split_and!; [done | done | apply not_elem_of_nil]).
        solve_lookup.
      * eapply Forall2_impl; [exact Hres|]. simpl.
        intros p v (l' & -> & Hl' & Hv'). exists l'. split_and!; [done | | done].
        norm_fresh Hl'. done.
Qed.

Lemma wp_of_run {S A} (m : M S A) (st st' : S) a (Q : A → S → Prop) :
  m st = Some (a, st') → Q a st' → wp m st Q.
Proof. intros Hm HQ. unfold wp. by rewrite Hm. Qed.

Lemma GetRewards_flat_spec iter config header uncles (hN br : loc) R hn uns s
    (Q : ptr * list ptr → store → Prop) :
  s !! big8 = Some 8 → s !! big32 = Some 32 →
  Number header = Some hN → s !! hN = Some hn →
  IsEnabled config (GetEthashECIP1017Transition config) (Some hn) = false →
  reward_choice iter config hn = Some br → s !! br = Some R →
  numbered s uncles uns →
  (∀ reward urs s',
     s ⊆ s' → s !! reward = None →
     s' !! reward = Some (R + Z.of_nat (length uncles) * big.ediv R 32) →
     fresh_results s s' urs ((λ un, big.ediv ((un + 8 - hn) * R) 8) <$> uns) →
     Q (Some reward, urs) s') →
  wp (GetRewards iter config header uncles) s Q.
Proof.
  intros H8 H32 HhN Hhn Hflat Hbr HR Hnum HQ. unfold GetRewards.
  rewrite HhN. apply wp_bind. eapply wp_value_opt; [done|]. rewrite Hflat.
  apply wp_bind. eapply wp_of_run; [by apply EthashBlockReward_run|].
  rewrite Hbr. do 3 wp_step. apply wp_bind.
  eapply (GetRewards_loop_spec br l l0 hN header R hn s uncles
            HhN Hhn HR H8 H32 Hl Hl0 Hne uns []);
    [solve_sub | done | solve_lookup | solve_some |].
  intros urs t' Hsub Hmod Hv Hres. apply wp_ret.
  apply HQ; [done | done | done |].
  eapply Forall2_impl; [exact Hres|]. simpl.
  intros p v (l' & -> & Hl' & Hv'). exists l'. norm_fresh Hl'. done.
Qed.


(** *** Frames of the reward functions *)

Lemma GetBlockWinnerRewardByEra_preserves s0 era blockReward :
  preserves s0 (GetBlockWinnerRewardByEra era blockReward) (fresh_ptr s0).
Proof.
  unfold GetBlockWinnerRewardByEra. do 2 pres_step.
  destruct (decide _); repeat pres_step; done.
Qed.

Lemma getEraUncleBlockReward_preserves s0 era blockReward :
  preserves s0 (getEraUncleBlockReward era blockReward) (fresh_ptr s0).
Proof.
  unfold getEraUncleBlockReward. pres_step.
  eapply preserves_bind; [apply GetBlockWinnerRewardByEra_preserves|].
  intros w Hw. pres_step.
Qed.

Lemma GetBlockUncleRewardByEra_preserves s0 era header uncle blockReward :
  preserves s0 (GetBlockUncleRewardByEra era header uncle blockReward)
    (fresh_ptr s0).
Proof.
  unfold GetBlockUncleRewardByEra. do 2 pres_step.
  destruct (decide _); [repeat pres_step; done|].
  apply getEraUncleBlockReward_preserves.
Qed.

Lemma winner_loop_preserves s0 era uncles blockReward r :
  fresh_ptr s0 r →
  preserves s0
    (GetBlockWinnerRewardForUnclesByEra_loop era uncles blockReward r)
    (λ _, True).
Proof.
  intros Hr. induction uncles as [|u uncles IH]; simpl.
  - by apply preserves_ret.
  - eapply preserves_bind; [apply getEraUncleBlockReward_preserves|].
    intros x Hx. pres_step. done.
Qed.

Lemma GetBlockWinnerRewardForUnclesByEra_preserves s0 era uncles blockReward :
  preserves s0 (GetBlockWinnerRewardForUnclesByEra era uncles blockReward)
    (fresh_ptr s0).
Proof.
  unfold GetBlockWinnerRewardForUnclesByEra. pres_step.
  eapply preserves_bind; [by apply winner_loop_preserves|].
  intros _ _. by apply preserves_ret.
Qed.

Lemma GetBlockEra_preserves s0 blockNum eraLength :
  preserves s0 (GetBlockEra blockNum eraLength) (fresh_ptr s0).
Proof.
  unfold GetBlockEra. pres_step.
  destruct (decide _); repeat pres_step.
Qed.

Lemma ecip1017_loop_preserves s0 era header blockReward uncles :
  ∀ done,
    preserves s0
      (ecip1017BlockReward_loop era header blockReward (length done) uncles
         (done ++ replicate (length uncles) None))
      (λ res, ∃ urs, res = done ++ urs ∧ length urs = length uncles ∧
                     Forall (fresh_ptr s0) urs).
Proof.
  induction uncles as [|u uncles IH]; intros done; simpl.
  - apply preserves_ret. exists []. by rewrite app_nil_r.
  - eapply preserves_bind; [apply GetBlockUncleRewardByEra_preserves|].
    intros ur Hur. rewrite insert_app_replicate.
    replace (S (length done)) with (length (done ++ [ur]))
      by (rewrite length_app; simpl; lia).
    eapply preserves_mono; [apply IH|].
    intros res (urs & -> & Hlen & Hall). exists (ur :: urs).
    rewrite <- app_assoc. split_and!; [done | by rewrite length_cons, Hlen |].
    by constructor.
Qed.

Lemma ecip1017BlockReward_preserves s0 config header uncles :
  preserves s0 (ecip1017BlockReward config header uncles)
    (λ res, fresh_ptr s0 res.1 ∧ length res.2 = length uncles ∧
            Forall (fresh_ptr s0) res.2).
Proof.
  unfold ecip1017BlockReward.
  destruct (GetEthashECIP1017EraRounds config); [|apply preserves_panic].
  do 2 pres_step.
  eapply preserves_bind; [apply GetBlockEra_preserves|]. intros era Hera.
  eapply preserves_bind; [apply GetBlockWinnerRewardByEra_preserves|].
  intros wr Hwr.
  eapply preserves_bind; [apply GetBlockWinnerRewardForUnclesByEra_preserves|].
  intros wurs Hwurs. pres_step.
  eapply preserves_bind; [apply (ecip1017_loop_preserves s0 _ _ _ uncles [])|].
  intros res (urs & -> & Hlen & Hall). by apply preserves_ret.
Qed.

Lemma EthashBlockReward_loop_preserves s0 n iter :
  ∀ la br, preserves s0 (EthashBlockReward_loop n iter la br) (λ _, True).
Proof.
  induction iter as [|[a r] iter IH]; intros la br; simpl.
  - by apply preserves_ret.
  - pres_step. repeat case_decide; apply IH.
Qed.

Lemma EthashBlockReward_preserves s0 iter c n :
  preserves s0 (EthashBlockReward iter c n) (λ _, True).
Proof.
  unfold EthashBlockReward.
  destruct c as [c|], n as [n|]; try by apply preserves_ret.
  pres_step. repeat case_match; try by apply preserves_ret.
  apply EthashBlockReward_loop_preserves.
Qed.

Lemma GetRewards_loop_preserves s0 header blockReward reward r uncles :
  fresh_ptr s0 reward → fresh_ptr s0 r →
  ∀ done,
    preserves s0
      (GetRewards_loop header blockReward reward r (length done) uncles
         (done ++ replicate (length uncles) None))
      (λ res, ∃ urs, res = done ++ urs ∧ length urs = length uncles ∧
                     Forall (fresh_ptr s0) urs).
Proof.
  intros Hreward Hr.
  induction uncles as [|u uncles IH]; intros done; simpl.
  - apply preserves_ret. exists []. by rewrite app_nil_r.
  - do 8 pres_step. rewrite insert_app_replicate.
    match goal with
    | |- context [<[_:=_]> _] => fail
    | |- context [(done ++ [?ur]) ++ _] =>
        replace (S (length done)) with (length (done ++ [ur]))
          by (rewrite length_app; simpl; lia);
        eapply preserves_mono; [apply IH|];
        intros res (urs & -> & Hlen & Hall); exists (ur :: urs);
        rewrite <- app_assoc; split_and!;
          [done | by rewrite length_cons, Hlen | by constructor]
    end.
Qed.

Lemma GetRewards_preserves s0 iter config header uncles :
  preserves s0 (GetRewards iter config header uncles)
    (λ res, fresh_ptr s0 res.1 ∧ length res.2 = length uncles ∧
            Forall (fresh_ptr s0) res.2).
Proof.
  unfold GetRewards. pres_step.
  destruct (IsEnabled _ _ _); [apply ecip1017BlockReward_preserves|].
  eapply preserves_bind; [apply EthashBlockReward_preserves|].
  intros blockReward _. do 3 pres_step.
  eapply preserves_bind;
    [by apply (GetRewards_loop_preserves s0 _ _ _ _ uncles) with (done := [])|].
  intros res (urs & -> & Hlen & Hall). by apply preserves_ret.
Qed.
End reward_proofs.

(** ** The reward engine: the specification's statements *)

Section reward_claims.
Context {PluginConfigurator : Type} {Cfg : Configurator PluginConfigurator}
        {Pkg : Package}.
Implicit Types (s : store).

Lemma wp_returns_ptr (m : M store ptr) s (P : loc → store → Prop) :
  wp m s (λ a s', ∃ r, a = Some r ∧ P r s') →
  ∃ r s', m s = Some (Some r, s') ∧ P r s'.
Proof.
  rewrite wp_run. intros (a & s' & Hrun & r & -> & HP). eauto.
Qed.

Lemma wp_returns_pair (m : M store (ptr * list ptr)) s
    (P : loc → list ptr → store → Prop) :
  wp m s (λ a s', ∃ r, a.1 = Some r ∧ P r a.2 s') →
  ∃ r urs s', m s = Some ((Some r, urs), s') ∧ P r urs s'.
Proof.
  rewrite wp_run. intros ([a urs] & s' & Hrun & r & Ha & HP).
  simpl in *. subst a. eauto.
Qed.

Lemma fresh_results_read s s' urs vs :
  fresh_results s s' urs vs → read s' <$> urs = Some <$> vs.
Proof.
  induction 1 as [|p v urs vs (l & -> & _ & Hv) _ IH]; [done|].
  rewrite !fmap_cons. simpl. by rewrite Hv, IH.
Qed.


(** What [GetBlockEra] computes, in closed form. *)
Lemma era_value_closed n L :
  1 ≤ L →
  era_value n L = if decide (n ≤ 0) then 0
                  else if decide (L = 1) then n else (n - 1) / L.
Proof.
  intros HL. unfold era_value.
  destruct (decide (Z.sgn n < 1)) as [Hs|Hs], (decide (n ≤ 0)) as [Hn|Hn];
    try lia.
  cbv zeta. rewrite (emod_pos _ 1), Z.mod_1_r, Z.sub_0_r by lia.
  rewrite emod_pos, ediv_pos by lia.
  destruct (decide (L = 1)) as [->|HL1].
  - rewrite Z.mod_1_r, Z.div_1_r. lia.
  - pose proof (Z.div_mod (n - 1) L ltac:(lia)) as Hdm.
    replace (n - (n - 1) mod L) with (1 + (n - 1) / L * L) by lia.
    rewrite Z.div_add by lia. rewrite Z.div_small by lia. lia.
Qed.


(** C1 (as amended): for a non-nil configurator and a block number [n]
    that fits in a [uint64], [EthashBlockReward] returns the EIP-1234
    constant when that transition is enabled at [n], else the EIP-649
    constant when that one is, else the reward the schedule maps to the
    greatest activation height [<= n], and the Frontier constant when no
    schedule entry qualifies: one and the same pointer [p] for every
    order [iter] in which the schedule map may be enumerated.  The store
    is left as it was. *)
Theorem C1_EthashBlockReward_selection (c : PluginConfigurator)
    (n : loc) (nv : Z) s :
  s !! n = Some nv → 0 ≤ nv < 2 ^ 64 →
  ∃ p,
    (∀ iter, iter ≡ₚ map_to_list (GetEthashBlockRewardSchedule c) →
             EthashBlockReward iter (Some c) (Some n) s = Some (p, s)) ∧
    if IsEnabled c (GetEthashEIP1234Transition c) (Some nv)
    then p = Some EIP1234FBlockReward
    else if IsEnabled c (GetEthashEIP649Transition c) (Some nv)
    then p = Some EIP649FBlockReward
    else
      (∀ a r, GetEthashBlockRewardSchedule c !! a = Some r →
              Z.of_N a ≤ nv →
              (∀ a', is_Some (GetEthashBlockRewardSchedule c !! a') →
                     Z.of_N a' ≤ nv → (a' ≤ a)%N) →
              p = r) ∧
      ((∀ a, is_Some (GetEthashBlockRewardSchedule c !! a) → nv < Z.of_N a) →
       p = Some FrontierBlockReward).
Proof.
  intros Hn Hnv.
  set (sched := GetEthashBlockRewardSchedule c).
  exists (reward_choice (map_to_list sched) c nv). split.
  { intros iter Hperm. rewrite (EthashBlockReward_run iter c n nv s Hn).
    do 2 f_equal. unfold reward_choice. repeat case_match; try done.
    by apply (schedule_walk_order sched). }
  unfold reward_choice.
  destruct (IsEnabled c (GetEthashEIP1234Transition c) (Some nv)); [done|].
  destruct (IsEnabled c (GetEthashEIP649Transition c) (Some nv)); [done|].
  fold sched.
  assert (∀ a r, (a, r) ∈ map_to_list sched ↔ sched !! a = Some r) as Hiter.
  { intros a r. apply elem_of_map_to_list. }
  rewrite Z.abs_eq, Z.mod_small by lia.
  destruct (decide (0 < size sched)%nat) as [Hsz|Hsz].
  - pose proof (schedule_walk_max (Z.to_N nv) (Some FrontierBlockReward)
                  (map_to_list sched)) as Hwalk. cbv zeta in Hwalk.
    set (res := foldl _ _ (map_to_list sched)) in *.
    destruct Hwalk as [[Hall ->]|(Hin & Hle & Hmax)].
    + split; [|done]. intros a r Har Ha _.
      apply Hiter in Har. rewrite Forall_forall in Hall.
      specialize (Hall _ Har). simpl in Hall. lia.
    + destruct res as [ra rp]. simpl in *. apply Hiter in Hin. split.
      * intros a r Har Ha Hgreatest.
        rewrite Forall_forall in Hmax.
        assert (a ≤ ra)%N as H1.
        { apply (Hmax (a, r)); [by apply Hiter | simpl; lia]. }
        assert (ra ≤ a)%N as H2 by (apply Hgreatest; [by eexists | lia]).
        assert (a = ra) as -> by lia. congruence.
      * intros Hnone. specialize (Hnone ra ltac:(by eexists)). lia.
  - assert (sched = ∅) as Hempty.
    { apply map_size_empty_iff. lia. }
    split; [|done]. intros a r Har. rewrite Hempty in Har. done.
Qed.

(** C8: with a nil configurator or a nil block number
    [EthashBlockReward] returns the Frontier base reward; it neither
    panics nor touches the store. *)
Theorem C8_EthashBlockReward_nil :
  (∀ iter n s,
     EthashBlockReward iter None n s = Some (Some FrontierBlockReward, s)) ∧
  (∀ iter (c : option PluginConfigurator) s,
     EthashBlockReward iter c None s = Some (Some FrontierBlockReward, s)).
Proof.
  split.
  - intros iter n s. reflexivity.
  - intros iter [c|] s; reflexivity.
Qed.

(** C3 (as amended): [GetBlockWinnerRewardByEra(0, R)] is [R], and for an
    era [e >= 1] it is [(R * 4^e) / 5^e], the powers being computed
    exactly before a single division; the division is Euclidean, that
    is it rounds down, and agrees with truncation when [R >= 0].  In
    particular the reward of era 1 is [R * 4 / 5] rounded down.  The
    result is a fresh cell. *)
Theorem C3_GetBlockWinnerRewardByEra_value (era blockReward : loc) (e R : Z) s :
  constants_ok s → s !! era = Some e → s !! blockReward = Some R →
  ∃ r s',
    GetBlockWinnerRewardByEra (Some era) (Some blockReward) s = Some (Some r, s') ∧
    s !! r = None ∧
    (e = 0 → s' !! r = Some R) ∧
    (1 ≤ e → s' !! r = Some ((R * 4 ^ e) / 5 ^ e)) ∧
    (1 ≤ e → 0 ≤ R → s' !! r = Some ((R * 4 ^ e) ÷ 5 ^ e)) ∧
    (e = 1 → s' !! r = Some (R * 4 / 5)).
Proof.
  intros Hc He HR. apply wp_returns_ptr.
  eapply GetBlockWinnerRewardByEra_spec; [done ..|].
  intros r s' Hsub Hr Hv. exists r. split; [done|]. split; [done|].
  unfold winner_value in Hv.
  assert (1 ≤ e → s' !! r = Some ((R * 4 ^ e) / 5 ^ e)) as Hdiv.
  { intros H1. rewrite decide_False in Hv by lia.
    destruct (Z.leb_spec e 0); [lia|].
    rewrite ediv_pos in Hv; [done|]. apply Z.pow_pos_nonneg; lia. }
  split_and!.
  - intros ->. by rewrite decide_True in Hv.
  - done.
  - intros H1 HR0. rewrite Hdiv by done. f_equal. symmetry.
    apply Z.quot_div_nonneg; [|apply Z.pow_pos_nonneg; lia].
    apply Z.mul_nonneg_nonneg; [done|]. apply Z.pow_nonneg. lia.
  - intros ->. by rewrite Hdiv.
Qed.

(** C4: with an era length of [1], [GetBlockEra] returns [n] for every
    block number [n >= 1], one more than [floor((n - 1) / 1)]; block [1]
    is put in era [1] instead of era [0]. *)
Theorem C4_GetBlockEra_era_length_one (blockNum eraLength : loc) (n : Z) s :
  s !! blockNum = Some n → s !! eraLength = Some 1 → 1 ≤ n →
  ∃ r s', GetBlockEra (Some blockNum) (Some eraLength) s = Some (Some r, s') ∧
          s' !! r = Some n ∧ n ≠ (n - 1) / 1.
Proof.
  intros Hn HL Hn1. apply wp_returns_ptr.
  eapply GetBlockEra_spec; [done | done | done |].
  intros r s' Hsub Hr Hv. exists r. split; [done|].
  rewrite era_value_closed in Hv by lia.
  rewrite decide_False, decide_True in Hv by lia.
  split; [done|]. rewrite Z.div_1_r. lia.
Qed.

(** [GetBlockEra] on every other input: era [0] for [n <= 0], and
    [floor((n - 1) / L)] for [n >= 1] when the era length is at least 2. *)
Lemma GetBlockEra_value (blockNum eraLength : loc) (n L : Z) s :
  s !! blockNum = Some n → s !! eraLength = Some L → 1 ≤ L →
  ∃ r s', GetBlockEra (Some blockNum) (Some eraLength) s = Some (Some r, s') ∧
          s !! r = None ∧
          (n ≤ 0 → s' !! r = Some 0) ∧
          (1 ≤ n → 2 ≤ L → s' !! r = Some ((n - 1) / L)).
Proof.
  intros Hn HL HL1. apply wp_returns_ptr.
  eapply GetBlockEra_spec; [done | done | lia |].
  intros r s' Hsub Hr Hv. exists r. split; [done|].
  rewrite era_value_closed in Hv by lia.
  split_and!; [done | |].
  - intros H0. by rewrite decide_True in Hv.
  - intros H1 H2. by rewrite !decide_False in Hv by lia.
Qed.

(** C5: on the era path the winner's reward is
    [W + uncleCount * (W / 32)] for [W = GetBlockWinnerRewardByEra(e, R)],
    [e] the era of the header and [R] the base reward; in era [0] an
    uncle's reward is the distance formula
    [R * (uncle.Number + 8 - header.Number) / 8], in an era [e >= 1] it is
    [W / 32] whatever the distance, the uncle's number not being read.
    The same holds of [GetBlockUncleRewardByEra] and
    [GetBlockWinnerRewardForUnclesByEra] for every era they are given. *)
Theorem C5_era_path_rewards config header uncles (hN : loc) (L : N)
    (R hn : Z) (uns : list Z) s :
  constants_ok s → s !! FrontierBlockReward = Some R →
  GetEthashECIP1017EraRounds config = Some L → L ≠ 0%N →
  Number header = Some hN → s !! hN = Some hn →
  (* in era 0 the uncles are numbered [uns] *)
  Forall2 (λ u un, era_value hn (Z.of_N L) = 0 → read s (Number u) = Some un)
    uncles uns →
  (* on the era path [GetRewards] is [ecip1017BlockReward] *)
  (∀ iter,
     IsEnabled config (GetEthashECIP1017Transition config) (Some hn) = true →
     GetRewards iter config header uncles s =
     ecip1017BlockReward config header uncles s) ∧
  (* the era [e] of the header and the winner reward [W] of that era *)
  (∀ (bn el : loc) t,
     t !! bn = Some hn → t !! el = Some (Z.of_N L) →
     ∃ r t', GetBlockEra (Some bn) (Some el) t = Some (Some r, t') ∧
             t' !! r = Some (era_value hn (Z.of_N L))) ∧
  (∀ (era br : loc) e R' t,
     constants_ok t → t !! era = Some e → t !! br = Some R' →
     ∃ r t', GetBlockWinnerRewardByEra (Some era) (Some br) t = Some (Some r, t') ∧
             t' !! r = Some (winner_value e R')) ∧
  (* [ecip1017BlockReward] *)
  (∃ wr urs s',
     ecip1017BlockReward config header uncles s = Some ((Some wr, urs), s') ∧
     s' !! wr = Some (winner_value (era_value hn (Z.of_N L)) R +
                      Z.of_nat (length uncles) *
                      (winner_value (era_value hn (Z.of_N L)) R / 32)) ∧
     (era_value hn (Z.of_N L) = 0 →
      read s' <$> urs = (λ un, Some (R * (un + 8 - hn) / 8)) <$> uns) ∧
     (1 ≤ era_value hn (Z.of_N L) →
      read s' <$> urs =
      replicate (length uncles)
        (Some (winner_value (era_value hn (Z.of_N L)) R / 32)))) ∧
  (* [GetBlockUncleRewardByEra], for every era *)
  (∀ (era br : loc) e R' uncle un t,
     constants_ok t → t !! era = Some e → t !! br = Some R' →
     t !! hN = Some hn → (e = 0 → read t (Number uncle) = Some un) →
     ∃ r t',
       GetBlockUncleRewardByEra (Some era) header uncle (Some br) t =
         Some (Some r, t') ∧
       (e = 0 → t' !! r = Some (R' * (un + 8 - hn) / 8)) ∧
       (1 ≤ e → t' !! r = Some (winner_value e R' / 32))) ∧
  (* [GetBlockWinnerRewardForUnclesByEra], for every era *)
  (∀ (era br : loc) e R' t,
     constants_ok t → t !! era = Some e → t !! br = Some R' →
     ∃ r t',
       GetBlockWinnerRewardForUnclesByEra (Some era) uncles (Some br) t =
         Some (Some r, t') ∧
       t' !! r = Some (Z.of_nat (length uncles) * (winner_value e R' / 32))).
Proof.
  intros Hc HR HL HL0 HhN Hhn Hnum. split_and!.
  - intros iter Hera. unfold GetRewards. rewrite HhN.
    unfold mbind at 1, M_bind at 1.
    unfold big.value_opt, mbind, M_bind, big.value. rewrite Hhn. simpl.
    by rewrite Hera.
  - intros bn el t Hbn Hel. apply wp_returns_ptr.
    eapply GetBlockEra_spec; [done | done | lia |]. eauto.
  - intros era br e R' t Ht He HR'. apply wp_returns_ptr.
    eapply GetBlockWinnerRewardByEra_spec; [done ..|]. eauto.
  - apply wp_returns_pair.
    eapply ecip1017BlockReward_spec; [done ..|].
    intros wr urs s' Hsub Hwr Hv Hres. exists wr. simpl.
    rewrite ediv_pos in Hv by done. split_and!; [done | done | |].
    + intros He0. rewrite (fresh_results_read _ _ _ _ Hres).
      rewrite <- list_fmap_compose. apply list_fmap_ext. intros _ un _. simpl.
      unfold uncle_value. rewrite He0, decide_True by done.
      rewrite ediv_pos by done. f_equal. f_equal. lia.
    + intros He1. rewrite (fresh_results_read _ _ _ _ Hres).
      rewrite <- list_fmap_compose, (Forall2_length _ _ _ Hnum).
      apply const_fmap. intros _ un _. simpl.
      unfold uncle_value. rewrite decide_False by lia.
      by rewrite ediv_pos by done.
  - intros era br e R' uncle un t Ht He HR' Hhn' Hun.
    apply wp_returns_ptr.
    eapply GetBlockUncleRewardByEra_spec; [done ..|].
    intros r t' Hsub Hr Hv. exists r. split; [done|].
    unfold uncle_value in Hv. split.
    + intros ->. rewrite decide_True, ediv_pos in Hv by done.
      rewrite Hv. f_equal. f_equal. lia.
    + intros He1. by rewrite decide_False, ediv_pos in Hv by lia.
  - intros era br e R' t Ht He HR'. apply wp_returns_ptr.
    eapply GetBlockWinnerRewardForUnclesByEra_spec; [done ..|].
    intros r t' Hsub Hr Hv. exists r. split; [done|].
    by rewrite ediv_pos in Hv by done.
Qed.

(** C2 (as amended): on the flat path, with block reward [R],
    [GetRewards] returns for each uncle, in order,
    [R * (uncle.Number + 8 - header.Number) / 8] by Euclidean division,
    which rounds down and is the truncating division whenever the
    numerator is not negative, and a miner reward of [R] plus
    [floor(R / 32)] once per uncle. *)
Theorem C2_GetRewards_flat_path iter config header uncles (hN br : loc)
    (R hn : Z) (uns : list Z) s :
  s !! big8 = Some 8 → s !! big32 = Some 32 →
  Number header = Some hN → s !! hN = Some hn →
  IsEnabled config (GetEthashECIP1017Transition config) (Some hn) = false →
  EthashBlockReward iter (Some config) (Some hN) s = Some (Some br, s) →
  s !! br = Some R → numbered s uncles uns →
  ∃ reward urs s',
    GetRewards iter config header uncles s = Some ((Some reward, urs), s') ∧
    s' !! reward = Some (R + Z.of_nat (length uncles) * (R / 32)) ∧
    read s' <$> urs = (λ un, Some (R * (un + 8 - hn) / 8)) <$> uns ∧
    (Forall (λ un, 0 ≤ R * (un + 8 - hn)) uns →
     read s' <$> urs = (λ un, Some (R * (un + 8 - hn) ÷ 8)) <$> uns).
Proof.
  intros H8 H32 HhN Hhn Hflat Hrun HR Hnum.
  rewrite (EthashBlockReward_run iter config hN hn s Hhn) in Hrun.
  injection Hrun as Hbr.
  apply wp_returns_pair.
  eapply GetRewards_flat_spec; [done ..|].
  intros reward urs s' Hsub Hrw Hv Hres. exists reward. simpl.
  rewrite ediv_pos in Hv by done.
  assert (read s' <$> urs = (λ un, Some (R * (un + 8 - hn) / 8)) <$> uns) as Hurs.
  { rewrite (fresh_results_read _ _ _ _ Hres).
    rewrite <- list_fmap_compose. apply list_fmap_ext. intros _ un _. simpl.
    rewrite ediv_pos by done. f_equal. f_equal. lia. }
  split_and!; [done | done | done |].
  intros Hpos. rewrite Hurs. apply Forall_fmap_ext_1.
  eapply Forall_impl; [exact Hpos|]. simpl. intros un Hun. f_equal.
  symmetry. by apply Z.quot_div_nonneg.
Qed.

(** C10: the reward computations return freshly allocated big integers
    only and leave every big integer that existed before the call as it
    was: in particular the cell of their [blockReward] argument and the
    shared [FrontierBlockReward] constant, which the era path aliases as
    its base reward. *)
Theorem C10_rewards_leave_store_unchanged s :
  (∀ iter config header uncles reward urs s',
     GetRewards iter config header uncles s = Some ((reward, urs), s') →
     s ⊆ s' ∧ fresh_ptr s reward ∧ Forall (fresh_ptr s) urs ∧
     ∀ v, s !! FrontierBlockReward = Some v → s' !! FrontierBlockReward = Some v) ∧
  (∀ config header uncles wr urs s',
     ecip1017BlockReward config header uncles s = Some ((wr, urs), s') →
     s ⊆ s' ∧ fresh_ptr s wr ∧ Forall (fresh_ptr s) urs ∧
     ∀ v, s !! FrontierBlockReward = Some v → s' !! FrontierBlockReward = Some v) ∧
  (∀ era blockReward r s',
     GetBlockWinnerRewardByEra era blockReward s = Some (r, s') →
     s ⊆ s' ∧ fresh_ptr s r ∧
     ∀ v, read s blockReward = Some v → read s' blockReward = Some v) ∧
  (∀ era uncles blockReward r s',
     GetBlockWinnerRewardForUnclesByEra era uncles blockReward s = Some (r, s') →
     s ⊆ s' ∧ fresh_ptr s r ∧
     ∀ v, read s blockReward = Some v → read s' blockReward = Some v) ∧
  (∀ era header uncle blockReward r s',
     GetBlockUncleRewardByEra era header uncle blockReward s = Some (r, s') →
     s ⊆ s' ∧ fresh_ptr s r ∧
     ∀ v, read s blockReward = Some v → read s' blockReward = Some v).
Proof.
  split_and!.
  - intros iter config header uncles reward urs s' Hrun.
    destruct (GetRewards_preserves s iter config header uncles s _ s'
                ltac:(reflexivity) Hrun) as (Hsub & Hf & _ & Hall).
    eauto 6 using lookup_weaken.
  - intros config header uncles wr urs s' Hrun.
    destruct (ecip1017BlockReward_preserves s config header uncles s _ s'
                ltac:(reflexivity) Hrun) as (Hsub & Hf & _ & Hall).
    eauto 6 using lookup_weaken.
  - intros era blockReward r s' Hrun.
    destruct (GetBlockWinnerRewardByEra_preserves s era blockReward s _ s'
                ltac:(reflexivity) Hrun) as (Hsub & Hf).
    eauto using read_weaken.
  - intros era uncles blockReward r s' Hrun.
    destruct (GetBlockWinnerRewardForUnclesByEra_preserves s era uncles
                blockReward s _ s' ltac:(reflexivity) Hrun) as (Hsub & Hf).
    eauto using read_weaken.
  - intros era header uncle blockReward r s' Hrun.
    destruct (GetBlockUncleRewardByEra_preserves s era header uncle
                blockReward s _ s' ltac:(reflexivity) Hrun) as (Hsub & Hf).
    eauto using read_weaken.
Qed.
End reward_claims.

(** ** The reward engine on the example configurations *)

Section reward_examples.
#[local] Existing Instance ChainConfig_Configurator.
#[local] Existing Instance ex_package.

Lemma ex_constants_ok cells : constants_ok (ex_store cells).
Proof.
  unfold constants_ok, ex_store. cbn [app list_to_map foldr fst snd uncurry].
  repeat split; by simplify_map_eq.
Qed.

(** At block 150 the schedule of [ex_scheduled] selects the reward
    activated at block 100, in cell 11. *)
Lemma C1_witness :
  ∃ p, EthashBlockReward (map_to_list (BlockRewardSchedule ex_scheduled))
         (Some ex_scheduled) (Some 12%positive) (ex_store [3; 7; 150])
       = Some (p, ex_store [3; 7; 150]) ∧ p = Some 11%positive.
Proof.
  destruct (C1_EthashBlockReward_selection (Cfg := ChainConfig_Configurator)
              (Pkg := ex_package)
              ex_scheduled 12%positive 150 (ex_store [3; 7; 150])
              ltac:(vm_compute; reflexivity) ltac:(lia)) as (p & Hrun & Hsel).
  exists p. split; [exact (Hrun _ (Permutation_refl _))|].
  simpl in Hsel. destruct Hsel as [Hmax _].
  apply (Hmax 100%N (Some 11%positive)); [reflexivity | lia |].
  intros a' [r Ha'] _.
  destruct (decide (a' = 0%N)) as [->|]; [lia|].
  destruct (decide (a' = 100%N)) as [->|]; [lia|].
  unfold ex_scheduled in Ha'. simpl in Ha'.
  rewrite lookup_insert_ne, lookup_singleton_ne in Ha' by done. done.
Defined.

(** A block number of [-1]: no activation height is [<= -1], yet the
    reward activated at height [0] is returned, not the Frontier
    constant. *)
Lemma C1_counterexample :
  ex_store [3; 7; -1] !! 12%positive = Some (-1) ∧
  IsEnabled ex_scheduled (GetEthashEIP1234Transition ex_scheduled) (Some (-1)) = false ∧
  IsEnabled ex_scheduled (GetEthashEIP649Transition ex_scheduled) (Some (-1)) = false ∧
  (∀ a, is_Some (GetEthashBlockRewardSchedule ex_scheduled !! a) → -1 < Z.of_N a) ∧
  EthashBlockReward (map_to_list (BlockRewardSchedule ex_scheduled))
    (Some ex_scheduled) (Some 12%positive) (ex_store [3; 7; -1])
  = Some (Some 10%positive, ex_store [3; 7; -1]) ∧
  Some 10%positive ≠ Some FrontierBlockReward.
Proof. split_and!; try reflexivity; [intros; lia | discriminate]. Qed.

(** Era 2 of the Frontier reward: [5e18 * 16 / 25]. *)
Lemma C3_witness :
  ∃ r s', GetBlockWinnerRewardByEra (Some 10%positive) (Some FrontierBlockReward)
            (ex_store [2]) = Some (Some r, s') ∧
          s' !! r = Some 3200000000000000000.
Proof.
  destruct (C3_GetBlockWinnerRewardByEra_value (Pkg := ex_package) 10%positive FrontierBlockReward
              2 (5 * 10 ^ 18) (ex_store [2]) (ex_constants_ok [2])
              ltac:(vm_compute; reflexivity) ltac:(vm_compute; reflexivity)) as (r & s' & Hrun & _ & _ & Hdiv & _).
  exists r, s'. split; [exact Hrun|]. apply Hdiv. lia.
Defined.

(** A base reward of [-1] in era 1: the code returns [-1], the
    truncating division [(-1 * 4) ÷ 5] is [0]. *)
Lemma C3_counterexample :
  ∃ r s', GetBlockWinnerRewardByEra (Some 10%positive) (Some 11%positive)
            (ex_store [1; -1]) = Some (Some r, s') ∧
          s' !! r = Some (-1) ∧ (-1 * 4 ^ 1) ÷ 5 ^ 1 = 0.
Proof. eexists _, _. split_and!; reflexivity. Qed.

(** Block 1 with an era length of 1. *)
Lemma C4_witness :
  ∃ r s', GetBlockEra (Some 10%positive) (Some 11%positive) (ex_store [1; 1])
          = Some (Some r, s') ∧ s' !! r = Some 1 ∧ 1 ≠ (1 - 1) / 1.
Proof.
  exact (C4_GetBlockEra_era_length_one 10%positive 11%positive 1
           (ex_store [1; 1]) ltac:(vm_compute; reflexivity) ltac:(vm_compute; reflexivity) ltac:(lia)).
Defined.

(** Header 100 with uncles 99 and 98, eras of 50 blocks: era 1. *)
Lemma C5_witness :
  ∃ wr urs s',
    ecip1017BlockReward (ex_ecip1017 50) (mkHeader (Some 10%positive) 0)
      [mkHeader (Some 11%positive) 0; mkHeader (Some 12%positive) 0]
      (ex_store [100; 99; 98]) = Some ((Some wr, urs), s') ∧
    s' !! wr = Some (4 * 10 ^ 18 + 2 * (4 * 10 ^ 18 / 32)) ∧
    read s' <$> urs = [Some (4 * 10 ^ 18 / 32); Some (4 * 10 ^ 18 / 32)].
Proof.
  destruct (C5_era_path_rewards (Cfg := ChainConfig_Configurator)
              (Pkg := ex_package) (ex_ecip1017 50) (mkHeader (Some 10%positive) 0)
              [mkHeader (Some 11%positive) 0; mkHeader (Some 12%positive) 0]
              10%positive 50%N (5 * 10 ^ 18) 100 [99; 98]
              (ex_store [100; 99; 98]) (ex_constants_ok _) ltac:(vm_compute; reflexivity) ltac:(vm_compute; reflexivity)
              ltac:(done) ltac:(vm_compute; reflexivity) ltac:(vm_compute; reflexivity)
              ltac:(repeat (constructor; [intros _; vm_compute; reflexivity|]);
                    constructor))
    as (_ & _ & _ & (wr & urs & s' & Hrun & Hwr & _ & Hurs) & _).
  exists wr, urs, s'. split; [exact Hrun|]. split; [exact Hwr|].
  apply Hurs. vm_compute. discriminate.
Defined.

(** The example of the specification: [R = 5e18], two uncles at
    distances 1 and 2. *)
Lemma C2_witness :
  ∃ reward urs s',
    GetRewards [] ex_frontier (mkHeader (Some 10%positive) 0)
      [mkHeader (Some 11%positive) 0; mkHeader (Some 12%positive) 0]
      (ex_store [100; 99; 98]) = Some ((Some reward, urs), s') ∧
    s' !! reward = Some (5 * 10 ^ 18 + 2 * (5 * 10 ^ 18 / 32)) ∧
    read s' <$> urs = [Some (5 * 10 ^ 18 * 7 / 8); Some (5 * 10 ^ 18 * 6 / 8)].
Proof.
  destruct (C2_GetRewards_flat_path (Cfg := ChainConfig_Configurator)
              (Pkg := ex_package) [] ex_frontier (mkHeader (Some 10%positive) 0)
              [mkHeader (Some 11%positive) 0; mkHeader (Some 12%positive) 0]
              10%positive FrontierBlockReward (5 * 10 ^ 18) 100 [99; 98]
              (ex_store [100; 99; 98]) ltac:(vm_compute; reflexivity) ltac:(vm_compute; reflexivity) ltac:(vm_compute; reflexivity) ltac:(vm_compute; reflexivity)
              ltac:(vm_compute; reflexivity) ltac:(vm_compute; reflexivity) ltac:(vm_compute; reflexivity) ltac:(repeat constructor))
    as (reward & urs & s' & Hrun & Hrw & Hurs & _).
  exists reward, urs, s'. split; [exact Hrun|]. split; [exact Hrw|].
  exact Hurs.
Defined.

(** A scheduled reward of [3], header 10 and an uncle numbered 1: the
    numerator [3 * (1 + 8 - 10)] is [-3]; the code returns [-1], the
    truncating division gives [0]. *)
Lemma C2_counterexample :
  ∃ reward u s',
    GetRewards (map_to_list (BlockRewardSchedule ex_scheduled)) ex_scheduled
      (mkHeader (Some 12%positive) 0) [mkHeader (Some 13%positive) 0]
      (ex_store [3; 7; 10; 1]) = Some ((Some reward, [Some u]), s') ∧
    EthashBlockReward (map_to_list (BlockRewardSchedule ex_scheduled))
      (Some ex_scheduled) (Some 12%positive) (ex_store [3; 7; 10; 1])
    = Some (Some 10%positive, ex_store [3; 7; 10; 1]) ∧
    ex_store [3; 7; 10; 1] !! 10%positive = Some 3 ∧
    s' !! u = Some (-1) ∧ 3 * (1 + 8 - 10) ÷ 8 = 0.
Proof. vm_compute. eexists _, _, _. split_and!; reflexivity. Qed.

(** The flat-path run of the example leaves the store it started from
    untouched. *)
Lemma C10_witness :
  ∃ reward urs s',
    GetRewards [] ex_frontier (mkHeader (Some 10%positive) 0)
      [mkHeader (Some 11%positive) 0; mkHeader (Some 12%positive) 0]
      (ex_store [100; 99; 98]) = Some ((reward, urs), s') ∧
    ex_store [100; 99; 98] ⊆ s' ∧
    s' !! FrontierBlockReward = Some (5 * 10 ^ 18).
Proof.
  eexists _, _, _. split; [vm_compute; reflexivity|].
  destruct (C10_rewards_leave_store_unchanged (Cfg := ChainConfig_Configurator)
              (Pkg := ex_package) (ex_store [100; 99; 98]))
    as (Hflat & _).
  destruct (Hflat [] ex_frontier (mkHeader (Some 10%positive) 0)
              [mkHeader (Some 11%positive) 0; mkHeader (Some 12%positive) 0]
              _ _ _ ltac:(vm_compute; reflexivity)) as (Hsub & _ & _ & Hfrontier).
  split; [exact Hsub|]. apply Hfrontier. reflexivity.
Defined.
End reward_examples.

(** ** The recency list: rules for the heap of list elements *)

Ltac norm_mem :=
  repeat match goal with
         | H : context [_ ∈ _ ++ _] |- _ => rewrite elem_of_app in H
         | H : context [_ ∈ _ :: _] |- _ => rewrite elem_of_cons in H
         | H : context [_ ∈ []] |- _ => rewrite elem_of_nil in H
         end;
  repeat first [rewrite elem_of_app | rewrite elem_of_cons | rewrite elem_of_nil].

Ltac solve_mem := norm_mem; intuition (subst; eauto; try congruence).

Section list_rules.
Import lru.
Context {K : Type}.
Variable zeroK : K.
Implicit Types (h : gmap loc (@listElem K)) (x y z l : loc) (p : ptr).

Lemma alloc_of_next h x p : nextof h x = Some p → is_Some (vof h x).
Proof. unfold nextof, vof. destruct (h !! x); [by eexists | done]. Qed.

Lemma alloc_of_prev h x p : prevof h x = Some p → is_Some (vof h x).
Proof. unfold prevof, vof. destruct (h !! x); [by eexists | done]. Qed.

Lemma fresh_fields h x :
  h !! x = None → nextof h x = None ∧ prevof h x = None ∧ vof h x = None.
Proof. intros Hx. unfold nextof, prevof, vof. by rewrite Hx. Qed.

Lemma wp_get_next x p h (Q : ptr → _ → Prop) :
  nextof h x = Some p → Q p h → wp (get_next (Some x)) h Q.
Proof.
  unfold nextof, wp, get_next, mbind, M_bind, deref.
  destruct (h !! x) as [e|]; [|done]. by intros [= <-].
Qed.

Lemma wp_get_prev x p h (Q : ptr → _ → Prop) :
  prevof h x = Some p → Q p h → wp (get_prev (Some x)) h Q.
Proof.
  unfold prevof, wp, get_prev, mbind, M_bind, deref.
  destruct (h !! x) as [e|]; [|done]. by intros [= <-].
Qed.

Lemma wp_get_v x (k : K) h (Q : K → _ → Prop) :
  vof h x = Some k → Q k h → wp (get_v (Some x)) h Q.
Proof.
  unfold vof, wp, get_v, mbind, M_bind, deref.
  destruct (h !! x) as [e|]; [|done]. by intros [= <-].
Qed.

Lemma wp_set_next x p h (Q : unit → _ → Prop) :
  is_Some (vof h x) →
  (∀ h', (∀ z, nextof h' z = if decide (z = x) then Some p else nextof h z) →
         (∀ z, prevof h' z = prevof h z) → (∀ z, vof h' z = vof h z) →
         Q tt h') →
  wp (set_next (Some x) p) h Q.
Proof.
  unfold vof, wp, set_next, update. intros [k Hk] HQ.
  destruct (h !! x) as [e|] eqn:Hx; [|done].
  apply HQ; intros z; unfold nextof, prevof, vof; rewrite lookup_insert;
    destruct (decide (x = z)) as [->|]; simpl; rewrite ?Hx, ?decide_True by done;
    try done; by rewrite decide_False by done.
Qed.

Lemma wp_set_prev x p h (Q : unit → _ → Prop) :
  is_Some (vof h x) →
  (∀ h', (∀ z, nextof h' z = nextof h z) →
         (∀ z, prevof h' z = if decide (z = x) then Some p else prevof h z) →
         (∀ z, vof h' z = vof h z) →
         Q tt h') →
  wp (set_prev (Some x) p) h Q.
Proof.
  unfold vof, wp, set_prev, update. intros [k Hk] HQ.
  destruct (h !! x) as [e|] eqn:Hx; [|done].
  apply HQ; intros z; unfold nextof, prevof, vof; rewrite lookup_insert;
    destruct (decide (x = z)) as [->|]; simpl; rewrite ?Hx, ?decide_True by done;
    try done; by rewrite decide_False by done.
Qed.

Lemma wp_set_v x (k : K) h (Q : unit → _ → Prop) :
  is_Some (vof h x) →
  (∀ h', (∀ z, nextof h' z = nextof h z) → (∀ z, prevof h' z = prevof h z) →
         (∀ z, vof h' z = if decide (z = x) then Some k else vof h z) →
         Q tt h') →
  wp (set_v (Some x) k) h Q.
Proof.
  unfold vof, wp, set_v, update. intros [k' Hk] HQ.
  destruct (h !! x) as [e|] eqn:Hx; [|done].
  apply HQ; intros z; unfold nextof, prevof, vof; rewrite lookup_insert;
    destruct (decide (x = z)) as [->|]; simpl; rewrite ?Hx, ?decide_True by done;
    try done; by rewrite decide_False by done.
Qed.

Lemma wp_new_listElem h (Q : ptr → _ → Prop) :
  (∀ x h', vof h x = None →
           (∀ z, nextof h' z = if decide (z = x) then Some None else nextof h z) →
           (∀ z, prevof h' z = if decide (z = x) then Some None else prevof h z) →
           (∀ z, vof h' z = if decide (z = x) then Some zeroK else vof h z) →
           Q (Some x) h') →
  wp (new_listElem zeroK) h Q.
Proof.
  intros HQ. unfold wp, new_listElem.
  assert (h !! fresh (dom h) = None) as Hf by apply not_elem_of_dom, is_fresh.
  apply HQ; [by unfold vof; rewrite Hf | ..];
    intros z; unfold nextof, prevof, vof; rewrite lookup_insert;
    destruct (decide (fresh (dom h) = z)) as [<-|]; simpl;
    rewrite ?decide_True by done; try done; by rewrite decide_False by done.
Qed.

(** *** Chains *)

Lemma chain_next h x xs z :
  chain h x xs z → nextof h x = Some (Some (default z (head xs))).
Proof. destruct xs; simpl; [by intros [? _] | by intros [[? _] _]]. Qed.

Lemma default_last_cons {A} (x y : A) ys :
  default x (list.last (y :: ys)) = default y (list.last ys).
Proof.
  revert x y. induction ys as [|y' ys IH]; intros x y; [done|].
  change (list.last (y :: y' :: ys)) with (list.last (y' :: ys)).
  by rewrite (IH x y'), (IH y y').
Qed.

Lemma chain_prev h x xs z :
  chain h x xs z → prevof h z = Some (Some (default x (list.last xs))).
Proof.
  revert x. induction xs as [|y ys IH]; intros x; simpl.
  - by intros [_ ?].
  - intros [_ Hc]. by rewrite (IH _ Hc), default_last_cons.
Qed.

Lemma chain_app h x xs e ys z :
  chain h x (xs ++ e :: ys) z ↔ chain h x xs e ∧ chain h e ys z.
Proof.
  revert x. induction xs as [|y xs IH]; intros x; simpl; [done|].
  rewrite IH. tauto.
Qed.

Lemma chain_frame h h' x xs z :
  chain h x xs z →
  (∀ u, u ∈ x :: xs → nextof h' u = nextof h u) →
  (∀ u, u ∈ xs ++ [z] → prevof h' u = prevof h u) →
  chain h' x xs z.
Proof.
  revert x. induction xs as [|y ys IH]; intros x; simpl.
  - intros [Hn Hp] Hnext Hprev. split.
    + rewrite Hnext; [done | by left].
    + rewrite Hprev; [done | by left].
  - intros [[Hn Hp] Hc] Hnext Hprev. split; [split|].
    + rewrite Hnext; [done | by left].
    + rewrite Hprev; [done | by left].
    + apply IH; [done | |].
      * intros u Hu. apply Hnext. by right.
      * intros u Hu. apply Hprev. by right.
Qed.

Lemma chain_alloc h x xs z u :
  chain h x xs z → u ∈ x :: xs ++ [z] → is_Some (vof h u).
Proof.
  revert x. induction xs as [|y ys IH]; intros x; simpl.
  - intros [Hn Hp]. rewrite elem_of_cons, list_elem_of_singleton.
    intros [->| ->]; eauto using alloc_of_next, alloc_of_prev.
  - intros [[Hn Hp] Hc]. rewrite elem_of_cons. intros [->|Hu].
    + eauto using alloc_of_next.
    + by apply (IH y).
Qed.

(** *** The list operations *)

Lemma list_init_spec l h (Q : unit → _ → Prop) :
  is_Some (vof h l) →
  (∀ h', chain h' l [] l → (∀ z, vof h' z = vof h z) → Q tt h') →
  wp (list_init l) h Q.
Proof.
  intros Hl HQ. unfold list_init.
  apply wp_bind, wp_set_next; [done|]. intros h1 Hn1 Hp1 Hv1.
  apply wp_set_prev; [by rewrite Hv1|]. intros h2 Hn2 Hp2 Hv2.
  apply HQ.
  - split; [by rewrite Hn2, Hn1, decide_True | by rewrite Hp2, decide_True].
  - intros z. by rewrite Hv2, Hv1.
Qed.

Lemma newList_spec h (Q : loc → _ → Prop) :
  (∀ l h', vof h l = None → chain h' l [] l →
           (∀ z, z ≠ l → vof h' z = vof h z) → Q l h') →
  wp (newList zeroK) h Q.
Proof.
  intros HQ. unfold newList.
  apply wp_bind, wp_new_listElem. intros l h1 Hl Hn1 Hp1 Hv1.
  apply wp_bind, list_init_spec; [by rewrite Hv1, decide_True|].
  intros h2 Hc Hv2. apply wp_ret. apply HQ; [done | done |].
  intros z Hz. by rewrite Hv2, Hv1, decide_False.
Qed.

Lemma pushElem_spec l e xs h (Q : unit → _ → Prop) :
  chain h l xs l → NoDup (l :: xs) → e ∉ l :: xs → is_Some (vof h e) →
  (∀ h', chain h' l (e :: xs) l → (∀ z, vof h' z = vof h z) → Q tt h') →
  wp (pushElem l (Some e)) h Q.
Proof.
  intros Hc Hnd He Hev HQ. unfold pushElem.
  pose proof (chain_next _ _ _ _ Hc) as Hnl.
  set (a := default l (head xs)) in *.
  assert (a ∈ xs ++ [l]) as Ha.
  { subst a. destruct xs as [|y ys]; simpl; [by left | by left]. }
  assert (e ≠ l) as Hel by (intros ->; apply He; by left).
  assert (a ≠ e) as Hae.
  { intros ->. apply He. apply elem_of_app in Ha as [?|?%list_elem_of_singleton];
      [by right | subst; by left]. }
  apply wp_bind, wp_set_prev; [done|]. intros h1 Hn1 Hp1 Hv1.
  apply wp_bind. eapply wp_get_next; [by rewrite Hn1|].
  apply wp_bind, wp_set_next; [by rewrite Hv1|]. intros h2 Hn2 Hp2 Hv2.
  apply wp_bind, wp_set_next.
  { rewrite Hv2, Hv1. eapply chain_alloc; [exact Hc | by left]. }
  intros h3 Hn3 Hp3 Hv3.
  apply wp_bind. eapply wp_get_next.
  { by rewrite Hn3, decide_False, Hn2, decide_True. }
  apply wp_set_prev.
  { rewrite Hv3, Hv2, Hv1. eapply chain_alloc; [exact Hc | by right]. }
  intros h4 Hn4 Hp4 Hv4.
  assert (∀ z, nextof h4 z = if decide (z = l) then Some (Some e)
                             else if decide (z = e) then Some (Some a)
                             else nextof h z) as Hn.
  { intros z. by rewrite Hn4, Hn3, Hn2, Hn1. }
  assert (∀ z, prevof h4 z = if decide (z = a) then Some (Some e)
                             else if decide (z = e) then Some (Some l)
                             else prevof h z) as Hp.
  { intros z. by rewrite Hp4, Hp3, Hp2, Hp1. }
  apply HQ; [|intros z; by rewrite Hv4, Hv3, Hv2, Hv1].
  apply NoDup_cons in Hnd as [Hlxs Hnd].
  simpl. split; [split|].
  - by rewrite Hn, decide_True.
  - by rewrite Hp, decide_False, decide_True.
  - destruct xs as [|y ys]; simpl in *; subst a; simpl in *.
    + split; [by rewrite Hn, decide_False, decide_True | by rewrite Hp, decide_True].
    + destruct Hc as [_ Hc]. apply NoDup_cons in Hnd as [Hy Hnd]. split; [split|].
      * by rewrite Hn, decide_False, decide_True.
      * by rewrite Hp, decide_True.
      * eapply chain_frame; [exact Hc | |].
        -- intros u Hu. rewrite Hn, !decide_False; [done | |].
           ++ intros ->. apply He. by right.
           ++ intros ->. apply Hlxs. done.
        -- intros u Hu. rewrite Hp, !decide_False; [done | |].
           ++ intros ->. apply He.
              apply elem_of_app in Hu as [?|?%list_elem_of_singleton];
                [by do 2 right | subst; by left].
           ++ intros ->.
              apply elem_of_app in Hu as [?|?%list_elem_of_singleton];
                [done | subst; apply Hlxs; by left].
Qed.

Lemma NoDup_ring_split (l e : loc) xs ys :
  NoDup (l :: xs ++ e :: ys) →
  NoDup (l :: xs ++ ys) ∧ (e ∉ l :: xs ++ ys) ∧ (l ∉ xs ++ e :: ys).
Proof.
  rewrite !NoDup_cons, !NoDup_app, NoDup_cons.
  intros (Hl & Hx & Hd & Hey & Hy).
  assert (e ∉ xs) as Hex by (intros Hin; apply (Hd e Hin); by left).
  split_and!; [ | done | | done | | done].
  - clear Hd. solve_mem.
  - intros u Hu Hu'. apply (Hd u Hu). by right.
  - clear Hd. solve_mem.
Qed.

Lemma last_default_elem (x : loc) xs : default x (list.last xs) ∈ x :: xs.
Proof.
  destruct (list.last xs) as [w|] eqn:Hw; simpl; [|by left].
  right. apply last_Some in Hw as [l' ->]. apply elem_of_app. right. by left.
Qed.

Lemma head_default_elem (z : loc) ys : default z (head ys) ∈ ys ++ [z].
Proof. destruct ys; simpl; by left. Qed.

(** Joining the two sides of a removed element: [p] is the last element
    before it and [n] the first one after it. *)
Lemma chain_bridge h h' x xs e ys z :
  chain h x xs e → chain h e ys z →
  NoDup (x :: xs ++ ys) → z ∉ xs ++ ys →
  (∀ u, nextof h' u = if decide (u = default x (list.last xs))
                      then Some (Some (default z (head ys))) else nextof h u) →
  (∀ u, prevof h' u = if decide (u = default z (head ys))
                      then Some (Some (default x (list.last xs))) else prevof h u) →
  chain h' x (xs ++ ys) z.
Proof.
  revert x. induction xs as [|y xs IH]; intros x Hc1 Hc2 Hnd Hz Hn Hp.
  - simpl in *. apply NoDup_cons in Hnd as [Hx Hnd].
    destruct ys as [|n ys]; simpl in *.
    + split; [by rewrite Hn, decide_True | by rewrite Hp, decide_True].
    + destruct Hc2 as [_ Hc2]. apply NoDup_cons in Hnd as [Hn' Hnd].
      split; [split|].
      * by rewrite Hn, decide_True.
      * by rewrite Hp, decide_True.
      * eapply chain_frame; [exact Hc2 | |].
        -- intros u Hu. rewrite Hn, decide_False; [done|]. intros ->. done.
        -- intros u Hu. rewrite Hp, decide_False; [done|]. intros ->.
           apply elem_of_app in Hu as [?|?%list_elem_of_singleton]; [done|].
           subst. apply Hz. by left.
  - simpl in Hc1. destruct Hc1 as [[Hxy Hyx] Hc1].
    rewrite <- app_comm_cons in *.
    apply NoDup_cons in Hnd as [Hx Hnd].
    rewrite default_last_cons in Hn, Hp.
    assert (default y (list.last xs) ∈ y :: xs) as Hlast.
    { destruct (list.last xs) as [w|] eqn:Hw; simpl; [|by left].
      right. apply last_Some in Hw as [l' ->]. apply elem_of_app. right. by left. }
    assert (default z (head ys) ∈ ys ++ [z]) as Hhead.
    { destruct ys; simpl; by left. }
    simpl. split; [split|].
    + rewrite Hn, decide_False; [done|]. intros Heq. rewrite <- Heq in Hlast.
      apply Hx. rewrite app_comm_cons. apply elem_of_app. by left.
    + rewrite Hp, decide_False; [done|]. intros Heq. rewrite <- Heq in Hhead.
      apply elem_of_app in Hhead as [?|?%list_elem_of_singleton].
      * apply NoDup_cons in Hnd as [Hy _]. apply Hy. apply elem_of_app. by right.
      * subst z. apply Hz. by left.
    + apply IH; [done | done | done | | done | done].
      intros Hin. apply Hz. by right.
Qed.

(** The first six statements of [moveToFront] and [remove], followed by
    [k]: the element is taken out of the ring. *)
Lemma unlink_spec {A} l e xs ys h (k : M (gmap loc (@listElem K)) A)
    (Q : A → _ → Prop) :
  chain h l (xs ++ e :: ys) l → NoDup (l :: xs ++ e :: ys) →
  (∀ h', chain h' l (xs ++ ys) l → (∀ z, vof h' z = vof h z) → wp k h' Q) →
  wp (p ← get_prev (Some e);
      n ← get_next (Some e);
      _ ← set_next p n;
      n ← get_next (Some e);
      p ← get_prev (Some e);
      _ ← set_prev n p;
      k) h Q.
Proof.
  intros Hc Hnd HQ.
  pose proof Hc as [Hc1 Hc2]%chain_app.
  pose proof (chain_prev _ _ _ _ Hc1) as Hpe.
  pose proof (chain_next _ _ _ _ Hc2) as Hne.
  pose proof (last_default_elem l xs) as Hp.
  pose proof (head_default_elem l ys) as Hn.
  set (p := default l (list.last xs)) in *.
  set (n := default l (head ys)) in *.
  destruct (NoDup_ring_split _ _ _ _ Hnd) as (Hnd' & He & Hl).
  assert (e ≠ p) as Hep by (intros <-; clear Hn; solve_mem).
  assert (e ≠ n) as Hen by (intros <-; clear Hp; solve_mem).
  assert (∀ u, u ∈ l :: xs ++ e :: ys → is_Some (vof h u)) as Halloc.
  { intros u Hu. eapply chain_alloc; [exact Hc|].
    rewrite app_comm_cons. apply elem_of_app. by left. }
  apply wp_bind. eapply wp_get_prev; [done|].
  apply wp_bind. eapply wp_get_next; [done|].
  apply wp_bind, wp_set_next; [apply Halloc; clear Hn; solve_mem|].
  intros h1 Hn1 Hp1 Hv1.
  apply wp_bind. eapply wp_get_next; [by rewrite Hn1, decide_False|].
  apply wp_bind. eapply wp_get_prev; [by rewrite Hp1|].
  apply wp_bind, wp_set_prev; [rewrite Hv1; apply Halloc; clear Hp; solve_mem|].
  intros h2 Hn2 Hp2 Hv2.
  apply HQ; [|intros z; by rewrite Hv2, Hv1].
  apply NoDup_cons in Hnd' as [Hl' Hnd'].
  eapply (chain_bridge h h2 l xs e ys l); [done | done | by apply NoDup_cons | done | |].
  - intros u. by rewrite Hn2, Hn1.
  - intros u. by rewrite Hp2, Hp1.
Qed.

Lemma moveToFront_spec l e xs ys h (Q : unit → _ → Prop) :
  chain h l (xs ++ e :: ys) l → NoDup (l :: xs ++ e :: ys) →
  (∀ h', chain h' l (e :: xs ++ ys) l → (∀ z, vof h' z = vof h z) → Q tt h') →
  wp (moveToFront l (Some e)) h Q.
Proof.
  intros Hc Hnd HQ. unfold moveToFront.
  eapply unlink_spec; [done | done |]. intros h1 Hc1 Hv1.
  destruct (NoDup_ring_split _ _ _ _ Hnd) as (Hnd' & He & Hl).
  apply (pushElem_spec l e (xs ++ ys)); [done | done | done | |].
  { rewrite Hv1. eapply chain_alloc; [exact Hc|]. solve_mem. }
  intros h2 Hc2 Hv2. apply HQ; [done|]. intros z. by rewrite Hv2, Hv1.
Qed.

Lemma remove_full_spec l e xs ys h (Q : unit → _ → Prop) :
  chain h l (xs ++ e :: ys) l → NoDup (l :: xs ++ e :: ys) →
  (∀ h', chain h' l (xs ++ ys) l → (∀ z, vof h' z = vof h z) →
         nextof h' e = Some None → prevof h' e = Some None → Q tt h') →
  wp (remove l (Some e)) h Q.
Proof.
  intros Hc Hnd HQ. unfold remove.
  eapply unlink_spec; [done | done |]. intros h1 Hc1 Hv1.
  destruct (NoDup_ring_split _ _ _ _ Hnd) as (Hnd' & He & Hl).
  assert (is_Some (vof h e)) as Hev.
  { eapply chain_alloc; [exact Hc|]. solve_mem. }
  apply wp_bind, wp_set_next; [by rewrite Hv1|]. intros h2 Hn2 Hp2 Hv2.
  apply wp_set_prev; [by rewrite Hv2, Hv1|]. intros h3 Hn3 Hp3 Hv3.
  apply HQ; [|intros z; by rewrite Hv3, Hv2, Hv1 | |].
  - eapply chain_frame; [exact Hc1 | |].
    + intros u Hu. rewrite Hn3, Hn2, decide_False; [done|]. intros ->. solve_mem.
    + intros u Hu. rewrite Hp3, decide_False, Hp2; [done|]. intros ->. solve_mem.
  - by rewrite Hn3, Hn2, decide_True.
  - by rewrite Hp3, decide_True.
Qed.

Lemma remove_spec l e xs ys h (Q : unit → _ → Prop) :
  chain h l (xs ++ e :: ys) l → NoDup (l :: xs ++ e :: ys) →
  (∀ h', chain h' l (xs ++ ys) l → (∀ z, vof h' z = vof h z) → Q tt h') →
  wp (remove l (Some e)) h Q.
Proof. intros Hc Hnd HQ. eapply remove_full_spec; [done | done |]. eauto. Qed.

Lemma last_spec l xs h (Q : ptr → _ → Prop) :
  chain h l xs l → NoDup (l :: xs) →
  Q (list.last xs) h → wp (last l) h Q.
Proof.
  intros Hc Hnd HQ. unfold last.
  apply wp_bind. eapply wp_get_prev; [exact (chain_prev _ _ _ _ Hc)|].
  destruct (list.last xs) as [w|] eqn:Hw; simpl.
  - rewrite decide_False; [by apply wp_ret|]. intros [= ->].
    apply NoDup_cons in Hnd as [Hl _]. apply Hl.
    apply last_Some in Hw as [l' ->]. apply elem_of_app. right. by left.
  - rewrite decide_True by done. by apply wp_ret.
Qed.

Lemma removeLast_spec l xs h (Q : ptr → _ → Prop) :
  chain h l xs l → NoDup (l :: xs) →
  (∀ h', chain h' l (removelast xs) l → (∀ z, vof h' z = vof h z) →
         Q (list.last xs) h') →
  wp (removeLast l) h Q.
Proof.
  intros Hc Hnd HQ. unfold removeLast.
  apply wp_bind. eapply last_spec; [done | done |].
  destruct (list.last xs) as [w|] eqn:Hw.
  - apply last_Some in Hw as [xs' ->].
    apply wp_bind. eapply (remove_spec l w xs' []); [done | done |].
    intros h' Hc' Hv'. apply wp_ret.
    rewrite removelast_last in HQ. rewrite app_nil_r in Hc'. by apply HQ.
  - apply wp_ret. apply last_None in Hw as ->. by apply HQ.
Qed.

Lemma appendTo_loop_spec l h (ps : list (loc * K)) :
  ∀ y fuel slice (Q : list K → _ → Prop),
    chain h l ps.*1 y → NoDup (l :: ps.*1) →
    Forall (λ q, vof h q.1 = Some q.2) ps →
    (length ps < fuel)%nat →
    Q (slice ++ reverse ps.*2) h →
    wp (appendTo_loop fuel l (Some (default l (list.last ps.*1))) slice) h Q.
Proof.
  induction ps as [|[x k] ps IH] using rev_ind; intros y fuel slice Q Hc Hnd Hk Hf HQ.
  - destruct fuel as [|fuel]; [simpl in Hf; lia|]. simpl.
    rewrite decide_True by done. apply wp_ret. by rewrite app_nil_r in HQ.
  - rewrite !fmap_app in *. simpl in *. rewrite last_snoc. simpl.
    rewrite length_app in Hf. simpl in Hf.
    destruct fuel as [|fuel]; [lia|]. simpl.
    apply chain_app in Hc as [Hc1 Hc2].
    apply Forall_app in Hk as [Hk1 Hk2]. apply Forall_inv in Hk2. simpl in Hk2.
    assert (NoDup (l :: ps.*1) ∧ x ∉ l :: ps.*1) as [Hnd' Hx].
    { rewrite app_comm_cons in Hnd. apply NoDup_app in Hnd as (Hnd & Hd & _).
      split; [done|]. intros Hin. apply (Hd x Hin). by left. }
    rewrite decide_False by (intros [= ->]; apply Hx; by left).
    apply wp_bind. eapply wp_get_v; [done|].
    apply wp_bind. eapply wp_get_prev; [exact (chain_prev _ _ _ _ Hc1)|].
    eapply IH; [done | done | done | lia |].
    rewrite reverse_app, reverse_singleton in HQ. by rewrite <- app_assoc.
Qed.

Lemma appendTo_spec l h (ps : list (loc * K)) fuel slice (Q : list K → _ → Prop) :
  chain h l ps.*1 l → NoDup (l :: ps.*1) →
  Forall (λ q, vof h q.1 = Some q.2) ps →
  (length ps < fuel)%nat →
  Q (slice ++ reverse ps.*2) h →
  wp (appendTo fuel l slice) h Q.
Proof.
  intros Hc Hnd Hk Hf HQ. unfold appendTo.
  apply wp_bind. eapply wp_get_prev; [exact (chain_prev _ _ _ _ Hc)|].
  by eapply appendTo_loop_spec.
Qed.
End list_rules.

(** ** The container *)

Section lru_rules.
Import lru.
Context {K V : Type} `{Countable K}.
Variable zeroK : K.
Variable zeroV : V.
Implicit Types (h : gmap loc (@listElem K)) (c : @BasicLRU K V _ _)
  (ps : list (loc * K)).

Lemma chain_ext h h' x xs z :
  chain h x xs z → (∀ u, nextof h' u = nextof h u) →
  (∀ u, prevof h' u = prevof h u) → chain h' x xs z.
Proof. intros Hc Hn Hp. eapply chain_frame; [exact Hc | auto | auto]. Qed.

Lemma filter_ne_split (k : K) l1 l2 :
  k ∉ l1 → k ∉ l2 → filter (λ k', k' ≠ k) (l1 ++ k :: l2) = l1 ++ l2.
Proof.
  intros H1 H2. rewrite filter_app.
  rewrite (filter_cons_False _ k) by (intros Hk; by apply Hk).
  assert (∀ l : list K, k ∉ l → filter (λ k', k' ≠ k) l = l) as Hid.
  { intros l Hl. induction l as [|a l IH]; [done|].
    apply not_elem_of_cons in Hl as [Hak Hl].
    rewrite filter_cons_True by done. by rewrite IH. }
  by rewrite !Hid.
Qed.

Lemma purge_fold (m : gmap K (@cacheItem V)) :
  foldr (λ kv m', delete kv.1 m') m (map_to_list m) = ∅.
Proof.
  assert (∀ (l : list (K * @cacheItem V)) k,
            foldr (λ kv m', delete kv.1 m') m l !! k =
            if decide (k ∈ l.*1) then None else m !! k) as Hfold.
  { induction l as [|[k' it] l IH]; intros k; cbn [foldr fst].
    - rewrite fmap_nil. by rewrite decide_False by apply not_elem_of_nil.
    - rewrite fmap_cons. cbn [fst]. rewrite lookup_delete. destruct (decide (k' = k)) as [->|Hne].
      + rewrite decide_True; [done | by left].
      + rewrite IH. destruct (decide (k ∈ l.*1)) as [Hin|Hin].
        * rewrite decide_True; [done | by right].
        * rewrite decide_False; [done|]. by intros [->|?]%elem_of_cons. }
  apply map_empty. intros k. rewrite Hfold.
  destruct (decide (k ∈ (map_to_list m).*1)) as [Hin|Hin]; [done|].
  destruct (m !! k) as [it|] eqn:Hk; [|done]. exfalso. apply Hin.
  apply list_elem_of_fmap. exists (k, it). split; [done|].
  by apply elem_of_map_to_list.
Qed.

Lemma inv_size h c ps : lru_inv h c ps → Len c = Z.of_nat (length ps).
Proof.
  intros (_ & Hnd & Hdom & _). unfold Len. f_equal.
  rewrite <- size_dom, Hdom, size_list_to_set by done. by rewrite length_fmap.
Qed.

Lemma inv_lookup_Some h c ps k it :
  lru_inv h c ps → items c !! k = Some it →
  ∃ x ps1 ps2, ps = ps1 ++ (x, k) :: ps2 ∧ elem it = Some x.
Proof.
  intros (_ & Hnd & Hdom & Helem & _) Hk.
  assert (k ∈ dom (items c)) as Hin by (apply elem_of_dom; by eexists).
  rewrite Hdom, elem_of_list_to_set in Hin.
  apply list_elem_of_fmap in Hin as ([x k'] & Heq & Hin). simpl in Heq. subst k'.
  pose proof (Helem x k Hin) as Hx. rewrite Hk in Hx. simpl in Hx.
  apply list_elem_of_split in Hin as (ps1 & ps2 & ->).
  exists x, ps1, ps2. split; [done | congruence].
Qed.

Lemma inv_lookup_None h c ps k :
  lru_inv h c ps → items c !! k = None → k ∉ ps.*2.
Proof.
  intros (_ & Hnd & Hdom & _) Hk Hin.
  apply (elem_of_list_to_set (C := gset K)) in Hin. rewrite <- Hdom in Hin.
  apply elem_of_dom in Hin as [it Hit]. congruence.
Qed.

Lemma NoDup_keys_split (k : K) (x : loc) ps1 ps2 :
  NoDup (ps1 ++ (x, k) :: ps2).*2 →
  (k ∉ ps1.*2) ∧ (k ∉ ps2.*2) ∧ NoDup (ps1 ++ ps2).*2.
Proof.
  rewrite !fmap_app, fmap_cons. simpl.
  rewrite !NoDup_app, NoDup_cons. intros (H1 & Hd & Hk & H2).
  split_and!; [| done | done | | done].
  - intros Hin. apply (Hd k Hin). by left.
  - intros u Hu Hu'. apply (Hd u Hu). by right.
Qed.

Lemma is_list_split h l ps1 x k ps2 :
  is_list h l (ps1 ++ (x, k) :: ps2) →
  chain h l (ps1.*1 ++ x :: ps2.*1) l ∧ NoDup (l :: ps1.*1 ++ x :: ps2.*1).
Proof.
  intros (Hnd & Hc & _). rewrite fmap_app, fmap_cons in Hnd, Hc. done.
Qed.

(** An element moved to the front. *)
Lemma touch_inv h h' c c' ps1 ps2 x k :
  lru_inv h c (ps1 ++ (x, k) :: ps2) →
  chain h' (list_ c) (x :: ps1.*1 ++ ps2.*1) (list_ c) →
  (∀ z, vof h' z = vof h z) →
  list_ c' = list_ c → cap c' = cap c →
  (∀ k', elem <$> items c' !! k' = elem <$> items c !! k') →
  lru_inv h' c' ((x, k) :: ps1 ++ ps2).
Proof.
  intros ((Hnd & Hc & Hk) & Hndk & Hdom & Helem & Hcap & Hlen) Hc' Hv Hl Hcap' Hit.
  assert ((x, k) :: ps1 ++ ps2 ≡ₚ ps1 ++ (x, k) :: ps2) as Hperm
    by apply Permutation_middle.
  split_and!.
  - split_and!.
    + rewrite Hl. rewrite Hperm. done.
    + rewrite Hl, fmap_cons, fmap_app. done.
    + rewrite Hperm. eapply Forall_impl; [exact Hk|]. intros q Hq. by rewrite Hv.
  - by rewrite Hperm.
  - rewrite Hperm, <- Hdom. apply set_eq. intros k'.
    rewrite !elem_of_dom, <- !(fmap_is_Some elem), Hit. done.
  - intros x' k' Hin. rewrite Hit. apply Helem. by rewrite <- Hperm.
  - by rewrite Hcap'.
  - rewrite Hcap'. by rewrite Hperm.
Qed.

(** An element taken out, its key deleted. *)
Lemma drop_inv h h' c c' ps1 ps2 x k :
  lru_inv h c (ps1 ++ (x, k) :: ps2) →
  chain h' (list_ c) (ps1.*1 ++ ps2.*1) (list_ c) →
  (∀ z, vof h' z = vof h z) →
  list_ c' = list_ c → cap c' = cap c → items c' = delete k (items c) →
  lru_inv h' c' (ps1 ++ ps2).
Proof.
  intros ((Hnd & Hc & Hk) & Hndk & Hdom & Helem & Hcap & Hlen) Hc' Hv Hl Hcap' Hit.
  destruct (NoDup_keys_split _ _ _ _ Hndk) as (Hk1 & Hk2 & Hndk').
  rewrite fmap_app, fmap_cons in Hnd.
  destruct (NoDup_ring_split _ _ _ _ Hnd) as (Hnd' & _ & _).
  split_and!.
  - split_and!.
    + by rewrite Hl, fmap_app.
    + by rewrite Hl, fmap_app.
    + apply Forall_app in Hk as [Hka Hkb]. apply Forall_cons in Hkb as [_ Hkb].
      apply Forall_app. split; (eapply Forall_impl; [eassumption|]);
        intros q Hq; by rewrite Hv.
  - done.
  - rewrite Hit, dom_delete_L, Hdom. rewrite !fmap_app, fmap_cons. simpl.
    rewrite !list_to_set_app_L, list_to_set_cons.
    apply set_eq. intros k'. rewrite !elem_of_difference, !elem_of_union,
      !elem_of_list_to_set, !elem_of_singleton.
    split; [tauto|]. intros [Hin|Hin]; (split; [tauto|]); intros ->; done.
  - intros x' k' Hin. rewrite Hit.
    assert (k' ≠ k) as Hne.
    { intros ->. apply elem_of_app in Hin as [Hin|Hin].
      - apply Hk1. apply list_elem_of_fmap. by exists (x', k).
      - apply Hk2. apply list_elem_of_fmap. by exists (x', k). }
    rewrite lookup_delete_ne by done. apply Helem.
    apply elem_of_app in Hin as [Hin|Hin]; apply elem_of_app; [by left | by do 2 right].
  - by rewrite Hcap'.
  - rewrite Hcap'. rewrite !length_app in *. simpl in Hlen. lia.
Qed.

(** A new element put at the front. *)
Lemma push_inv h h' c c' ps x k val :
  lru_inv h c ps → x ∉ list_ c :: ps.*1 → k ∉ ps.*2 →
  chain h' (list_ c) (x :: ps.*1) (list_ c) →
  vof h' x = Some k → (∀ z, z ≠ x → vof h' z = vof h z) →
  list_ c' = list_ c → cap c' = cap c →
  items c' = <[k:=mkItem (Some x) val]> (items c) →
  Z.of_nat (length ps) + 1 ≤ cap c →
  lru_inv h' c' ((x, k) :: ps).
Proof.
  intros ((Hnd & Hc & Hk) & Hndk & Hdom & Helem & Hcap & Hlen)
    Hx Hkn Hc' Hvx Hv Hl Hcap' Hit Hroom.
  split_and!.
  - split_and!.
    + rewrite Hl, fmap_cons. simpl. apply NoDup_cons in Hnd as [Hl' Hnd].
      apply NoDup_cons. split; [|apply NoDup_cons; split; [|done]].
      * clear Hk Helem. solve_mem.
      * clear Hk Helem. solve_mem.
    + by rewrite Hl, fmap_cons.
    + constructor; [done|]. rewrite Forall_forall in Hk |- *.
      intros q Hq. rewrite Hv; [by apply Hk|]. intros Heq. apply Hx. right.
      apply list_elem_of_fmap. by exists q.
  - rewrite fmap_cons. by apply NoDup_cons.
  - rewrite Hit, dom_insert_L, Hdom. done.
  - intros x' k' [[= -> ->]|Hin]%elem_of_cons; rewrite Hit.
    + by rewrite lookup_insert_eq.
    + rewrite lookup_insert_ne; [by apply Helem|]. intros ->. apply Hkn.
      apply list_elem_of_fmap. by exists (x', k').
  - by rewrite Hcap'.
  - rewrite Hcap', length_cons. lia.
Qed.

Lemma vof_dom h h' :
  (∀ z, is_Some (vof h' z) ↔ is_Some (vof h z)) → dom h' = dom h.
Proof.
  intros Hv. apply set_eq. intros z. rewrite !elem_of_dom.
  specialize (Hv z). unfold vof in Hv. by rewrite !fmap_is_Some in Hv.
Qed.

Lemma inv_lookup_notin h c ps k : lru_inv h c ps → k ∉ ps.*2 → items c !! k = None.
Proof.
  intros (_ & _ & Hdom & _) Hk. apply not_elem_of_dom. rewrite Hdom.
  by rewrite elem_of_list_to_set.
Qed.

Lemma inv_Contains h c ps k :
  lru_inv h c ps → Contains c k = bool_decide (k ∈ ps.*2).
Proof.
  intros (_ & _ & Hdom & _). unfold Contains. apply bool_decide_ext.
  by rewrite <- elem_of_dom, Hdom, elem_of_list_to_set.
Qed.

Lemma Peek_Some c k it :
  items c !! k = Some it → Peek zeroV c k = (value it, true).
Proof.
  intros Hk. unfold Peek, item_at. by rewrite Hk.
Qed.

Lemma Peek_None c k : items c !! k = None → Peek zeroV c k = (zeroV, false).
Proof.
  intros Hk. unfold Peek, item_at. by rewrite Hk.
Qed.

(** *** The operations keep the invariant and follow the recency order *)

Lemma NewBasicLRU_spec capacity h (Q : BasicLRU → _ → Prop) :
  (∀ c h', lru_inv h' c [] → cap c = Z.max capacity 1 → Q c h') →
  wp (NewBasicLRU zeroK capacity) h Q.
Proof.
  intros HQ. unfold NewBasicLRU.
  apply wp_bind, newList_spec. intros l h' Hl Hc Hv. apply wp_ret.
  apply HQ.
  - split_and!; simpl.
    + split_and!; [apply NoDup_singleton | done | constructor].
    + constructor.
    + by rewrite dom_empty_L.
    + intros x k Hin. by apply elem_of_nil in Hin.
    + case_decide; lia.
    + case_decide; lia.
  - simpl. case_decide; lia.
Qed.

Lemma Add_full_spec capacity h c ps key val (Q : bool * BasicLRU → _ → Prop) :
  lru_inv h c ps → cap c = Z.max capacity 1 →
  (∀ b c' h' ps',
     lru_inv h' c' ps' → cap c' = cap c →
     ps'.*2 = spec_step capacity (OpAdd key val) ps.*2 →
     b = bool_decide ((key ∉ ps.*2) ∧ cap c ≤ Z.of_nat (length ps)) →
     value <$> items c' !! key = Some val →
     (∀ k, k ≠ key → k ∈ ps'.*2 →
           value <$> items c' !! k = value <$> items c !! k) →
     (b = true → dom h' = dom h) →
     Q (b, c') h') →
  wp (Add zeroK c key val) h Q.
Proof.
  intros Hinv Hcap HQ. unfold Add.
  destruct (items c !! key) as [item|] eqn:Hkey.
  - destruct (inv_lookup_Some _ _ _ _ _ Hinv Hkey) as (x & ps1 & ps2 & -> & Hx).
    rewrite Hx. cbn [elem list_].
    destruct (is_list_split _ _ _ _ _ _ (proj1 Hinv)) as [Hc Hnd].
    destruct (NoDup_keys_split _ _ _ _ (proj1 (proj2 Hinv))) as (Hk1 & Hk2 & _).
    apply wp_bind. eapply moveToFront_spec; [exact Hc | exact Hnd |].
    intros h' Hc' Hv'. apply wp_ret.
    assert (key ∈ (ps1 ++ (x, key) :: ps2).*2) as Hin.
    { rewrite fmap_app, fmap_cons. apply elem_of_app. right. by left. }
    apply (HQ _ _ _ ((x, key) :: ps1 ++ ps2)).
    + eapply touch_inv; [exact Hinv | done | done | done | done |].
      intros k'. cbn [items]. rewrite lookup_insert.
      destruct (decide (key = k')) as [<-|]; [|done].
      by rewrite Hkey; simpl; rewrite Hx.
    + done.
    + cbn [spec_step]. rewrite decide_True by done.
      rewrite !fmap_app, !fmap_cons. simpl. rewrite filter_ne_split by done.
      by rewrite fmap_app.
    + symmetry. apply bool_decide_eq_false_2. tauto.
    + cbn [items]. by rewrite lookup_insert_eq.
    + intros k Hk _. cbn [items]. by rewrite lookup_insert_ne.
    + done.
  - pose proof (inv_lookup_None _ _ _ _ Hinv Hkey) as Hnotin.
    pose proof (inv_size _ _ _ Hinv) as Hsize.
    pose proof Hinv as ((Hnd & Hc & Hk) & Hndk & Hdom & Helem & Hcap1 & Hlen).
    destruct (decide (cap c ≤ Len c)) as [Hfull|Hroom].
    + (* full: the least recently used element is evicted and reused *)
      destruct ps as [|[x k0] ps0 _] using rev_ind; [simpl in *; lia|].
      rewrite fmap_app in Hnd, Hc. simpl in Hnd, Hc.
      apply wp_bind. apply wp_bind.
      eapply removeLast_spec; [exact Hc | exact Hnd |].
      intros h1 Hc1 Hv1. rewrite last_snoc. rewrite removelast_last in Hc1.
      apply Forall_app in Hk as [Hk0 Hkx]. apply Forall_inv in Hkx. simpl in Hkx.
      apply wp_bind. eapply wp_get_v; [by rewrite Hv1|]. apply wp_ret.
      assert (lru_inv h1 (mkLRU (list_ c) (delete k0 (items c)) (cap c)) ps0) as Hinv1.
      { rewrite <- (app_nil_r ps0).
        eapply (drop_inv h h1 c _ ps0 [] x k0); [exact Hinv | | done ..].
        simpl. by rewrite app_nil_r. }
      assert (x ∉ list_ c :: ps0.*1) as Hx.
      { rewrite app_comm_cons in Hnd. apply NoDup_app in Hnd as (_ & Hd & _).
        intros Hin. apply (Hd x Hin). by left. }
      assert (key ∉ ps0.*2) as Hkey0.
      { intros Hin. apply Hnotin. rewrite fmap_app. apply elem_of_app. by left. }
      apply wp_bind, wp_set_v; [rewrite Hv1, Hkx; by eexists|].
      intros h2 Hn2 Hp2 Hv2. cbn [list_ items cap].
      apply wp_bind. eapply (pushElem_spec (list_ c) x ps0.*1).
      { eapply chain_ext; [exact Hc1 | done | done]. }
      { apply (proj1 (proj1 Hinv1)). }
      { done. }
      { rewrite Hv2, decide_True by done. by eexists. }
      intros h3 Hc3 Hv3. apply wp_ret.
      apply (HQ _ _ _ ((x, key) :: ps0)).
      * eapply (push_inv h1 h3 _ _ ps0 x key val); [exact Hinv1 | done | done | done | ..].
        -- by rewrite Hv3, Hv2, decide_True.
        -- intros z Hz. by rewrite Hv3, Hv2, decide_False.
        -- done.
        -- done.
        -- done.
        -- cbn [cap]. rewrite length_app in Hlen. simpl in Hlen. lia.
      * done.
      * cbn [spec_step]. rewrite decide_False by done.
        rewrite decide_True by (rewrite length_fmap, <- Hcap; lia).
        rewrite fmap_cons, !fmap_app. simpl. by rewrite removelast_last.
      * symmetry. apply bool_decide_eq_true_2. split; [done | lia].
      * cbn [items]. by rewrite lookup_insert_eq.
      * intros k Hkk Hin. cbn [items].
        rewrite lookup_insert_ne, lookup_delete_ne; [done | | done].
        intros ->. rewrite fmap_cons in Hin. simpl in Hin.
        apply elem_of_cons in Hin as [?|Hin]; [done|].
        rewrite fmap_app in Hndk. apply NoDup_app in Hndk as (_ & Hd & _).
        apply (Hd k Hin). simpl. by left.
      * intros _. apply vof_dom. intros z. rewrite Hv3, Hv2, Hv1.
        destruct (decide (z = x)) as [->|]; [|done].
        rewrite Hkx. split; by eexists.
    + (* room: a new element *)
      apply wp_bind. apply wp_bind, wp_new_listElem.
      intros x h1 Hx Hn1 Hp1 Hv1. apply wp_ret.
      assert (x ∉ list_ c :: ps.*1) as Hxring.
      { intros Hin. assert (is_Some (vof h x)) as [? ?]; [|congruence].
        eapply chain_alloc; [exact Hc|]. rewrite app_comm_cons.
        apply elem_of_app. by left. }
      apply wp_bind, wp_set_v; [rewrite Hv1, decide_True by done; by eexists|].
      intros h2 Hn2 Hp2 Hv2. cbn [list_ items cap].
      apply wp_bind. eapply (pushElem_spec (list_ c) x ps.*1).
      { eapply chain_frame; [exact Hc | |].
        - intros u Hu. rewrite Hn2, Hn1, decide_False; [done|].
          intros ->. apply Hxring. done.
        - intros u Hu. rewrite Hp2, Hp1, decide_False; [done|].
          intros ->. apply Hxring. clear Hk Helem. solve_mem. }
      { done. }
      { done. }
      { rewrite Hv2, decide_True by done. by eexists. }
      intros h3 Hc3 Hv3. apply wp_ret.
      apply (HQ _ _ _ ((x, key) :: ps)).
      * eapply (push_inv h h3 c _ ps x key val); [exact Hinv | done | done | done | ..].
        -- by rewrite Hv3, Hv2, decide_True.
        -- intros z Hz. by rewrite Hv3, Hv2, decide_False, Hv1, decide_False.
        -- done.
        -- done.
        -- done.
        -- lia.
      * done.
      * cbn [spec_step]. rewrite decide_False by done.
        rewrite decide_False by (rewrite length_fmap, <- Hcap; lia).
        by rewrite fmap_cons.
      * symmetry. apply bool_decide_eq_false_2. lia.
      * cbn [items]. by rewrite lookup_insert_eq.
      * intros k Hkk _. cbn [items]. by rewrite lookup_insert_ne.
      * done.
Qed.

Lemma Add_spec capacity h c ps key val (Q : bool * BasicLRU → _ → Prop) :
  lru_inv h c ps → cap c = Z.max capacity 1 →
  (∀ b c' h' ps',
     lru_inv h' c' ps' → cap c' = cap c →
     ps'.*2 = spec_step capacity (OpAdd key val) ps.*2 → Q (b, c') h') →
  wp (Add zeroK c key val) h Q.
Proof.
  intros Hinv Hcap HQ. eapply Add_full_spec; [done | done |]. eauto.
Qed.

Lemma Get_full_spec capacity h c ps key (Q : V * bool * BasicLRU → _ → Prop) :
  lru_inv h c ps →
  (∀ h' ps',
     lru_inv h' c ps' → ps'.*2 = spec_step capacity (@OpGet K V key) ps.*2 →
     (items c !! key = None → h' = h) →
     Q (Peek zeroV c key, c) h') →
  wp (Get zeroV c key) h Q.
Proof.
  intros Hinv HQ. unfold Get.
  destruct (items c !! key) as [item|] eqn:Hkey.
  - destruct (inv_lookup_Some _ _ _ _ _ Hinv Hkey) as (x & ps1 & ps2 & -> & Hx).
    rewrite Hx. rewrite <- (Peek_Some _ _ _ Hkey).
    destruct (is_list_split _ _ _ _ _ _ (proj1 Hinv)) as [Hc Hnd].
    destruct (NoDup_keys_split _ _ _ _ (proj1 (proj2 Hinv))) as (Hk1 & Hk2 & _).
    apply wp_bind. eapply moveToFront_spec; [exact Hc | exact Hnd |].
    intros h' Hc' Hv'. apply wp_ret.
    apply (HQ _ ((x, key) :: ps1 ++ ps2)).
    + eapply touch_inv; [exact Hinv | done ..].
    + cbn [spec_step]. rewrite decide_True.
      * rewrite !fmap_app, !fmap_cons. simpl. rewrite filter_ne_split by done.
        by rewrite fmap_app.
      * rewrite fmap_app, fmap_cons. apply elem_of_app. right. by left.
    + done.
  - apply wp_ret. rewrite <- (Peek_None _ _ Hkey). apply (HQ _ ps); [done | | done].
    cbn [spec_step]. rewrite decide_False; [done|].
    by eapply inv_lookup_None.
Qed.

Lemma Get_spec capacity h c ps key (Q : V * bool * BasicLRU → _ → Prop) :
  lru_inv h c ps →
  (∀ r h' ps',
     lru_inv h' c ps' → ps'.*2 = spec_step capacity (@OpGet K V key) ps.*2 →
     Q (r, c) h') →
  wp (Get zeroV c key) h Q.
Proof. intros Hinv HQ. eapply Get_full_spec; [done|]. eauto. Qed.

Lemma filter_ne_id (k : K) (l : list K) : k ∉ l → filter (λ k', k' ≠ k) l = l.
Proof.
  intros Hl. induction l as [|a l IH]; [done|].
  apply not_elem_of_cons in Hl as [Hak Hl].
  rewrite filter_cons_True by done. by rewrite IH.
Qed.

Lemma Remove_full_spec capacity h c ps key (Q : bool * BasicLRU → _ → Prop) :
  lru_inv h c ps →
  (∀ c' h' ps',
     lru_inv h' c' ps' → cap c' = cap c →
     ps'.*2 = spec_step capacity (@OpRemove K V key) ps.*2 →
     items c' = delete key (items c) →
     (∀ it, items c !! key = Some it →
            ∃ x, elem it = Some x ∧ list_ c' = list_ c ∧
                 nextof h' x = Some None ∧ prevof h' x = Some None ∧
                 vof h' x = Some key) →
     Q (Contains c key, c') h') →
  wp (Remove c key) h Q.
Proof.
  intros Hinv HQ. unfold Remove.
  assert (Contains c key = bool_decide (is_Some (items c !! key))) as HC by done.
  destruct (items c !! key) as [item|] eqn:Hkey.
  - rewrite bool_decide_eq_true_2 in HC by (by eexists). rewrite <- HC.
    destruct (inv_lookup_Some _ _ _ _ _ Hinv Hkey) as (x & ps1 & ps2 & -> & Hx).
    rewrite Hx. cbn [list_].
    destruct (is_list_split _ _ _ _ _ _ (proj1 Hinv)) as [Hc Hnd].
    destruct (NoDup_keys_split _ _ _ _ (proj1 (proj2 Hinv))) as (Hk1 & Hk2 & _).
    apply wp_bind. eapply remove_full_spec; [exact Hc | exact Hnd |].
    intros h' Hc' Hv' Hn' Hp'. apply wp_ret.
    apply (HQ _ _ (ps1 ++ ps2)).
    + eapply drop_inv; [exact Hinv | done ..].
    + done.
    + cbn [spec_step]. rewrite !fmap_app, !fmap_cons. simpl.
      by rewrite filter_ne_split.
    + done.
    + intros it [= <-]. exists x. split_and!; [done | done | done | done |].
      rewrite Hv'. destruct Hinv as ((_ & _ & Hkv) & _).
      apply Forall_app in Hkv as [_ Hkv]. by apply Forall_inv in Hkv.
  - rewrite bool_decide_eq_false_2 in HC by (by intros [? ?]). rewrite <- HC.
    apply wp_ret. apply (HQ _ _ ps); [done | done | | |].
    + cbn [spec_step]. rewrite filter_ne_id; [done|].
      by eapply inv_lookup_None.
    + by rewrite delete_id.
    + done.
Qed.

Lemma Remove_spec capacity h c ps key (Q : bool * BasicLRU → _ → Prop) :
  lru_inv h c ps →
  (∀ b c' h' ps',
     lru_inv h' c' ps' → cap c' = cap c →
     ps'.*2 = spec_step capacity (@OpRemove K V key) ps.*2 → Q (b, c') h') →
  wp (Remove c key) h Q.
Proof. intros Hinv HQ. eapply Remove_full_spec; [done|]. eauto. Qed.

(** The result of [GetOldest] and of [RemoveOldest] in a container whose
    elements are [ps]. *)
Lemma oldest_snoc ps (x : loc) (k0 : K) :
  list.last (ps ++ [(x, k0)]) = Some (x, k0).
Proof. apply last_snoc. Qed.

Lemma RemoveOldest_full_spec capacity h c ps
    (Q : K * V * bool * BasicLRU → _ → Prop) :
  lru_inv h c ps →
  (∀ r c' h' ps',
     lru_inv h' c' ps' → cap c' = cap c →
     ps'.*2 = spec_step capacity (@OpRemoveOldest K V) ps.*2 →
     match list.last ps with
     | None => r = (zeroK, zeroV, false) ∧ c' = c ∧ h' = h
     | Some q => r = (q.2, value (item_at zeroV c q.2), true) ∧
                 items c' = delete q.2 (items c)
     end →
     Q (r, c') h') →
  wp (RemoveOldest zeroK zeroV c) h Q.
Proof.
  intros Hinv HQ. unfold RemoveOldest.
  pose proof Hinv as ((Hnd & Hc & Hk) & _).
  apply wp_bind. eapply last_spec; [exact Hc | exact Hnd |].
  destruct ps as [|[x k0] ps0 _] using rev_ind.
  - simpl. apply wp_ret. by apply (HQ _ _ _ []).
  - specialize (HQ (k0, value (item_at zeroV c k0), true)).
    rewrite oldest_snoc in HQ.
    rewrite fmap_app in *. simpl in *. rewrite last_snoc.
    apply Forall_app in Hk as [Hk0 Hkx]. apply Forall_inv in Hkx. simpl in Hkx.
    apply wp_bind. eapply wp_get_v; [done|]. cbn [list_].
    apply wp_bind. eapply (remove_spec (list_ c) x ps0.*1 []); [exact Hc | exact Hnd |].
    intros h' Hc' Hv'. apply wp_ret. rewrite app_nil_r in Hc'.
    apply (HQ _ _ ps0).
    + rewrite <- (app_nil_r ps0).
      eapply (drop_inv h h' c _ ps0 [] x k0); [exact Hinv | | done ..].
      simpl. by rewrite app_nil_r.
    + done.
    + cbn [spec_step]. rewrite fmap_app. simpl. by rewrite removelast_last.
    + done.
Qed.

Lemma RemoveOldest_spec capacity h c ps
    (Q : K * V * bool * BasicLRU → _ → Prop) :
  lru_inv h c ps →
  (∀ r c' h' ps',
     lru_inv h' c' ps' → cap c' = cap c →
     ps'.*2 = spec_step capacity (@OpRemoveOldest K V) ps.*2 → Q (r, c') h') →
  wp (RemoveOldest zeroK zeroV c) h Q.
Proof. intros Hinv HQ. eapply RemoveOldest_full_spec; [done|]. eauto. Qed.

Lemma GetOldest_spec h c ps (Q : K * V * bool → _ → Prop) :
  lru_inv h c ps →
  Q (match list.last ps with
     | None => (zeroK, zeroV, false)
     | Some q => (q.2, value (item_at zeroV c q.2), true)
     end) h →
  wp (GetOldest zeroK zeroV c) h Q.
Proof.
  intros Hinv HQ. unfold GetOldest.
  pose proof Hinv as ((Hnd & Hc & Hk) & _).
  apply wp_bind. eapply last_spec; [exact Hc | exact Hnd |].
  destruct ps as [|[x k0] ps0 _] using rev_ind.
  - simpl. by apply wp_ret.
  - rewrite oldest_snoc in HQ.
    rewrite fmap_app in *. simpl in *. rewrite last_snoc.
    apply Forall_app in Hk as [Hk0 Hkx]. apply Forall_inv in Hkx. simpl in Hkx.
    apply wp_bind. eapply wp_get_v; [done|]. by apply wp_ret.
Qed.

Lemma Purge_full_spec capacity h c ps (Q : BasicLRU → _ → Prop) :
  lru_inv h c ps →
  (∀ c' h' ps',
     lru_inv h' c' ps' → cap c' = cap c →
     ps'.*2 = spec_step capacity (@OpPurge K V) ps.*2 →
     items c' = ∅ → ps' = [] → Q c' h') →
  wp (Purge c) h Q.
Proof.
  intros Hinv HQ. unfold Purge.
  pose proof Hinv as ((Hnd & Hc & Hk) & _ & _ & _ & Hcap & _).
  apply wp_bind, list_init_spec.
  { eapply chain_alloc; [exact Hc | by left]. }
  intros h' Hc' Hv'. apply wp_ret. rewrite purge_fold.
  apply (HQ _ _ []); [|done|done|done|done].
  split_and!; simpl.
  - split_and!; [apply NoDup_singleton | done | constructor].
  - constructor.
  - by rewrite dom_empty_L.
  - intros x k Hin. by apply elem_of_nil in Hin.
  - done.
  - lia.
Qed.

Lemma Purge_spec capacity h c ps (Q : BasicLRU → _ → Prop) :
  lru_inv h c ps →
  (∀ c' h' ps',
     lru_inv h' c' ps' → cap c' = cap c →
     ps'.*2 = spec_step capacity (@OpPurge K V) ps.*2 → Q c' h') →
  wp (Purge c) h Q.
Proof. intros Hinv HQ. eapply Purge_full_spec; [done|]. eauto. Qed.

Lemma step_spec capacity o h c ps (Q : BasicLRU → _ → Prop) :
  lru_inv h c ps → cap c = Z.max capacity 1 →
  (∀ c' h' ps',
     lru_inv h' c' ps' → cap c' = Z.max capacity 1 →
     ps'.*2 = spec_step capacity o ps.*2 → Q c' h') →
  wp (step zeroK zeroV o c) h Q.
Proof.
  intros Hinv Hcap HQ. destruct o as [key val|key|key|key| |]; cbn [step].
  - apply wp_bind. eapply Add_spec; [done | done |].
    intros b c' h' ps' Hinv' Hcap' Hps. apply wp_ret. simpl.
    apply (HQ _ _ ps'); [done | congruence | done].
  - apply wp_bind. eapply Get_spec; [done|].
    intros r h' ps' Hinv' Hps. apply wp_ret. simpl. by apply (HQ _ _ ps').
  - apply wp_ret. by apply (HQ _ _ ps).
  - apply wp_bind. eapply Remove_spec; [done|].
    intros b c' h' ps' Hinv' Hcap' Hps. apply wp_ret. simpl.
    apply (HQ _ _ ps'); [done | congruence | done].
  - apply wp_bind. eapply RemoveOldest_spec; [done|].
    intros r c' h' ps' Hinv' Hcap' Hps. apply wp_ret. simpl.
    apply (HQ _ _ ps'); [done | congruence | done].
  - eapply Purge_spec; [done|].
    intros c' h' ps' Hinv' Hcap' Hps.
    apply (HQ _ _ ps'); [done | congruence | done].
Qed.

Lemma steps_spec capacity os :
  ∀ h c ps (Q : BasicLRU → _ → Prop),
    lru_inv h c ps → cap c = Z.max capacity 1 →
    (∀ c' h' ps',
       lru_inv h' c' ps' → cap c' = Z.max capacity 1 →
       ps'.*2 = foldl (λ r o, spec_step capacity o r) ps.*2 os → Q c' h') →
    wp (steps zeroK zeroV os c) h Q.
Proof.
  induction os as [|o os IH]; intros h c ps Q Hinv Hcap HQ; cbn [steps].
  - apply wp_ret. by apply (HQ _ _ ps).
  - apply wp_bind. eapply step_spec; [done | done |].
    intros c1 h1 ps1 Hinv1 Hcap1 Hps1.
    eapply IH; [done | done |]. intros c' h' ps' Hinv' Hcap' Hps'.
    apply (HQ _ _ ps'); [done | done |]. simpl. by rewrite <- Hps1.
Qed.

(** Every session returns, in a state that satisfies the invariant for
    the recency order of the specification. *)
Lemma session_spec capacity os h :
  ∃ c h' ps,
    session zeroK zeroV capacity os h = Some (c, h') ∧
    lru_inv h' c ps ∧ cap c = Z.max capacity 1 ∧
    ps.*2 = spec_recency capacity os.
Proof.
  assert (wp (session zeroK zeroV capacity os) h
            (λ c h', ∃ ps, lru_inv h' c ps ∧ cap c = Z.max capacity 1 ∧
                           ps.*2 = spec_recency capacity os)) as Hwp.
  { unfold session. apply wp_bind, NewBasicLRU_spec. intros c h0 Hinv Hcap.
    eapply steps_spec; [done | done |]. intros c' h' ps' Hinv' Hcap' Hps.
    by exists ps'. }
  apply wp_run in Hwp as (c & h' & Hrun & ps & Hinv & Hcap & Hps).
  by exists c, h', ps.
Qed.

Lemma Keys_spec h c ps fuel :
  lru_inv h c ps → (length ps < fuel)%nat →
  Keys fuel c h = Some (reverse ps.*2, h).
Proof.
  intros ((Hnd & Hc & Hk) & _) Hfuel.
  assert (wp (Keys fuel c) h (λ ks h', ks = reverse ps.*2 ∧ h' = h)) as Hwp.
  { unfold Keys. eapply appendTo_spec; [done | done | done | done | done]. }
  apply wp_run in Hwp as (ks & h' & Hrun & -> & ->). done.
Qed.
End lru_rules.

(** ** The container: the specification's statements *)

Section lru_claims.
Import lru.
Context {K V : Type} `{Countable K}.
Variable zeroK : K.
Variable zeroV : V.

(** C7: whatever capacity is requested (a capacity [<= 0] is made [1]) and
    whatever operations follow, among [Add], [Get], [Peek], [Remove],
    [RemoveOldest] and [Purge], every operation returns and after every
    step the container holds at most [max(capacity, 1)] entries. *)
Theorem C7_Len_within_capacity (capacity : Z) (os : list (@op K V)) (n : nat)
    (h : gmap loc (@listElem K)) :
  ∃ c h', session zeroK zeroV capacity (take n os) h = Some (c, h') ∧
          cap c = Z.max capacity 1 ∧ Len c ≤ Z.max capacity 1.
Proof.
  destruct (session_spec zeroK zeroV capacity (take n os) h)
    as (c & h' & ps & Hrun & Hinv & Hcap & _).
  exists c, h'. split_and!; [done | done |].
  rewrite (inv_size _ _ _ Hinv), <- Hcap.
  apply Hinv.
Qed.

(** C6 (as amended): in every state of the container, [Keys] returns the
    keys of all current entries, each once, with the least recently used
    key first and the most recently used key last: the reverse of the
    recency order. *)
Theorem C6_Keys_least_recent_first (capacity : Z) (os : list (@op K V))
    (h : gmap loc (@listElem K)) :
  ∃ c h', session zeroK zeroV capacity os h = Some (c, h') ∧
    ∀ fuel, (Z.to_nat (Len c) < fuel)%nat →
      Keys fuel c h' = Some (reverse (spec_recency capacity os), h') ∧
      NoDup (spec_recency capacity os) ∧
      ∀ k, k ∈ spec_recency capacity os ↔ is_Some (items c !! k).
Proof.
  destruct (session_spec zeroK zeroV capacity os h)
    as (c & h' & ps & Hrun & Hinv & Hcap & Hps).
  exists c, h'. split; [done|]. intros fuel Hfuel.
  rewrite (inv_size _ _ _ Hinv) in Hfuel. rewrite Nat2Z.id in Hfuel.
  rewrite <- Hps. split_and!.
  - by apply Keys_spec.
  - apply Hinv.
  - intros k. destruct Hinv as (_ & _ & Hdom & _).
    by rewrite <- elem_of_dom, Hdom, elem_of_list_to_set.
Qed.
End lru_claims.

(** ** The container on an example *)

Section lru_examples.
Import lru.

(** [Add(1)] then [Add(2)] with capacity 2: the most recently used key is
    [2], and [Keys] returns [1] first. *)
Lemma C6_counterexample :
  ∃ c h, session 0%N 0%N 2 [OpAdd 1%N 10%N; OpAdd 2%N 20%N] ∅ = Some (c, h) ∧
         Keys 3 c h = Some ([1%N; 2%N], h) ∧
         spec_recency 2 [OpAdd 1%N 10%N; OpAdd 2%N 20%N] = [2%N; 1%N].
Proof. vm_compute. eexists _, _. split_and!; reflexivity. Qed.

(** The example of the counterexample, by the theorem. *)
Lemma C6_witness :
  ∃ c h, session 0%N 0%N 2 [OpAdd 1%N 10%N; OpAdd 2%N 20%N] ∅ = Some (c, h) ∧
         Keys 3 c h = Some ([1%N; 2%N], h).
Proof.
  destruct (C6_Keys_least_recent_first 0%N 0%N 2
              [OpAdd 1%N 10%N; OpAdd 2%N 20%N] ∅) as (c & h & Hrun & Hkeys).
  exists c, h. split; [exact Hrun|].
  apply Hkeys.
  assert (Some (c, h) = session 0%N 0%N 2 [OpAdd 1%N 10%N; OpAdd 2%N 20%N] ∅)
    as Hc by (symmetry; exact Hrun).
  vm_compute in Hc. injection Hc as -> ->. vm_compute. lia.
Defined.

(** Three keys added to a container of capacity 2. *)
Lemma C7_witness :
  ∃ c h, session 0%N 0%N 2 [OpAdd 1%N 10%N; OpAdd 2%N 20%N; OpAdd 3%N 30%N] ∅
         = Some (c, h) ∧ Len c ≤ 2.
Proof.
  destruct (C7_Len_within_capacity 0%N 0%N 2
              [OpAdd 1%N 10%N; OpAdd 2%N 20%N; OpAdd 3%N 30%N] 3 ∅)
    as (c & h & Hrun & _ & Hlen).
  exists c, h. split; [exact Hrun | exact Hlen].
Defined.
End lru_examples.

(** * Further properties of the sources *)

(** ** Outcomes of computations that may panic *)

Section outcome_rules.
Context {S : Type}.

Lemma bind_None {A B} (m : M S A) (f : A → M S B) st :
  m st = None → (m ≫= f) st = None.
Proof. intros Hm. unfold mbind, M_bind. by rewrite Hm. Qed.

Lemma bind_None_cont {A B} (m : M S A) (f : A → M S B) st :
  (∀ a st', m st = Some (a, st') → f a st' = None) → (m ≫= f) st = None.
Proof.
  intros Hf. unfold mbind, M_bind.
  destruct (m st) as [[a st']|]; [by apply Hf | done].
Qed.

Lemma bind_outcome {A B} (m : M S A) (f : A → M S B) st (o : option (B * S)) :
  wp m st (λ a st', f a st' = o) → (m ≫= f) st = o.
Proof.
  unfold wp, mbind, M_bind. destruct (m st) as [[a st']|]; [done | done].
Qed.
End outcome_rules.

Ltac out_step := apply bind_outcome; first [wp_alloc | wp_op].

(** ** The reward engine: further properties *)

Section reward_extras.
Context {PluginConfigurator : Type} {Cfg : Configurator PluginConfigurator}
        {Pkg : Package}.
Implicit Types (s : store).

(** *** Eras *)

Lemma era_value_bounds n L :
  2 ≤ L → 1 ≤ n →
  0 ≤ era_value n L ∧ era_value n L * L + 1 ≤ n ≤ (era_value n L + 1) * L.
Proof.
  intros HL Hn. rewrite era_value_closed by lia.
  rewrite !decide_False by lia.
  pose proof (Z.div_mod (n - 1) L ltac:(lia)) as Hdm.
  pose proof (Z.mod_pos_bound (n - 1) L ltac:(lia)) as Hmb.
  assert (0 ≤ (n - 1) / L) by (apply Z.div_pos; lia).
  split; [done | nia].
Qed.

Lemma era_value_nonneg n L : 1 ≤ L → 0 ≤ era_value n L.
Proof.
  intros HL. rewrite era_value_closed by lia.
  repeat case_decide; try lia. apply Z.div_pos; lia.
Qed.

Lemma era_value_mono n m L : 1 ≤ L → n ≤ m → era_value n L ≤ era_value m L.
Proof.
  intros HL Hnm. rewrite !era_value_closed by lia.
  repeat case_decide; try lia.
  - apply Z.div_pos; lia.
  - apply Z.div_le_mono; lia.
Qed.

(** X1: For an era length [L >= 1] [GetBlockEra] returns a fresh integer [e]
    that is never negative and is [0] up to block [0]; it does not
    decrease with the block number; and for [L >= 2] era [e] is made of
    the blocks [e * L + 1] to [(e + 1) * L]. *)
Theorem X1_GetBlockEra_eras (blockNum eraLength : loc) (n L : Z) s :
  s !! blockNum = Some n → s !! eraLength = Some L → 1 ≤ L →
  ∃ r s' e,
    GetBlockEra (Some blockNum) (Some eraLength) s = Some (Some r, s') ∧
    s !! r = None ∧ s' !! r = Some e ∧ 0 ≤ e ∧
    (n ≤ 0 → e = 0) ∧
    (1 ≤ n → 2 ≤ L → e * L + 1 ≤ n ≤ (e + 1) * L) ∧
    (∀ (blockNum' : loc) m t,
       t !! blockNum' = Some m → t !! eraLength = Some L → n ≤ m →
       ∃ r' t' e',
         GetBlockEra (Some blockNum') (Some eraLength) t = Some (Some r', t') ∧
         t' !! r' = Some e' ∧ e ≤ e').
Proof.
  intros Hn HL HL1.
  assert (∀ (bn : loc) m t, t !! bn = Some m → t !! eraLength = Some L →
            ∃ r t', GetBlockEra (Some bn) (Some eraLength) t = Some (Some r, t') ∧
                    t !! r = None ∧ t' !! r = Some (era_value m L)) as Hrun.
  { intros bn m t Hm Ht. apply wp_returns_ptr.
    eapply GetBlockEra_spec; [done | done | lia |]. eauto. }
  destruct (Hrun blockNum n s Hn HL) as (r & s' & Hr & Hfresh & Hv).
  exists r, s', (era_value n L). split_and!; [done | done | done | | | |].
  - by apply era_value_nonneg.
  - intros H0. rewrite era_value_closed by lia. by rewrite decide_True.
  - intros H1 H2. by apply era_value_bounds.
  - intros bn' m t Hm Ht Hnm.
    destruct (Hrun bn' m t Hm Ht) as (r' & t' & Hr' & _ & Hv').
    exists r', t', (era_value m L). split_and!; [done | done |].
    by apply era_value_mono.
Qed.

Lemma GetBlockEra_zero_length (blockNum : loc) (eraLength : ptr) (n : Z) s :
  s !! blockNum = Some n → 1 ≤ n → read s eraLength = Some 0 ∨ eraLength = None →
  GetBlockEra (Some blockNum) eraLength s = None.
Proof.
  intros Hn H1 Hel. unfold GetBlockEra.
  out_step. rewrite decide_False by lia.
  do 4 out_step. apply bind_None. unfold big.Mod.
  apply bind_outcome. eapply wp_value; [solve_lookup|].
  destruct Hel as [Hel| ->]; [|done].
  apply read_Some in Hel as (el & -> & Hel).
  apply bind_outcome. eapply wp_value; [solve_lookup|].
  by rewrite decide_True.
Qed.

(** X2: Up to block [0] [GetBlockEra] returns a fresh [0] without reading the
    era length, which may be [nil]; from block [1] on it panics on an era
    length that is [0] or [nil]; and it panics on a [nil] block number.
    So does [ecip1017BlockReward] when the configurator gives no era
    length, or the era length [0] for a header numbered [>= 1]. *)
Theorem X2_GetBlockEra_edge_cases (blockNum : loc) (n : Z) s :
  s !! blockNum = Some n →
  (n ≤ 0 → ∀ eraLength, ∃ r,
     s !! r = None ∧
     GetBlockEra (Some blockNum) eraLength s = Some (Some r, <[r:=0]> s)) ∧
  (1 ≤ n → ∀ eraLength : loc, s !! eraLength = Some 0 →
     GetBlockEra (Some blockNum) (Some eraLength) s = None) ∧
  (1 ≤ n → GetBlockEra (Some blockNum) None s = None) ∧
  (∀ eraLength, GetBlockEra None eraLength s = None) ∧
  (∀ config header uncles,
     GetEthashECIP1017EraRounds config = None →
     ecip1017BlockReward config header uncles s = None) ∧
  (1 ≤ n → ∀ config header uncles,
     GetEthashECIP1017EraRounds config = Some 0%N →
     Number header = Some blockNum →
     ecip1017BlockReward config header uncles s = None).
Proof.
  intros Hn. split_and!.
  - intros H0 eraLength. exists (fresh (dom s)). split.
    + apply not_elem_of_dom, is_fresh.
    + unfold GetBlockEra. unfold mbind at 1, M_bind at 1.
      unfold big.Sign, mbind, M_bind, big.value. rewrite Hn. simpl.
      rewrite decide_True by lia. done.
  - intros H1 eraLength Hel. apply (GetBlockEra_zero_length _ _ n); [done | done |].
    left. done.
  - intros H1. apply (GetBlockEra_zero_length _ _ n); [done | done | by right].
  - done.
  - intros config header uncles Hnone. unfold ecip1017BlockReward.
    by rewrite Hnone.
  - intros H1 config header uncles Hz HhN. unfold ecip1017BlockReward.
    rewrite Hz, HhN. out_step. apply bind_outcome.
    apply wp_SetUint64; [solve_some|]. apply bind_None.
    apply (GetBlockEra_zero_length _ _ n); [solve_lookup | done |].
    left. simpl. solve_lookup.
Qed.

(** *** Disinflation *)

Lemma winner_value_nonpos e R : e ≤ 0 → winner_value e R = R.
Proof.
  intros He. unfold winner_value. case_decide; [done|].
  assert ((e <=? 0) = true) as -> by (apply Z.leb_le; lia).
  rewrite ediv_pos by lia. rewrite Z.mul_1_r. apply Z.div_1_r.
Qed.

Lemma winner_value_pos e R : 1 ≤ e → winner_value e R = R * 4 ^ e / 5 ^ e.
Proof.
  intros He. unfold winner_value. rewrite decide_False by lia.
  assert ((e <=? 0) = false) as -> by (apply Z.leb_gt; lia).
  apply ediv_pos. apply Z.pow_pos_nonneg; lia.
Qed.

Lemma winner_value_nonneg e R : 0 ≤ R → 0 ≤ winner_value e R.
Proof.
  intros HR. destruct (Z.le_gt_cases e 0) as [He|He].
  - by rewrite winner_value_nonpos.
  - rewrite winner_value_pos by lia.
    apply Z.div_pos; [|apply Z.pow_pos_nonneg; lia].
    apply Z.mul_nonneg_nonneg; [done|]. apply Z.pow_nonneg. lia.
Qed.

Lemma winner_value_succ e R :
  0 ≤ R → 0 ≤ e → winner_value (e + 1) R ≤ winner_value e R.
Proof.
  intros HR He. rewrite (winner_value_pos (e + 1)) by lia.
  rewrite !Z.pow_add_r, !Z.pow_1_r by lia.
  assert (0 < 5 ^ e) as H5 by (apply Z.pow_pos_nonneg; lia).
  assert (0 ≤ 4 ^ e) as H4 by (apply Z.pow_nonneg; lia).
  assert (R * (4 ^ e * 4) / (5 ^ e * 5) ≤ R * 4 ^ e / 5 ^ e) as Hle.
  { rewrite (Z.mul_comm (5 ^ e) 5), <- Z.div_div by lia.
    apply Z.div_le_mono; [lia|].
    apply Z.div_le_upper_bound; [lia|]. nia. }
  destruct (decide (e = 0)) as [->|Hne].
  - rewrite winner_value_nonpos by lia. simpl in Hle |- *.
    rewrite Z.div_1_r, Z.mul_1_r in Hle. done.
  - by rewrite winner_value_pos by lia.
Qed.

Lemma winner_value_mono e e' R :
  0 ≤ R → e ≤ e' → winner_value e' R ≤ winner_value e R.
Proof.
  intros HR Hee.
  assert (∀ k : nat, ∀ a, 0 ≤ a →
            winner_value (a + Z.of_nat k) R ≤ winner_value a R) as Hk.
  { induction k as [|k IH]; intros a Ha.
    - by rewrite Z.add_0_r.
    - replace (a + Z.of_nat (S k)) with ((a + Z.of_nat k) + 1) by lia.
      etrans; [apply winner_value_succ; lia | by apply IH]. }
  destruct (Z.le_gt_cases e' 0) as [He'|He'].
  - by rewrite !winner_value_nonpos by lia.
  - destruct (Z.le_gt_cases e 0) as [He|He].
    + rewrite (winner_value_nonpos e) by lia.
      rewrite <- (winner_value_nonpos 0 R) by lia.
      replace e' with (0 + Z.of_nat (Z.to_nat e')) by lia. apply Hk. lia.
    + replace e' with (e + Z.of_nat (Z.to_nat (e' - e))) by lia. apply Hk. lia.
Qed.

(** X3: For a base reward [R >= 0] the winner reward of an era lies between
    [0] and [R], is [R] itself in the eras [<= 0] (a negative era
    included), and does not increase with the era. *)
Theorem X3_GetBlockWinnerRewardByEra_disinflation (era blockReward : loc)
    (e R : Z) s :
  constants_ok s → s !! era = Some e → s !! blockReward = Some R → 0 ≤ R →
  ∃ r s' w,
    GetBlockWinnerRewardByEra (Some era) (Some blockReward) s = Some (Some r, s') ∧
    s !! r = None ∧ s' !! r = Some w ∧ 0 ≤ w ≤ R ∧ (e ≤ 0 → w = R) ∧
    (∀ (era' : loc) e' t,
       constants_ok t → t !! era' = Some e' → t !! blockReward = Some R →
       e ≤ e' →
       ∃ r' t' w',
         GetBlockWinnerRewardByEra (Some era') (Some blockReward) t =
           Some (Some r', t') ∧
         t' !! r' = Some w' ∧ w' ≤ w).
Proof.
  intros Hc He HR HR0.
  assert (∀ (x : loc) ex t, constants_ok t → t !! x = Some ex →
            t !! blockReward = Some R →
            ∃ r t', GetBlockWinnerRewardByEra (Some x) (Some blockReward) t =
                      Some (Some r, t') ∧
                    t !! r = None ∧ t' !! r = Some (winner_value ex R)) as Hrun.
  { intros x ex t Ht Hx Hb. apply wp_returns_ptr.
    eapply GetBlockWinnerRewardByEra_spec; [done ..|]. eauto. }
  destruct (Hrun era e s Hc He HR) as (r & s' & Hr & Hfresh & Hv).
  exists r, s', (winner_value e R). split_and!; [done | done | done | | | |].
  - by apply winner_value_nonneg.
  - destruct (Z.le_gt_cases e 0) as [He0|He0].
    + by rewrite winner_value_nonpos.
    + rewrite <- (winner_value_nonpos 0 R) at 2 by lia.
      apply winner_value_mono; lia.
  - apply winner_value_nonpos.
  - intros era' e' t Ht He' Hb Hee.
    destruct (Hrun era' e' t Ht He' Hb) as (r' & t' & Hr' & _ & Hv').
    exists r', t', (winner_value e' R). split_and!; [done | done |].
    by apply winner_value_mono.
Qed.

(** *** The era path in era 0 and the flat path *)

Lemma GetRewards_era_run iter config header uncles (hN : loc) hn s :
  Number header = Some hN → s !! hN = Some hn →
  IsEnabled config (GetEthashECIP1017Transition config) (Some hn) = true →
  GetRewards iter config header uncles s =
  ecip1017BlockReward config header uncles s.
Proof.
  intros HhN Hhn Hera. unfold GetRewards. rewrite HhN.
  unfold mbind at 1, M_bind at 1.
  unfold big.value_opt, mbind, M_bind, big.value. rewrite Hhn. simpl.
  by rewrite Hera.
Qed.

Lemma reward_choice_frontier iter config hn :
  IsEnabled config (GetEthashEIP1234Transition config) (Some hn) = false →
  IsEnabled config (GetEthashEIP649Transition config) (Some hn) = false →
  GetEthashBlockRewardSchedule config = ∅ →
  reward_choice iter config hn = Some FrontierBlockReward.
Proof.
  intros H1 H2 H3. unfold reward_choice. rewrite H1, H2, H3.
  rewrite map_size_empty. by rewrite decide_False by lia.
Qed.

(** X4: In era [0] ECIP-1017 pays what the Frontier rules pay: for a header of
    era [0] the rewards of a configurator with ECIP-1017 enabled are those
    of a configurator with no transition and no schedule, the miner's
    [R + uncleCount * (R / 32)] and, for every uncle,
    [R * (uncle.Number + 8 - header.Number) / 8], with [R] the Frontier
    reward. *)
Theorem X4_GetRewards_era0_is_frontier iter iter' (era_config flat_config : PluginConfigurator)
    header uncles (hN : loc) (L : N) (R hn : Z) (uns : list Z) s :
  constants_ok s → s !! FrontierBlockReward = Some R →
  Number header = Some hN → s !! hN = Some hn → numbered s uncles uns →
  (* [era_config]: ECIP-1017 is enabled and the header is in era 0 *)
  IsEnabled era_config (GetEthashECIP1017Transition era_config) (Some hn) = true →
  GetEthashECIP1017EraRounds era_config = Some L → L ≠ 0%N →
  era_value hn (Z.of_N L) = 0 →
  (* [flat_config]: nothing is enabled and there is no schedule *)
  IsEnabled flat_config (GetEthashECIP1017Transition flat_config) (Some hn) = false →
  IsEnabled flat_config (GetEthashEIP1234Transition flat_config) (Some hn) = false →
  IsEnabled flat_config (GetEthashEIP649Transition flat_config) (Some hn) = false →
  GetEthashBlockRewardSchedule flat_config = ∅ →
  ∃ rw1 urs1 s1 rw2 urs2 s2,
    GetRewards iter era_config header uncles s = Some ((rw1, urs1), s1) ∧
    GetRewards iter' flat_config header uncles s = Some ((rw2, urs2), s2) ∧
    read s1 rw1 = Some (R + Z.of_nat (length uncles) * (R / 32)) ∧
    read s2 rw2 = Some (R + Z.of_nat (length uncles) * (R / 32)) ∧
    read s1 <$> urs1 = (λ un, Some (R * (un + 8 - hn) / 8)) <$> uns ∧
    read s2 <$> urs2 = (λ un, Some (R * (un + 8 - hn) / 8)) <$> uns.
Proof.
  intros Hc HR HhN Hhn Hnum Hera HL HL0 He0 Hf1 Hf2 Hf3 Hf4.
  pose proof Hc as (H8 & H32 & _).
  assert (∀ vs : list Z,
            (λ un, big.ediv ((un + 8 - hn) * R) 8) <$> vs =
            (λ un, R * (un + 8 - hn) / 8) <$> vs) as Hform.
  { intros vs. apply list_fmap_ext. intros _ un _.
    rewrite ediv_pos by done. f_equal. lia. }
  assert (∃ rw urs s1,
            GetRewards iter era_config header uncles s = Some ((Some rw, urs), s1) ∧
            s1 !! rw = Some (R + Z.of_nat (length uncles) * (R / 32)) ∧
            read s1 <$> urs = (λ un, Some (R * (un + 8 - hn) / 8)) <$> uns)
    as (rw1 & urs1 & s1 & Hrun1 & Hrw1 & Hurs1).
  { rewrite (GetRewards_era_run iter era_config header uncles hN hn s) by done.
    apply wp_returns_pair.
    eapply ecip1017BlockReward_spec; [done | done | done | done | done | done | |].
    { eapply Forall2_impl; [exact Hnum|]. simpl. auto. }
    intros wr urs s' Hsub Hwr Hv Hres. exists wr. simpl.
    rewrite He0 in Hv, Hres. rewrite winner_value_nonpos in Hv by lia.
    rewrite ediv_pos in Hv by done. split_and!; [done | done |].
    rewrite (fresh_results_read _ _ _ _ Hres).
    unfold uncle_value. rewrite <- list_fmap_compose.
    apply list_fmap_ext. intros _ un _. simpl.
    rewrite ?decide_True by done. rewrite ediv_pos by done. f_equal. f_equal. lia. }
  assert (∃ rw urs s2,
            GetRewards iter' flat_config header uncles s = Some ((Some rw, urs), s2) ∧
            s2 !! rw = Some (R + Z.of_nat (length uncles) * (R / 32)) ∧
            read s2 <$> urs = (λ un, Some (R * (un + 8 - hn) / 8)) <$> uns)
    as (rw2 & urs2 & s2 & Hrun2 & Hrw2 & Hurs2).
  { apply wp_returns_pair.
    eapply GetRewards_flat_spec;
      [done | done | done | done | done | by apply reward_choice_frontier
      | done | done |].
    intros reward urs s' Hsub Hrw Hv Hres. exists reward. simpl.
    rewrite ediv_pos in Hv by done. split_and!; [done | done |].
    rewrite (fresh_results_read _ _ _ _ Hres), Hform.
    by rewrite <- list_fmap_compose. }
  exists (Some rw1), urs1, s1, (Some rw2), urs2, s2. by split_and!.
Qed.

(** *** Crediting the rewards *)

Section accumulate.
Context {StateDB : Type} {DB : RWStateDB StateDB}.

Lemma value_opt_run s p v :
  read s p = Some v → big.value_opt p s = Some (Some v, s).
Proof.
  intros (l & -> & Hl)%read_Some.
  unfold big.value_opt, mbind, M_bind, big.value. by rewrite Hl.
Qed.

Lemma AccumulateRewards_loop_run (f : Z → Z) s uncles :
  ∀ uns urs pre (state : StateDB),
    length uns = length uncles →
    read s <$> urs = (λ un, Some (f un)) <$> uns →
    AccumulateRewards_loop state (length pre) uncles (pre ++ urs) s =
    Some (foldl (λ st p, AddBalance st (Coinbase p.1) (Some (f p.2))) state
            (zip uncles uns), s).
Proof.
  induction uncles as [|u uncles IH]; intros uns urs pre state Hlen Hurs.
  - done.
  - destruct uns as [|un uns]; [done|]. destruct urs as [|ur urs]; [done|].
    rewrite !fmap_cons in Hurs. injection Hurs as Hur Hurs.
    cbn [AccumulateRewards_loop zip zip_with foldl fst snd].
    rewrite lookup_app_r by lia. rewrite Nat.sub_diag. cbn [lookup list_lookup].
    unfold mbind at 1, M_bind at 1. rewrite (value_opt_run _ _ _ Hur).
    replace (pre ++ ur :: urs) with ((pre ++ [ur]) ++ urs)
      by (by rewrite <- app_assoc).
    replace (S (length pre)) with (length (pre ++ [ur]))
      by (rewrite length_app; simpl; lia).
    apply IH; [simpl in Hlen; lia | done].
Qed.

(** X5: On the flat path [AccumulateRewards] credits the coinbase of every
    uncle, in the order of the uncles, with
    [R * (uncle.Number + 8 - header.Number) / 8], and then the coinbase of
    the header with [R + uncleCount * (R / 32)]; every integer that
    existed before the call is as it was. *)
Theorem X5_AccumulateRewards_flat_path iter config (state : StateDB) header uncles
    (hN br : loc) (R hn : Z) (uns : list Z) s :
  s !! big8 = Some 8 → s !! big32 = Some 32 →
  Number header = Some hN → s !! hN = Some hn →
  IsEnabled config (GetEthashECIP1017Transition config) (Some hn) = false →
  EthashBlockReward iter (Some config) (Some hN) s = Some (Some br, s) →
  s !! br = Some R → numbered s uncles uns →
  ∃ s',
    AccumulateRewards iter config state header uncles s =
    Some (AddBalance
            (foldl (λ st p, AddBalance st (Coinbase p.1)
                              (Some (R * (p.2 + 8 - hn) / 8)))
               state (zip uncles uns))
            (Coinbase header)
            (Some (R + Z.of_nat (length uncles) * (R / 32))), s') ∧
    s ⊆ s'.
Proof.
  intros H8 H32 HhN Hhn Hflat Hrun HR Hnum.
  rewrite (EthashBlockReward_run iter config hN hn s Hhn) in Hrun.
  injection Hrun as Hbr.
  assert (wp (GetRewards iter config header uncles) s
            (λ res s', s ⊆ s' ∧
               read s' res.1 = Some (R + Z.of_nat (length uncles) * (R / 32)) ∧
               read s' <$> res.2 = (λ un, Some (R * (un + 8 - hn) / 8)) <$> uns))
    as Hwp.
  { eapply GetRewards_flat_spec; [done ..|].
    intros reward urs s' Hsub Hrw Hv Hres. simpl.
    rewrite ediv_pos in Hv by done. split_and!; [done | done |].
    rewrite (fresh_results_read _ _ _ _ Hres).
    rewrite <- list_fmap_compose. apply list_fmap_ext. intros _ un _. simpl.
    rewrite ediv_pos by done. f_equal. f_equal. lia. }
  apply wp_run in Hwp as ([rw urs] & s' & Hget & Hsub & Hrw & Hurs).
  simpl in Hrw, Hurs. exists s'. split; [|done].
  unfold AccumulateRewards. unfold mbind at 1, M_bind at 1. rewrite Hget.
  cbn [fst snd]. unfold mbind at 1, M_bind at 1.
  pose proof (AccumulateRewards_loop_run (λ un, R * (un + 8 - hn) / 8)
                s' uncles uns urs [] state) as Hloop.
  cbn [length app] in Hloop. rewrite Hloop; [| |done].
  - unfold mbind, M_bind. by rewrite (value_opt_run _ _ _ Hrw).
  - symmetry. by eapply Forall2_length.
Qed.

Lemma wp_same_run {A} (m m' : M store A) s (Q : A → store → Prop) :
  m s = m' s → wp m' s Q → wp m s Q.
Proof. unfold wp. by intros ->. Qed.

Lemma foldl_zip_fst {A B C} (g : C → A → C) (l : list A) (k : list B) :
  length k = length l →
  ∀ st, foldl (λ st p, g st p.1) st (zip l k) = foldl g st l.
Proof.
  revert k. induction l as [|a l IH]; intros [|b k] Hlen st; try done.
  simpl. apply IH. simpl in Hlen. lia.
Qed.

(** X6: On the era path, in an era [e >= 1] with winner reward [W],
    [AccumulateRewards] credits the coinbase of every uncle with
    [W / 32], in the order of the uncles and whatever their numbers, and
    then the coinbase of the header with [W + uncleCount * (W / 32)];
    every integer that existed before the call is as it was. *)
Theorem X6_AccumulateRewards_era_path iter config (state : StateDB) header uncles
    (hN : loc) (L : N) (R hn : Z) s :
  constants_ok s → s !! FrontierBlockReward = Some R →
  IsEnabled config (GetEthashECIP1017Transition config) (Some hn) = true →
  GetEthashECIP1017EraRounds config = Some L → L ≠ 0%N →
  Number header = Some hN → s !! hN = Some hn →
  1 ≤ era_value hn (Z.of_N L) →
  ∃ s',
    AccumulateRewards iter config state header uncles s =
    Some (AddBalance
            (foldl (λ st u, AddBalance st (Coinbase u)
                              (Some (winner_value (era_value hn (Z.of_N L)) R / 32)))
               state uncles)
            (Coinbase header)
            (Some (winner_value (era_value hn (Z.of_N L)) R +
                   Z.of_nat (length uncles) *
                   (winner_value (era_value hn (Z.of_N L)) R / 32))), s') ∧
    s ⊆ s'.
Proof.
  intros Hc HR Hera HL HL0 HhN Hhn He1.
  set (W := winner_value (era_value hn (Z.of_N L)) R).
  set (uns := replicate (length uncles) 0).
  assert (wp (GetRewards iter config header uncles) s
            (λ res s', s ⊆ s' ∧
               read s' res.1 = Some (W + Z.of_nat (length uncles) * (W / 32)) ∧
               read s' <$> res.2 = (λ _, Some (W / 32)) <$> uns))
    as Hwp.
  { eapply wp_same_run; [by apply (GetRewards_era_run _ _ _ _ hN hn)|].
    eapply (ecip1017BlockReward_spec config header uncles hN L R hn uns);
      [done | done | done | done | done | done | |].
    { unfold numbered_when, uns. clear -He1.
      induction uncles as [|u us IH]; simpl.
      - constructor.
      - constructor; [|done]. intros He0. lia. }
    intros wr urs s' Hsub Hwr Hv Hres. simpl.
    rewrite ediv_pos in Hv by done. split_and!; [done | done |].
    rewrite (fresh_results_read _ _ _ _ Hres).
    rewrite <- list_fmap_compose. apply list_fmap_ext. intros _ un _. simpl.
    unfold uncle_value. rewrite decide_False by lia.
    by rewrite ediv_pos by done. }
  apply wp_run in Hwp as ([rw urs] & s' & Hget & Hsub & Hrw & Hurs).
  simpl in Hrw, Hurs. exists s'. split; [|done].
  unfold AccumulateRewards. unfold mbind at 1, M_bind at 1. rewrite Hget.
  cbn [fst snd]. unfold mbind at 1, M_bind at 1.
  pose proof (AccumulateRewards_loop_run (λ _, W / 32)
                s' uncles uns urs [] state) as Hloop.
  cbn [length app] in Hloop. rewrite Hloop; [| |done].
  - unfold mbind, M_bind. rewrite (value_opt_run _ _ _ Hrw).
    rewrite (foldl_zip_fst (λ st u, AddBalance st (Coinbase u) (Some (W / 32))));
      [done|].
    unfold uns. by rewrite length_replicate.
  - unfold uns. by rewrite length_replicate.
Qed.

End accumulate.

(** *** Numbers that are [nil] *)

Lemma GetRewards_loop_nil header blockReward reward r uncles :
  (Number header = None ∧ uncles ≠ []) ∨ (∃ u, u ∈ uncles ∧ Number u = None) →
  ∀ i uncleRewards s,
    GetRewards_loop header blockReward reward r i uncles uncleRewards s = None.
Proof.
  induction uncles as [|u uncles IH]; intros Hnil i urs s.
  { destruct Hnil as [[_ ?]|(u & Hu & _)]; [done | by apply elem_of_nil in Hu]. }
  cbn [GetRewards_loop].
  destruct (Number u) as [uN|] eqn:HuN; [|done].
  apply bind_None_cont. intros a1 s1 _.
  destruct (Number header) as [hN|] eqn:HhN.
  - do 7 (apply bind_None_cont; intros ? ? _).
    apply IH. right. destruct Hnil as [[? _]|(u' & Hu' & Hnone)]; [done|].
    exists u'. split; [|done].
    apply elem_of_cons in Hu' as [->|Hu']; [congruence | done].
  - apply bind_None. unfold big.Sub. apply bind_None_cont. intros ? ? _. done.
Qed.

(** X7: Off the era path [GetRewards] panics when the [Number] of an uncle is
    [nil], and when the [Number] of the header is [nil] and there is an
    uncle; with a [nil] header number and no uncle it returns a fresh copy
    of the Frontier reward when no transition is enabled at [nil]. *)
Theorem X7_GetRewards_nil_numbers iter config header uncles s :
  IsEnabled config (GetEthashECIP1017Transition config)
    (read s (Number header)) = false →
  ((∃ u, u ∈ uncles ∧ Number u = None) →
   GetRewards iter config header uncles s = None) ∧
  (Number header = None → uncles ≠ [] →
   GetRewards iter config header uncles s = None) ∧
  (Number header = None → uncles = [] →
   ∀ R, s !! FrontierBlockReward = Some R →
   ∃ rw s', GetRewards iter config header uncles s = Some ((Some rw, []), s') ∧
            s !! rw = None ∧ s' !! rw = Some R ∧ s ⊆ s').
Proof.
  intros Hflat.
  assert ((Number header = None ∧ uncles ≠ []) ∨
          (∃ u, u ∈ uncles ∧ Number u = None) →
          GetRewards iter config header uncles s = None) as Hnone.
  { intros Hnil. unfold GetRewards. apply bind_None_cont. intros hn s1 Hhn.
    assert (hn = read s (Number header) ∧ s1 = s) as [-> ->].
    { destruct (Number header) as [hN|]; simpl in Hhn |- *.
      - unfold mbind, M_bind, big.value in Hhn.
        destruct (s !! hN); [|done]. by injection Hhn as <- <-.
      - by injection Hhn as <- <-. }
    rewrite Hflat. do 4 (apply bind_None_cont; intros ? ? _).
    apply bind_None. by apply GetRewards_loop_nil. }
  split_and!.
  - intros Hu. apply Hnone. by right.
  - intros Hh Hu. apply Hnone. by left.
  - intros Hh -> R HR. rewrite Hh in Hflat. simpl in Hflat.
    assert (wp (GetRewards iter config header []) s
              (λ res s', ∃ rw, res = (Some rw, []) ∧
                 s !! rw = None ∧ s' !! rw = Some R ∧ s ⊆ s')) as Hwp.
    { unfold GetRewards. rewrite Hh. apply wp_bind, wp_ret. rewrite Hflat.
      apply wp_bind, wp_ret. do 3 wp_step. apply wp_bind, wp_ret, wp_ret.
      exists l. split_and!; [done | done | solve_lookup | solve_sub]. }
    apply wp_run in Hwp as (res & s' & Hrun & rw & -> & Hrw & Hv & Hsub).
    by exists rw, s'.
Qed.

End reward_extras.

(** ** The container: values, results and sessions *)

Section lru_extra_rules.
Import lru.
Context {K V : Type} `{Countable K}.
Variable zeroK : K.
Variable zeroV : V.
Implicit Types (h : gmap loc (@listElem K)) (c : @BasicLRU K V _ _)
  (ps : list (loc * K)) (r : list K).

(** *** Lists of keys *)

Lemma reverse_removelast {A} (l : list A) :
  reverse (removelast l) = tail (reverse l).
Proof.
  destruct l as [|a l _] using rev_ind; [done|].
  rewrite removelast_last, reverse_snoc. done.
Qed.

Lemma elem_of_removelast (k : K) r :
  NoDup r → k ∈ removelast r ↔ k ∈ r ∧ list.last r ≠ Some k.
Proof.
  intros Hnd. destruct r as [|a r _] using rev_ind.
  - simpl. split; [by intros ?%elem_of_nil | by intros [?%elem_of_nil _]].
  - rewrite removelast_last, last_snoc.
    apply NoDup_app in Hnd as (_ & Hd & _).
    rewrite elem_of_app, list_elem_of_singleton. split.
    + intros Hk. split; [by left|]. intros [= ->]. apply (Hd k Hk). by left.
    + intros [[Hk| ->] Hne]; [done | done].
Qed.

Lemma spec_step_Add_head capacity key (val : V) r :
  ∃ r', spec_step capacity (OpAdd key val) r = key :: r'.
Proof. cbn [spec_step]. repeat case_decide; eauto. Qed.

Lemma spec_step_Add_elem capacity key (val : V) r k :
  NoDup r → k ≠ key →
  k ∈ spec_step capacity (OpAdd key val) r ↔
  k ∈ r ∧ ¬ ((key ∉ r) ∧ Z.max capacity 1 ≤ Z.of_nat (length r) ∧
             list.last r = Some k).
Proof.
  intros Hnd Hk. cbn [spec_step]. repeat case_decide.
  - rewrite elem_of_cons, list_elem_of_filter. tauto.
  - rewrite elem_of_cons, elem_of_removelast by done.
    split; [intros [?|[? ?]]; [done|tauto] | intros [? Hn]].
    right. split; [done|]. tauto.
  - rewrite elem_of_cons. split; [intros [?|?]; [done|] | tauto].
    split; [done|]. tauto.
Qed.

Lemma spec_step_Add_length capacity key (val : V) r :
  NoDup r →
  length (spec_step capacity (OpAdd key val) r) =
  if decide (key ∈ r) then length r
  else if decide (Z.max capacity 1 ≤ Z.of_nat (length r)) then
    S (Nat.pred (length r))
  else S (length r).
Proof.
  intros Hnd. cbn [spec_step].
  destruct (decide (key ∈ r)) as [Hin|Hin].
  - destruct (list_elem_of_split _ _ Hin) as (l1 & l2 & ->).
    apply NoDup_app in Hnd as (_ & Hd & Hnd2).
    apply NoDup_cons in Hnd2 as [Hk2 _].
    rewrite filter_ne_split; [|intros Hin1; apply (Hd key Hin1); by left | done].
    cbn [length]. rewrite !length_app. cbn [length]. lia.
  - destruct (decide (Z.max capacity 1 ≤ Z.of_nat (length r))); [|done].
    simpl. f_equal. destruct r as [|a r _] using rev_ind; [done|].
    rewrite removelast_last, length_app. simpl. lia.
Qed.

(** *** The values of the container *)

Lemma last_added_snoc (os : list (@op K V)) o k :
  last_added (os ++ [o]) k =
  match o with
  | OpAdd key val => if decide (key = k) then Some val else last_added os k
  | _ => last_added os k
  end.
Proof. unfold last_added. by rewrite foldl_app. Qed.

Lemma Peek_ext c c' k :
  value <$> items c' !! k = value <$> items c !! k →
  Peek zeroV c' k = Peek zeroV c k.
Proof.
  intros Heq. unfold Peek, item_at.
  destruct (items c' !! k) as [it'|], (items c !! k) as [it|]; simpl in *;
    try done.
  by injection Heq as ->.
Qed.

Lemma inv_lookup_in h c ps k :
  lru_inv h c ps → is_Some (items c !! k) → k ∈ ps.*2.
Proof.
  intros Hinv [it Hk]. destruct (decide (k ∈ ps.*2)) as [|Hn]; [done|].
  rewrite (inv_lookup_notin _ _ _ _ Hinv Hn) in Hk. done.
Qed.

Lemma inv_lookup_is_Some h c ps k :
  lru_inv h c ps → k ∈ ps.*2 → is_Some (items c !! k).
Proof.
  intros (_ & _ & Hdom & _) Hk. apply elem_of_dom. rewrite Hdom.
  by apply elem_of_list_to_set.
Qed.

(** *** Runs of single operations *)

Lemma Add_run capacity h c ps key val :
  lru_inv h c ps → cap c = Z.max capacity 1 →
  ∃ b c' h' ps',
    Add zeroK c key val h = Some ((b, c'), h') ∧
    lru_inv h' c' ps' ∧ cap c' = cap c ∧
    ps'.*2 = spec_step capacity (OpAdd key val) ps.*2 ∧
    b = bool_decide ((key ∉ ps.*2) ∧ cap c ≤ Z.of_nat (length ps)) ∧
    value <$> items c' !! key = Some val ∧
    (∀ k, k ≠ key → k ∈ ps'.*2 →
          value <$> items c' !! k = value <$> items c !! k) ∧
    (b = true → dom h' = dom h).
Proof.
  intros Hinv Hcap.
  assert (wp (Add zeroK c key val) h
            (λ res h', ∃ ps',
               lru_inv h' res.2 ps' ∧ cap res.2 = cap c ∧
               ps'.*2 = spec_step capacity (OpAdd key val) ps.*2 ∧
               res.1 = bool_decide ((key ∉ ps.*2) ∧ cap c ≤ Z.of_nat (length ps)) ∧
               value <$> items res.2 !! key = Some val ∧
               (∀ k, k ≠ key → k ∈ ps'.*2 →
                     value <$> items res.2 !! k = value <$> items c !! k) ∧
               (res.1 = true → dom h' = dom h))) as Hwp.
  { eapply Add_full_spec; [done | done |].
    intros b c' h' ps' ? ? ? ? ? ? ?. exists ps'. by split_and!. }
  apply wp_run in Hwp as ([b c'] & h' & Hrun & ps' & Hrest).
  exists b, c', h', ps'. split; [done | exact Hrest].
Qed.

Lemma Get_run capacity h c ps key :
  lru_inv h c ps →
  ∃ h' ps',
    Get zeroV c key h = Some ((Peek zeroV c key, c), h') ∧
    lru_inv h' c ps' ∧
    ps'.*2 = spec_step capacity (@OpGet K V key) ps.*2 ∧
    (items c !! key = None → h' = h).
Proof.
  intros Hinv.
  assert (wp (Get zeroV c key) h
            (λ res h', res = (Peek zeroV c key, c) ∧ ∃ ps',
               lru_inv h' c ps' ∧
               ps'.*2 = spec_step capacity (@OpGet K V key) ps.*2 ∧
               (items c !! key = None → h' = h))) as Hwp.
  { eapply Get_full_spec; [done|].
    intros h' ps' ? ? ?. split; [done|]. exists ps'. by split_and!. }
  apply wp_run in Hwp as (res & h' & Hrun & -> & ps' & Hrest).
  exists h', ps'. split; [done | exact Hrest].
Qed.

Lemma Remove_run capacity h c ps key :
  lru_inv h c ps →
  ∃ c' h' ps',
    Remove c key h = Some ((Contains c key, c'), h') ∧
    lru_inv h' c' ps' ∧ cap c' = cap c ∧
    ps'.*2 = spec_step capacity (@OpRemove K V key) ps.*2 ∧
    items c' = delete key (items c) ∧
    (∀ it, items c !! key = Some it →
           ∃ x, elem it = Some x ∧ list_ c' = list_ c ∧
                nextof h' x = Some None ∧ prevof h' x = Some None ∧
                vof h' x = Some key).
Proof.
  intros Hinv.
  assert (wp (Remove c key) h
            (λ res h', res.1 = Contains c key ∧ ∃ ps',
               lru_inv h' res.2 ps' ∧ cap res.2 = cap c ∧
               ps'.*2 = spec_step capacity (@OpRemove K V key) ps.*2 ∧
               items res.2 = delete key (items c) ∧
               (∀ it, items c !! key = Some it →
                      ∃ x, elem it = Some x ∧ list_ res.2 = list_ c ∧
                           nextof h' x = Some None ∧ prevof h' x = Some None ∧
                           vof h' x = Some key))) as Hwp.
  { eapply Remove_full_spec; [done|].
    intros c' h' ps' ? ? ? ? ?. split; [done|]. exists ps'. by split_and!. }
  apply wp_run in Hwp as ([b c'] & h' & Hrun & Hb & ps' & Hrest).
  simpl in Hb. subst b. exists c', h', ps'. split; [done | exact Hrest].
Qed.

Lemma RemoveOldest_run capacity h c ps :
  lru_inv h c ps →
  ∃ res c' h' ps',
    RemoveOldest zeroK zeroV c h = Some ((res, c'), h') ∧
    lru_inv h' c' ps' ∧ cap c' = cap c ∧
    ps'.*2 = spec_step capacity (@OpRemoveOldest K V) ps.*2 ∧
    match list.last ps with
    | None => res = (zeroK, zeroV, false) ∧ c' = c ∧ h' = h
    | Some q => res = (q.2, value (item_at zeroV c q.2), true) ∧
                items c' = delete q.2 (items c)
    end.
Proof.
  intros Hinv.
  assert (wp (RemoveOldest zeroK zeroV c) h
            (λ res h', ∃ ps',
               lru_inv h' res.2 ps' ∧ cap res.2 = cap c ∧
               ps'.*2 = spec_step capacity (@OpRemoveOldest K V) ps.*2 ∧
               match list.last ps with
               | None => res.1 = (zeroK, zeroV, false) ∧ res.2 = c ∧ h' = h
               | Some q => res.1 = (q.2, value (item_at zeroV c q.2), true) ∧
                           items res.2 = delete q.2 (items c)
               end)) as Hwp.
  { eapply RemoveOldest_full_spec; [done|].
    intros res c' h' ps' ? ? ? ?. exists ps'. by split_and!. }
  apply wp_run in Hwp as ([res c'] & h' & Hrun & ps' & Hrest).
  exists res, c', h', ps'. split; [done | exact Hrest].
Qed.

Lemma GetOldest_run h c ps :
  lru_inv h c ps →
  GetOldest zeroK zeroV c h =
  Some (match list.last ps with
        | None => (zeroK, zeroV, false)
        | Some q => (q.2, value (item_at zeroV c q.2), true)
        end, h).
Proof.
  intros Hinv.
  assert (wp (GetOldest zeroK zeroV c) h
            (λ res h', res = match list.last ps with
                             | None => (zeroK, zeroV, false)
                             | Some q => (q.2, value (item_at zeroV c q.2), true)
                             end ∧ h' = h)) as Hwp.
  { eapply GetOldest_spec; [done|]. done. }
  apply wp_run in Hwp as (res & h' & Hrun & -> & ->). done.
Qed.

Lemma Purge_run h c ps :
  lru_inv h c ps →
  ∃ c' h', Purge c h = Some (c', h') ∧ lru_inv h' c' [] ∧ cap c' = cap c ∧
           items c' = ∅.
Proof.
  intros Hinv.
  assert (wp (Purge c) h
            (λ c' h', lru_inv h' c' [] ∧ cap c' = cap c ∧ items c' = ∅)) as Hwp.
  { eapply (Purge_full_spec 0); [done|].
    intros c' h' ps' ? ? ? ? ->. by split_and!. }
  apply wp_run in Hwp as (c' & h' & Hrun & Hrest).
  exists c', h'. split; [done | exact Hrest].
Qed.

(** *** Sessions *)

Lemma step_full_spec capacity o h c ps pre (Q : BasicLRU → _ → Prop) :
  lru_inv h c ps → cap c = Z.max capacity 1 → latest_values pre c →
  (∀ c' h' ps',
     lru_inv h' c' ps' → cap c' = Z.max capacity 1 →
     ps'.*2 = spec_step capacity o ps.*2 →
     latest_values (pre ++ [o]) c' → Q c' h') →
  wp (step zeroK zeroV o c) h Q.
Proof.
  intros Hinv Hcap Hlat HQ. destruct o as [key val|key|key|key| |]; cbn [step].
  - apply wp_bind. eapply Add_full_spec; [done | done |].
    intros b c' h' ps' Hinv' Hcap' Hps _ Hval Hkeep _. apply wp_ret. simpl.
    apply (HQ _ _ ps'); [done | congruence | done |].
    intros k it Hk. rewrite last_added_snoc.
    destruct (decide (key = k)) as [->|Hne].
    + rewrite Hk in Hval. done.
    + assert (k ∈ ps'.*2) as Hin by (eapply inv_lookup_in; [done | by eexists]).
      specialize (Hkeep k ltac:(done) Hin). rewrite Hk in Hkeep. simpl in Hkeep.
      destruct (items c !! k) as [it0|] eqn:Hk0; [|done].
      simpl in Hkeep. injection Hkeep as Hv. rewrite Hv. by apply Hlat.
  - apply wp_bind. eapply Get_full_spec; [done|].
    intros h' ps' Hinv' Hps _. apply wp_ret. simpl.
    apply (HQ _ _ ps'); [done | done | done |].
    intros k it Hk. rewrite last_added_snoc. by apply Hlat.
  - apply wp_ret. apply (HQ _ _ ps); [done | done | done |].
    intros k it Hk. rewrite last_added_snoc. by apply Hlat.
  - apply wp_bind. eapply Remove_full_spec; [done|].
    intros c' h' ps' Hinv' Hcap' Hps Hit _. apply wp_ret. simpl.
    apply (HQ _ _ ps'); [done | congruence | done |].
    intros k it Hk. rewrite last_added_snoc. apply Hlat.
    rewrite Hit in Hk. by apply lookup_delete_Some in Hk as [_ ?].
  - apply wp_bind. eapply RemoveOldest_full_spec; [done|].
    intros res c' h' ps' Hinv' Hcap' Hps Hres. apply wp_ret. simpl.
    apply (HQ _ _ ps'); [done | congruence | done |].
    intros k it Hk. rewrite last_added_snoc. apply Hlat.
    destruct (list.last ps) as [q|].
    + destruct Hres as [_ Hit]. rewrite Hit in Hk.
      by apply lookup_delete_Some in Hk as [_ ?].
    + by destruct Hres as (_ & -> & _).
  - eapply Purge_full_spec; [done|].
    intros c' h' ps' Hinv' Hcap' Hps Hit _.
    apply (HQ _ _ ps'); [done | congruence | done |].
    intros k it Hk. by rewrite Hit, lookup_empty in Hk.
Qed.

Lemma steps_full_spec capacity os :
  ∀ pre h c ps (Q : BasicLRU → _ → Prop),
    lru_inv h c ps → cap c = Z.max capacity 1 → latest_values pre c →
    (∀ c' h' ps',
       lru_inv h' c' ps' → cap c' = Z.max capacity 1 →
       ps'.*2 = foldl (λ r o, spec_step capacity o r) ps.*2 os →
       latest_values (pre ++ os) c' → Q c' h') →
    wp (steps zeroK zeroV os c) h Q.
Proof.
  induction os as [|o os IH]; intros pre h c ps Q Hinv Hcap Hlat HQ; cbn [steps].
  - apply wp_ret. apply (HQ _ _ ps); [done | done | done |].
    by rewrite app_nil_r.
  - apply wp_bind. eapply step_full_spec; [done | done | done |].
    intros c1 h1 ps1 Hinv1 Hcap1 Hps1 Hlat1.
    eapply IH; [done | done | done |]. intros c' h' ps' Hinv' Hcap' Hps' Hlat'.
    apply (HQ _ _ ps'); [done | done | |].
    + simpl. by rewrite <- Hps1.
    + by rewrite <- app_assoc in Hlat'.
Qed.

(** Every session returns, in a state that satisfies the invariant for
    the recency order of the specification and whose values are those of
    the latest [Add]s. *)
Lemma session_full_spec capacity os h :
  ∃ c h' ps,
    session zeroK zeroV capacity os h = Some (c, h') ∧
    lru_inv h' c ps ∧ cap c = Z.max capacity 1 ∧
    ps.*2 = spec_recency capacity os ∧ latest_values os c.
Proof.
  assert (wp (session zeroK zeroV capacity os) h
            (λ c h', ∃ ps, lru_inv h' c ps ∧ cap c = Z.max capacity 1 ∧
                           ps.*2 = spec_recency capacity os ∧
                           latest_values os c)) as Hwp.
  { unfold session. apply wp_bind, NewBasicLRU_spec. intros c h0 Hinv Hcap.
    eapply (steps_full_spec capacity os []); [done | done | |].
    - intros k it Hk. destruct Hinv as (_ & _ & Hdom & _).
      simpl in Hdom. apply dom_empty_inv_L in Hdom. by rewrite Hdom in Hk.
    - intros c' h' ps' Hinv' Hcap' Hps Hlat. by exists ps'. }
  apply wp_run in Hwp as (c & h' & Hrun & ps & Hinv & Hcap & Hps & Hlat).
  by exists c, h', ps.
Qed.

End lru_extra_rules.

(** ** The container: further properties *)

Section lru_extras.
Import lru.
Context {K V : Type} `{Countable K}.
Variable zeroK : K.
Variable zeroV : V.
Implicit Types (c : @BasicLRU K V _ _) (ps : list (loc * K)).

Lemma keys_length ps : length ps.*2 = length ps.
Proof. apply length_fmap. Qed.

Lemma inv_NoDup (h : gmap loc (@listElem K)) c ps : lru_inv h c ps → NoDup ps.*2.
Proof. by intros (_ & ? & _). Qed.

Lemma inv_room (h : gmap loc (@listElem K)) c ps :
  lru_inv h c ps → 1 ≤ cap c ∧ Z.of_nat (length ps) ≤ cap c.
Proof. by intros (_ & _ & _ & _ & ? & ?). Qed.

Lemma value_lookup (c : @BasicLRU K V _ _) k (val : V) :
  value <$> items c !! k = Some val →
  ∃ it, items c !! k = Some it ∧ value it = val.
Proof.
  destruct (items c !! k) as [it|]; [|done]. intros [= <-]. by exists it.
Qed.

(** What [Add] does to the values of the other keys. *)
Lemma Add_values capacity (h h' : gmap loc (@listElem K)) c c' ps ps' key (val : V) b k :
  lru_inv h c ps → cap c = Z.max capacity 1 → lru_inv h' c' ps' →
  ps'.*2 = spec_step capacity (OpAdd key val) ps.*2 →
  b = bool_decide ((key ∉ ps.*2) ∧ cap c ≤ Z.of_nat (length ps)) →
  (∀ k, k ≠ key → k ∈ ps'.*2 →
        value <$> items c' !! k = value <$> items c !! k) →
  k ≠ key → ¬ (b = true ∧ list.last ps.*2 = Some k) →
  value <$> items c' !! k = value <$> items c !! k.
Proof.
  intros Hinv Hcap Hinv' Hps Hb Hkeep Hk Hnot.
  destruct (decide (k ∈ ps'.*2)) as [Hin|Hin]; [by apply Hkeep|].
  rewrite (inv_lookup_notin _ _ _ _ Hinv' Hin).
  rewrite (inv_lookup_notin _ _ _ _ Hinv); [done|].
  intros Hin0. apply Hin. rewrite Hps.
  apply spec_step_Add_elem; [by eapply inv_NoDup | done |].
  split; [done|]. intros (Hkey & Hfull & Hlast). apply Hnot. split; [|done].
  rewrite Hb. apply bool_decide_eq_true_2. split; [done|].
  rewrite keys_length in Hfull. lia.
Qed.

(** X8: After any sequence of operations, an [Add] makes its key present with
    the value added: [Contains] holds, [Peek] and [Get] return the value,
    and the key is the last of [Keys], also after the [Get]. *)
Theorem X8_Add_then_Get (capacity : Z) (os : list (@op K V)) (key : K) (val : V)
    (h : gmap loc (@listElem K)) :
  ∃ c h0 evicted c1 h1 h2,
    session zeroK zeroV capacity os h = Some (c, h0) ∧
    Add zeroK c key val h0 = Some ((evicted, c1), h1) ∧
    Contains c1 key = true ∧ Peek zeroV c1 key = (val, true) ∧
    Get zeroV c1 key h1 = Some ((val, true, c1), h2) ∧
    ∀ fuel, (Z.to_nat (Len c1) < fuel)%nat →
      ∃ ks, Keys fuel c1 h1 = Some (ks ++ [key], h1) ∧
            Keys fuel c1 h2 = Some (ks ++ [key], h2).
Proof.
  destruct (session_full_spec zeroK zeroV capacity os h)
    as (c & h0 & ps & Hrun & Hinv & Hcap & Hps & Hlat).
  destruct (Add_run zeroK capacity h0 c ps key val Hinv Hcap)
    as (b & c1 & h1 & ps1 & HAdd & Hinv1 & Hcap1 & Hps1 & Hb & Hval & Hkeep & Hdom).
  destruct (Get_run zeroV capacity h1 c1 ps1 key Hinv1)
    as (h2 & ps2 & HGet & Hinv2 & Hps2 & _).
  destruct (spec_step_Add_head capacity key val ps.*2) as (r' & Hr').
  rewrite Hr' in Hps1.
  destruct (value_lookup _ _ _ Hval) as (it & Hit & Hv).
  assert (Peek zeroV c1 key = (val, true)) as HPeek.
  { rewrite (Peek_Some _ _ _ _ Hit). by rewrite Hv. }
  pose proof (inv_NoDup _ _ _ Hinv1) as Hnd. rewrite Hps1 in Hnd.
  apply NoDup_cons in Hnd as [Hkr' _].
  assert (ps2.*2 = key :: r') as Hps2'.
  { rewrite Hps2, Hps1. cbn [spec_step]. rewrite decide_True by (by left).
    rewrite filter_cons_False by (by intros ?).
    by rewrite filter_ne_id. }
  exists c, h0, b, c1, h1, h2. split_and!; [done | done | | done | |].
  - rewrite (inv_Contains _ _ _ _ Hinv1). apply bool_decide_eq_true_2.
    rewrite Hps1. by left.
  - by rewrite <- HPeek.
  - intros fuel Hfuel. exists (reverse r').
    rewrite (inv_size _ _ _ Hinv1), Nat2Z.id in Hfuel.
    split.
    + rewrite (Keys_spec _ _ _ _ Hinv1 Hfuel), Hps1, reverse_cons. done.
    + assert (length ps2 < fuel)%nat as Hfuel2.
      { rewrite <- (keys_length ps2), Hps2', <- Hps1, keys_length. done. }
      rewrite (Keys_spec _ _ _ _ Hinv2 Hfuel2), Hps2', reverse_cons. done.
Qed.

(** X9: After any sequence of operations, [Add] reports an eviction exactly
    when its key is absent and the container is full.  It then drops the
    entry that [GetOldest] reports, reuses the list element of that entry
    (the heap holds the same elements as before) and keeps the size; when
    it evicts nothing, the size grows by one for a new key and stays for
    a key that was present.  The values of all other keys are as they
    were. *)
Theorem X9_Add_evicts_the_oldest (capacity : Z) (os : list (@op K V)) (key : K)
    (val : V) (h : gmap loc (@listElem K)) :
  ∃ c h0 evicted c1 h1,
    session zeroK zeroV capacity os h = Some (c, h0) ∧
    Add zeroK c key val h0 = Some ((evicted, c1), h1) ∧
    (evicted = true ↔ Contains c key = false ∧ Len c = cap c) ∧
    Len c1 = (if Contains c key then Len c
              else if evicted then Len c else Len c + 1) ∧
    (evicted = false → ∀ k, k ≠ key → Peek zeroV c1 k = Peek zeroV c k) ∧
    (evicted = true →
     ∃ k0 v0,
       GetOldest zeroK zeroV c h0 = Some ((k0, v0, true), h0) ∧
       k0 ≠ key ∧ Contains c1 k0 = false ∧
       (∀ k, k ≠ key → k ≠ k0 → Peek zeroV c1 k = Peek zeroV c k) ∧
       dom h1 = dom h0).
Proof.
  destruct (session_full_spec zeroK zeroV capacity os h)
    as (c & h0 & ps & Hrun & Hinv & Hcap & Hps & Hlat).
  destruct (Add_run zeroK capacity h0 c ps key val Hinv Hcap)
    as (b & c1 & h1 & ps1 & HAdd & Hinv1 & Hcap1 & Hps1 & Hb & Hval & Hkeep & Hdom).
  pose proof (inv_size _ _ _ Hinv) as Hsize.
  pose proof (inv_size _ _ _ Hinv1) as Hsize1.
  pose proof (inv_room _ _ _ Hinv) as [Hcap0 Hroom].
  pose proof (inv_NoDup _ _ _ Hinv) as Hnd.
  pose proof (inv_Contains _ _ _ key Hinv) as HC.
  exists c, h0, b, c1, h1. split_and!; [done | done | | | |].
  - rewrite Hb, HC, bool_decide_eq_true, bool_decide_eq_false, Hsize.
    split; [intros [? ?]; split; [done | lia] | intros [? ?]; split; [done | lia]].
  - rewrite Hsize1, <- keys_length, Hps1, spec_step_Add_length by done.
    rewrite HC, Hb, Hsize, keys_length.
    destruct (decide (key ∈ ps.*2)) as [Hin|Hin].
    + rewrite bool_decide_eq_true_2 by done. done.
    + rewrite (bool_decide_eq_false_2 (key ∈ ps.*2)) by done.
      destruct (decide (Z.max capacity 1 ≤ Z.of_nat (length ps))) as [Hfull|Hfull].
      * rewrite bool_decide_eq_true_2 by (split; [done | lia]). lia.
      * rewrite bool_decide_eq_false_2 by lia. lia.
  - intros Hfalse k Hk. apply Peek_ext.
    eapply (Add_values capacity h0 h1 c c1 ps ps1 key val b k); try done.
    intros [Htrue _]. congruence.
  - intros Htrue. pose proof Htrue as Htrue'.
    rewrite Hb, bool_decide_eq_true in Htrue'. destruct Htrue' as [Hkey Hfull].
    destruct ps as [|[x k0] ps0 _] using rev_ind; [simpl in *; lia|].
    exists k0, (value (item_at zeroV c k0)).
    assert (list.last (ps0 ++ [(x, k0)]).*2 = Some k0) as Hlast.
    { by rewrite fmap_last, last_snoc. }
    assert (k0 ≠ key) as Hk0.
    { intros ->. apply Hkey. rewrite fmap_app. apply elem_of_app. right.
      by left. }
    split_and!.
    + rewrite (GetOldest_run _ _ _ _ _ Hinv), last_snoc. done.
    + done.
    + rewrite (inv_Contains _ _ _ _ Hinv1). apply bool_decide_eq_false_2.
      rewrite Hps1, spec_step_Add_elem by done.
      intros [_ Hn]. apply Hn. split_and!; [done | | done].
      rewrite keys_length. lia.
    + intros k Hk Hkk. apply Peek_ext.
      eapply (Add_values capacity h0 h1 c c1 _ ps1 key val b k); try done.
      intros [_ Hl]. congruence.
    + by apply Hdom.
Qed.

(** X10: After any sequence of operations, the value the container holds for
    a key is the value of the latest [Add] of that key; for a key it does
    not hold, [Peek] returns the zero value and [false]. *)
Theorem X10_values_are_the_latest_added (capacity : Z) (os : list (@op K V))
    (h : gmap loc (@listElem K)) :
  ∃ c h0,
    session zeroK zeroV capacity os h = Some (c, h0) ∧
    ∀ k, if Contains c k
         then ∃ val, last_added os k = Some val ∧ Peek zeroV c k = (val, true)
         else Peek zeroV c k = (zeroV, false).
Proof.
  destruct (session_full_spec zeroK zeroV capacity os h)
    as (c & h0 & ps & Hrun & Hinv & Hcap & Hps & Hlat).
  exists c, h0. split; [done|]. intros k. unfold Contains.
  destruct (items c !! k) as [it|] eqn:Hk.
  - rewrite bool_decide_eq_true_2 by (by eexists).
    exists (value it). split; [by apply Hlat | by apply Peek_Some].
  - rewrite bool_decide_eq_false_2 by (by intros [? ?]). by apply Peek_None.
Qed.

(** X11: After any sequence of operations, [Get] returns what [Peek] returns
    and leaves the entries as they are.  A hit makes the key the last of
    [Keys], the other keys keeping their order; a miss changes
    nothing. *)
Theorem X11_Get_marks_recently_used (capacity : Z) (os : list (@op K V)) (key : K)
    (h : gmap loc (@listElem K)) :
  ∃ c h0 h1,
    session zeroK zeroV capacity os h = Some (c, h0) ∧
    Get zeroV c key h0 = Some ((Peek zeroV c key, c), h1) ∧
    (Contains c key = false → h1 = h0) ∧
    ∀ fuel, (Z.to_nat (Len c) < fuel)%nat →
      ∃ ks, Keys fuel c h0 = Some (ks, h0) ∧
            Keys fuel c h1 =
            Some (if Contains c key then filter (λ k, k ≠ key) ks ++ [key]
                  else ks, h1).
Proof.
  destruct (session_full_spec zeroK zeroV capacity os h)
    as (c & h0 & ps & Hrun & Hinv & Hcap & Hps & Hlat).
  destruct (Get_run zeroV capacity h0 c ps key Hinv)
    as (h1 & ps1 & HGet & Hinv1 & Hps1 & Hmiss).
  pose proof (inv_Contains _ _ _ key Hinv) as HC.
  exists c, h0, h1. split_and!; [done | done | |].
  - intros Hf. apply Hmiss. eapply inv_lookup_notin; [exact Hinv|].
    rewrite HC in Hf. by apply bool_decide_eq_false in Hf.
  - intros fuel Hfuel. exists (reverse ps.*2).
    pose proof Hfuel as Hfuel1.
    rewrite (inv_size _ _ _ Hinv), Nat2Z.id in Hfuel.
    rewrite (inv_size _ _ _ Hinv1), Nat2Z.id in Hfuel1.
    rewrite (Keys_spec _ _ _ _ Hinv Hfuel), (Keys_spec _ _ _ _ Hinv1 Hfuel1).
    split; [done|]. rewrite Hps1, HC. cbn [spec_step].
    destruct (decide (key ∈ ps.*2)) as [Hin|Hin].
    + rewrite bool_decide_eq_true_2 by done.
      by rewrite reverse_cons, filter_reverse.
    + by rewrite bool_decide_eq_false_2 by done.
Qed.

(** X12: After any sequence of operations, [GetOldest] reports the first key of
    [Keys] with its value and leaves the container as it is; on an empty
    container it reports the zero key and value and [false]. *)
Theorem X12_GetOldest_is_first_of_Keys (capacity : Z) (os : list (@op K V))
    (h : gmap loc (@listElem K)) :
  ∃ c h0,
    session zeroK zeroV capacity os h = Some (c, h0) ∧
    ∀ fuel, (Z.to_nat (Len c) < fuel)%nat →
      ∃ ks, Keys fuel c h0 = Some (ks, h0) ∧ Z.of_nat (length ks) = Len c ∧
            GetOldest zeroK zeroV c h0 =
            Some (match ks with
                  | [] => (zeroK, zeroV, false)
                  | k :: _ => (k, (Peek zeroV c k).1, true)
                  end, h0) ∧
            (∀ k, head ks = Some k → Contains c k = true).
Proof.
  destruct (session_full_spec zeroK zeroV capacity os h)
    as (c & h0 & ps & Hrun & Hinv & Hcap & Hps & Hlat).
  exists c, h0. split; [done|]. intros fuel Hfuel. exists (reverse ps.*2).
  pose proof (inv_size _ _ _ Hinv) as Hsize.
  rewrite Hsize, Nat2Z.id in Hfuel.
  split_and!.
  - by apply Keys_spec.
  - by rewrite length_reverse, keys_length.
  - rewrite (GetOldest_run _ _ _ _ _ Hinv).
    destruct ps as [|[x k0] ps0 _] using rev_ind; [done|].
    rewrite last_snoc, fmap_app, reverse_app. done.
  - intros k Hk. rewrite head_reverse in Hk.
    rewrite (inv_Contains _ _ _ _ Hinv). apply bool_decide_eq_true_2.
    apply last_Some in Hk as (l' & ->). apply elem_of_app. right. by left.
Qed.

(** X13: After any sequence of operations, [RemoveOldest] returns what
    [GetOldest] reports and drops that entry, the first key of [Keys]:
    the keys that follow keep their order and all other values are as
    they were.  On an empty container it changes nothing. *)
Theorem X13_RemoveOldest_removes_first_of_Keys (capacity : Z) (os : list (@op K V))
    (h : gmap loc (@listElem K)) :
  ∃ c h0 res c1 h1,
    session zeroK zeroV capacity os h = Some (c, h0) ∧
    RemoveOldest zeroK zeroV c h0 = Some ((res, c1), h1) ∧
    GetOldest zeroK zeroV c h0 = Some (res, h0) ∧
    Contains c1 res.1.1 = false ∧
    (∀ k, k ≠ res.1.1 → Peek zeroV c1 k = Peek zeroV c k) ∧
    (res.2 = false → c1 = c ∧ h1 = h0) ∧
    ∀ fuel, (Z.to_nat (Len c) < fuel)%nat →
      ∃ ks, Keys fuel c h0 = Some (ks, h0) ∧
            Keys fuel c1 h1 = Some (tail ks, h1) ∧
            (res.2 = true ↔ ks ≠ []).
Proof.
  destruct (session_full_spec zeroK zeroV capacity os h)
    as (c & h0 & ps & Hrun & Hinv & Hcap & Hps & Hlat).
  destruct (RemoveOldest_run zeroK zeroV capacity h0 c ps Hinv)
    as (res & c1 & h1 & ps1 & HRem & Hinv1 & Hcap1 & Hps1 & Hres).
  pose proof (GetOldest_run zeroK zeroV _ _ _ Hinv) as HGet.
  exists c, h0, res, c1, h1.
  assert (∀ fuel, (Z.to_nat (Len c) < fuel)%nat →
            Keys fuel c h0 = Some (reverse ps.*2, h0) ∧
            Keys fuel c1 h1 = Some (tail (reverse ps.*2), h1)) as HKeys.
  { intros fuel Hfuel. rewrite (inv_size _ _ _ Hinv), Nat2Z.id in Hfuel.
    split; [by apply Keys_spec|].
    rewrite <- reverse_removelast.
    change (removelast ps.*2) with (spec_step capacity (@OpRemoveOldest K V) ps.*2).
    rewrite <- Hps1. apply Keys_spec; [done|].
    rewrite <- (keys_length ps1), Hps1. cbn [spec_step].
    rewrite removelast_firstn_len, length_take, keys_length. lia. }
  destruct ps as [|[x k0] ps0 _] using rev_ind.
  - simpl in Hres, HGet. destruct Hres as (-> & -> & ->).
    split_and!; [done | done | done | | done | done |].
    + rewrite (inv_Contains _ _ _ _ Hinv). by apply bool_decide_eq_false_2, not_elem_of_nil.
    + intros fuel Hfuel. exists []. destruct (HKeys fuel Hfuel) as [Hk0 Hk1].
      split_and!; [done | done |]. simpl. split; done.
  - rewrite last_snoc in Hres, HGet. simpl in Hres, HGet.
    destruct Hres as (-> & Hit).
    split_and!; [done | done | done | | | done |].
    + simpl. unfold Contains. rewrite Hit, lookup_delete_eq.
      apply bool_decide_eq_false_2. by intros [? ?].
    + simpl. intros k Hk. apply Peek_ext. by rewrite Hit, lookup_delete_ne.
    + intros fuel Hfuel. destruct (HKeys fuel Hfuel) as [Hk0 Hk1].
      exists (reverse (ps0 ++ [(x, k0)]).*2). split_and!; [done | done |].
      simpl. rewrite fmap_app, reverse_app. simpl. split; done.
Qed.

(** X14: After any sequence of operations, [Remove] reports whether the key
    was present and leaves it absent; the size drops by one when it was
    present, the other keys keep their values and their order in
    [Keys]. *)
Theorem X14_Remove_drops_the_key (capacity : Z) (os : list (@op K V)) (key : K)
    (h : gmap loc (@listElem K)) :
  ∃ c h0 c1 h1,
    session zeroK zeroV capacity os h = Some (c, h0) ∧
    Remove c key h0 = Some ((Contains c key, c1), h1) ∧
    Contains c1 key = false ∧
    Len c1 = (if Contains c key then Len c - 1 else Len c) ∧
    (∀ k, k ≠ key → Peek zeroV c1 k = Peek zeroV c k) ∧
    ∀ fuel, (Z.to_nat (Len c) < fuel)%nat →
      ∃ ks, Keys fuel c h0 = Some (ks, h0) ∧
            Keys fuel c1 h1 = Some (filter (λ k, k ≠ key) ks, h1).
Proof.
  destruct (session_full_spec zeroK zeroV capacity os h)
    as (c & h0 & ps & Hrun & Hinv & Hcap & Hps & Hlat).
  destruct (Remove_run capacity h0 c ps key Hinv)
    as (c1 & h1 & ps1 & HRem & Hinv1 & Hcap1 & Hps1 & Hit & _).
  exists c, h0, c1, h1. split_and!; [done | done | | | |].
  - unfold Contains. rewrite Hit, lookup_delete_eq.
    apply bool_decide_eq_false_2. by intros [? ?].
  - unfold Len, Contains. rewrite Hit, map_size_delete.
    destruct (items c !! key) as [it|] eqn:Hk.
    + rewrite bool_decide_eq_true_2 by (by eexists).
      assert (size (items c) ≠ 0%nat); [|simpl; lia].
      intros Hz. apply map_size_empty_inv in Hz. by rewrite Hz in Hk.
    + by rewrite bool_decide_eq_false_2 by (by intros [? ?]).
  - intros k Hk. apply Peek_ext. by rewrite Hit, lookup_delete_ne.
  - intros fuel Hfuel. exists (reverse ps.*2).
    rewrite (inv_size _ _ _ Hinv), Nat2Z.id in Hfuel.
    split; [by apply Keys_spec|].
    rewrite filter_reverse.
    change (filter (λ k, k ≠ key) ps.*2)
      with (spec_step capacity (@OpRemove K V key) ps.*2).
    rewrite <- Hps1. apply Keys_spec; [done|].
    rewrite <- (keys_length ps1), Hps1. cbn [spec_step].
    pose proof (length_filter (λ k, k ≠ key) ps.*2) as Hle.
    rewrite keys_length in Hle. lia.
Qed.

(** X15: After any sequence of operations, [Purge] leaves the container empty
    with the capacity it had: no key is present, [Keys] is empty,
    [GetOldest] reports nothing, and the next [Add] evicts nothing. *)
Theorem X15_Purge_empties (capacity : Z) (os : list (@op K V))
    (h : gmap loc (@listElem K)) :
  ∃ c h0 c1 h1,
    session zeroK zeroV capacity os h = Some (c, h0) ∧
    Purge c h0 = Some (c1, h1) ∧
    Len c1 = 0 ∧ cap c1 = cap c ∧
    (∀ k, Contains c1 k = false ∧ Peek zeroV c1 k = (zeroV, false)) ∧
    GetOldest zeroK zeroV c1 h1 = Some ((zeroK, zeroV, false), h1) ∧
    (∀ fuel, (0 < fuel)%nat → Keys fuel c1 h1 = Some ([], h1)) ∧
    ∀ key val, ∃ c2 h2,
      Add zeroK c1 key val h1 = Some ((false, c2), h2) ∧ Len c2 = 1.
Proof.
  destruct (session_full_spec zeroK zeroV capacity os h)
    as (c & h0 & ps & Hrun & Hinv & Hcap & Hps & Hlat).
  destruct (Purge_run h0 c ps Hinv) as (c1 & h1 & HPurge & Hinv1 & Hcap1 & Hit).
  exists c, h0, c1, h1. split_and!; [done | done | | done | | | |].
  - by rewrite (inv_size _ _ _ Hinv1).
  - intros k. unfold Contains, Peek, item_at. rewrite Hit, lookup_empty.
    split; [|done]. apply bool_decide_eq_false_2. by intros [? ?].
  - by rewrite (GetOldest_run _ _ _ _ _ Hinv1).
  - intros fuel Hfuel. by rewrite (Keys_spec _ _ _ _ Hinv1 Hfuel).
  - intros key val.
    destruct (Add_run zeroK capacity h1 c1 [] key val Hinv1 ltac:(congruence))
      as (b & c2 & h2 & ps2 & HAdd & Hinv2 & Hcap2 & Hps2 & Hb & _).
    pose proof (inv_room _ _ _ Hinv1) as [Hc1 _].
    rewrite bool_decide_eq_false_2 in Hb by (simpl; lia). subst b.
    exists c2, h2. split; [done|].
    rewrite (inv_size _ _ _ Hinv2), <- keys_length, Hps2. cbn [spec_step].
    rewrite decide_False by apply not_elem_of_nil.
    rewrite decide_False by (simpl; lia). done.
Qed.

Lemma last_cons_NoDup (k : K) (r : list K) :
  NoDup (k :: r) → list.last (k :: r) = Some k → r = [].
Proof.
  intros Hnd Hl. destruct r as [|a r _] using rev_ind; [done|].
  rewrite app_comm_cons, last_snoc in Hl. injection Hl as ->.
  apply NoDup_cons in Hnd as [Hn _]. exfalso. apply Hn.
  apply elem_of_app. right. by left.
Qed.

(** X16: The key used last is not the one evicted: after an [Add] of [key], an
    [Add] of any key into a container of capacity at least 2 leaves [key]
    present, with its value.  With a capacity of at most 1 the [Add] of
    another key evicts it. *)
Theorem X16_most_recently_used_survives (capacity : Z) (os : list (@op K V))
    (key : K) (val : V) (key' : K) (val' : V) (h : gmap loc (@listElem K)) :
  ∃ c h0 evicted c1 h1,
    session zeroK zeroV capacity (os ++ [OpAdd key val]) h = Some (c, h0) ∧
    Add zeroK c key' val' h0 = Some ((evicted, c1), h1) ∧
    (2 ≤ capacity →
     Contains c1 key = true ∧
     Peek zeroV c1 key = (if decide (key' = key) then val' else val, true)) ∧
    (capacity ≤ 1 → key' ≠ key → evicted = true ∧ Contains c1 key = false).
Proof.
  destruct (session_full_spec zeroK zeroV capacity (os ++ [OpAdd key val]) h)
    as (c & h0 & ps & Hrun & Hinv & Hcap & Hps & Hlat).
  destruct (Add_run zeroK capacity h0 c ps key' val' Hinv Hcap)
    as (b & c1 & h1 & ps1 & HAdd & Hinv1 & Hcap1 & Hps1 & Hb & Hval & Hkeep & Hdom).
  unfold spec_recency in Hps. rewrite foldl_app in Hps. cbn [foldl] in Hps.
  destruct (spec_step_Add_head capacity key val
              (foldl (λ r o, spec_step capacity o r) [] os)) as (r' & Hr').
  rewrite Hr' in Hps.
  pose proof (inv_NoDup _ _ _ Hinv) as Hnd.
  pose proof (inv_room _ _ _ Hinv) as [_ Hroom].
  rewrite <- keys_length, Hps in Hroom. rewrite Hps in Hnd.
  assert (key ∈ ps.*2) as Hin by (rewrite Hps; by left).
  destruct (inv_lookup_is_Some _ _ _ _ Hinv Hin) as [it Hit].
  pose proof (Hlat _ _ Hit) as Hl. rewrite last_added_snoc in Hl.
  rewrite decide_True in Hl by done. injection Hl as Hv.
  exists c, h0, b, c1, h1. split_and!; [done | done | |].
  - intros H2.
    assert (key' ≠ key → key ∈ ps1.*2) as Hkeeps.
    { intros Hne. rewrite Hps1, spec_step_Add_elem; [| by rewrite Hps | done].
      split; [done|]. intros (_ & Hfull & Hlast). rewrite Hps in Hfull, Hlast.
      rewrite (last_cons_NoDup _ _ Hnd Hlast) in Hfull. simpl in Hfull. lia. }
    destruct (decide (key' = key)) as [->|Hne].
    + destruct (value_lookup _ _ _ Hval) as (it1 & Hit1 & Hv1).
      split; [|rewrite (Peek_Some _ _ _ _ Hit1); by rewrite Hv1].
      unfold Contains. apply bool_decide_eq_true_2. by eexists.
    + specialize (Hkeeps Hne).
      pose proof (Hkeep key ltac:(done) Hkeeps) as Hk. rewrite Hit in Hk.
      simpl in Hk. rewrite <- Hv in Hk.
      destruct (value_lookup _ _ _ Hk) as (it1 & Hit1 & Hv1).
      split; [|rewrite (Peek_Some _ _ _ _ Hit1); by rewrite Hv1].
      unfold Contains. apply bool_decide_eq_true_2. by eexists.
  - intros H1 Hne.
    assert (r' = []) as ->.
    { rewrite Hcap in Hroom. destruct r'; [done|]. simpl in Hroom. lia. }
    assert (key' ∉ ps.*2) as Hnotin.
    { rewrite Hps. by intros ->%list_elem_of_singleton. }
    assert (b = true) as ->.
    { rewrite Hb. apply bool_decide_eq_true_2. split; [done|].
      rewrite <- keys_length, Hps. simpl. lia. }
    split; [done|].
    rewrite (inv_Contains _ _ _ _ Hinv1). apply bool_decide_eq_false_2.
    rewrite Hps1, Hps. cbn [spec_step].
    rewrite decide_False by (by rewrite <- Hps).
    rewrite decide_True by (simpl; lia). simpl.
    by intros ->%list_elem_of_singleton.
Qed.

Lemma chain_first_link (h : gmap loc (@listElem K)) x xs z :
  chain h x xs z → link h x (default z (head xs)).
Proof. destruct xs; simpl; [done | by intros [? _]]. Qed.

Lemma chain_last_link (h : gmap loc (@listElem K)) x xs z :
  chain h x xs z → link h (default x (list.last xs)) z.
Proof.
  revert x. induction xs as [|y ys IH]; intros x; simpl; [done|].
  intros [_ Hc]. rewrite default_last_cons. by apply IH.
Qed.

(** X17: After any sequence of operations the heap is well formed: the root of
    the list is allocated, and the item of every key points to an
    allocated element, other than the root, which carries that key and is
    linked both ways to its neighbours; no two keys share an element. *)
Theorem X17_items_point_into_the_ring (capacity : Z) (os : list (@op K V))
    (h : gmap loc (@listElem K)) :
  ∃ c h0,
    session zeroK zeroV capacity os h = Some (c, h0) ∧
    is_Some (h0 !! list_ c) ∧
    (∀ k it, items c !! k = Some it →
       ∃ x e n p,
         elem it = Some x ∧ x ≠ list_ c ∧ h0 !! x = Some e ∧ v e = k ∧
         next e = Some n ∧ prev e = Some p ∧
         prevof h0 n = Some (Some x) ∧ nextof h0 p = Some (Some x)) ∧
    (∀ k k' it it',
       items c !! k = Some it → items c !! k' = Some it' →
       elem it = elem it' → k = k').
Proof.
  destruct (session_full_spec zeroK zeroV capacity os h)
    as (c & h0 & ps & Hrun & Hinv & Hcap & Hps & Hlat).
  exists c, h0. split; [done|].
  pose proof Hinv as ((Hnd & Hc & Hk) & _).
  assert (∀ k it, items c !! k = Some it →
            ∃ x, elem it = Some x ∧ (x, k) ∈ ps) as Helem.
  { intros k it Hit.
    destruct (inv_lookup_Some _ _ _ _ _ Hinv Hit) as (x & ps1 & ps2 & -> & Hx).
    exists x. split; [done|]. apply elem_of_app. right. by left. }
  split_and!.
  - assert (is_Some (vof h0 (list_ c))) as [k Hv].
    { eapply chain_alloc; [exact Hc | by left]. }
    unfold vof in Hv. destruct (h0 !! list_ c); [by eexists | done].
  - intros k it Hit.
    destruct (inv_lookup_Some _ _ _ _ _ Hinv Hit) as (x & ps1 & ps2 & -> & Hx).
    rewrite fmap_app, fmap_cons in Hc, Hnd. simpl in Hc, Hnd.
    apply chain_app in Hc as [Hc1 Hc2].
    destruct (chain_last_link _ _ _ _ Hc1) as [Hpn Hxp].
    destruct (chain_first_link _ _ _ _ Hc2) as [Hxn Hnp].
    apply Forall_app in Hk as [_ Hkx]. apply Forall_inv in Hkx. simpl in Hkx.
    unfold nextof, prevof, vof in Hxp, Hxn, Hkx.
    destruct (h0 !! x) as [e|] eqn:He; [|done].
    simpl in Hxp, Hxn, Hkx.
    exists x, e, (default (list_ c) (head ps2.*1)),
      (default (list_ c) (list.last ps1.*1)).
    split_and!; [done | | done | congruence | congruence | congruence | done | done].
    intros ->. apply NoDup_cons in Hnd as [Hn _]. apply Hn.
    apply elem_of_app. right. by left.
  - intros k k' it it' Hit Hit' Heq.
    destruct (Helem _ _ Hit) as (x & Hx & Hin).
    destruct (Helem _ _ Hit') as (x' & Hx' & Hin').
    assert (x' = x) as -> by congruence.
    rewrite Forall_forall in Hk.
    pose proof (Hk _ Hin) as H1. pose proof (Hk _ Hin') as H2.
    simpl in H1, H2. congruence.
Qed.

(** *** Distinct keys added one after the other *)

Lemma removelast_reverse {A} (l : list A) :
  removelast (reverse l) = reverse (tail l).
Proof.
  destruct l as [|a l]; [done|]. rewrite reverse_cons. apply removelast_last.
Qed.

Lemma tail_drop {A} (l : list A) n : tail (drop n l) = drop (S n) l.
Proof.
  revert l. induction n as [|n IH]; intros [|a l]; try done.
  simpl. apply IH.
Qed.

Lemma recency_adds capacity (kvs : list (K * V)) :
  NoDup kvs.*1 →
  spec_recency capacity ((λ kv, OpAdd kv.1 kv.2) <$> kvs) =
  reverse (drop (length kvs - Z.to_nat (Z.max capacity 1)) kvs.*1).
Proof.
  induction kvs as [|[k val] kvs IH] using rev_ind; intros Hnd; [done|].
  rewrite fmap_app in Hnd. simpl in Hnd.
  apply NoDup_app in Hnd as (Hnd & Hd & _).
  assert (k ∉ kvs.*1) as Hk.
  { intros Hin. apply (Hd k Hin). by left. }
  rewrite !fmap_app. unfold spec_recency. rewrite foldl_app.
  cbn [fmap list_fmap foldl].
  fold (spec_recency capacity ((λ kv, OpAdd kv.1 kv.2) <$> kvs)).
  rewrite IH by done. cbn [spec_step fst snd].
  set (C := Z.to_nat (Z.max capacity 1)).
  assert (1 ≤ C)%nat as HC by (unfold C; lia).
  assert (Z.max capacity 1 = Z.of_nat C) as -> by (unfold C; lia).
  rewrite decide_False.
  2: { rewrite elem_of_reverse. intros Hin. apply Hk.
       by apply (subseteq_drop _ _ _ Hin). }
  rewrite length_reverse, length_drop, length_fmap, length_app. cbn [length].
  destruct (decide (Z.of_nat C ≤ Z.of_nat (length kvs - (length kvs - C))))
    as [Hfull|Hroom].
  - rewrite removelast_reverse, tail_drop.
    replace (length kvs + 1 - C)%nat with (S (length kvs - C)) by lia.
    rewrite drop_app_le by (rewrite length_fmap; lia).
    by rewrite reverse_snoc.
  - replace (length kvs - C)%nat with 0%nat by lia.
    replace (length kvs + 1 - C)%nat with 0%nat by lia.
    rewrite !drop_0. by rewrite reverse_snoc.
Qed.

Lemma last_added_adds (kvs : list (K * V)) k (val : V) :
  NoDup kvs.*1 → (k, val) ∈ kvs →
  last_added ((λ kv, OpAdd kv.1 kv.2) <$> kvs) k = Some val.
Proof.
  induction kvs as [|[k' val'] kvs IH] using rev_ind; intros Hnd Hin.
  { by apply elem_of_nil in Hin. }
  rewrite fmap_app in Hnd. simpl in Hnd.
  apply NoDup_app in Hnd as (Hnd & Hd & _).
  rewrite fmap_app. cbn [fmap list_fmap]. rewrite last_added_snoc. cbn [fst snd].
  apply elem_of_app in Hin as [Hin|Hin%list_elem_of_singleton].
  - rewrite decide_False; [by apply IH|]. intros ->.
    apply (Hd k); [|by left]. apply list_elem_of_fmap. by exists (k, val).
  - injection Hin as -> ->. by rewrite decide_True.
Qed.

(** X18: Distinct keys added one after the other to a new container: the
    container holds the newest [max(capacity, 1)] of them, [Keys] lists
    them in the order in which they were added, and each has the value it
    was added with. *)
Theorem X18_distinct_Adds_keep_the_newest (capacity : Z) (kvs : list (K * V))
    (h : gmap loc (@listElem K)) :
  NoDup kvs.*1 →
  ∃ c h0,
    session zeroK zeroV capacity ((λ kv, OpAdd kv.1 kv.2) <$> kvs) h
      = Some (c, h0) ∧
    Len c = Z.min (Z.of_nat (length kvs)) (Z.max capacity 1) ∧
    (∀ fuel, (Z.to_nat (Len c) < fuel)%nat →
       Keys fuel c h0 =
       Some (drop (length kvs - Z.to_nat (Z.max capacity 1)) kvs.*1, h0)) ∧
    (∀ k val,
       (k, val) ∈ drop (length kvs - Z.to_nat (Z.max capacity 1)) kvs →
       Peek zeroV c k = (val, true)).
Proof.
  intros Hnd.
  destruct (session_full_spec zeroK zeroV capacity
              ((λ kv, OpAdd kv.1 kv.2) <$> kvs) h)
    as (c & h0 & ps & Hrun & Hinv & Hcap & Hps & Hlat).
  rewrite recency_adds in Hps by done.
  pose proof (inv_size _ _ _ Hinv) as Hsize.
  exists c, h0. split_and!; [done | | |].
  - rewrite Hsize, <- keys_length, Hps, length_reverse, length_drop, length_fmap.
    lia.
  - intros fuel Hfuel. rewrite Hsize, Nat2Z.id in Hfuel.
    by rewrite (Keys_spec _ _ _ _ Hinv Hfuel), Hps, reverse_involutive.
  - intros k val Hin.
    assert (k ∈ ps.*2) as Hk.
    { rewrite Hps, elem_of_reverse, <- fmap_drop.
      apply list_elem_of_fmap. by exists (k, val). }
    destruct (inv_lookup_is_Some _ _ _ _ Hinv Hk) as [it Hit].
    pose proof (Hlat _ _ Hit) as Hl.
    rewrite (last_added_adds kvs k val Hnd) in Hl
      by (by apply (subseteq_drop _ _ _ Hin)).
    injection Hl as ->. by apply Peek_Some.
Qed.

(** X19: After any sequence of operations, [Remove] detaches the list element
    of its key: the element keeps the key and its [next] and [prev] are
    [nil], so that unlinking it once more, by [remove] or by
    [moveToFront], panics. *)
Theorem X19_removed_element_is_detached (capacity : Z) (os : list (@op K V))
    (key : K) (h : gmap loc (@listElem K)) :
  ∃ c h0 c1 h1,
    session zeroK zeroV capacity os h = Some (c, h0) ∧
    Remove c key h0 = Some ((Contains c key, c1), h1) ∧
    ∀ it, items c !! key = Some it →
      ∃ x, elem it = Some x ∧ h1 !! x = Some (mkElem None None key) ∧
           remove (list_ c1) (Some x) h1 = None ∧
           moveToFront (list_ c1) (Some x) h1 = None.
Proof.
  destruct (session_full_spec zeroK zeroV capacity os h)
    as (c & h0 & ps & Hrun & Hinv & Hcap & Hps & Hlat).
  destruct (Remove_run capacity h0 c ps key Hinv)
    as (c1 & h1 & ps1 & HRem & Hinv1 & Hcap1 & Hps1 & Hit & Hdet).
  exists c, h0, c1, h1. split_and!; [done | done |].
  intros it Hk. destruct (Hdet it Hk) as (x & Hx & Hl & Hn & Hp & Hv).
  exists x. split_and!; [done | | |].
  - unfold nextof, prevof, vof in Hn, Hp, Hv.
    destruct (h1 !! x) as [[n p k]|]; [|done]. simpl in *. congruence.
  - unfold remove. apply bind_outcome. eapply wp_get_prev; [done|].
    apply bind_outcome. eapply wp_get_next; [done|]. done.
  - unfold moveToFront. apply bind_outcome. eapply wp_get_prev; [done|].
    apply bind_outcome. eapply wp_get_next; [done|]. done.
Qed.

(** X23: A [Get] protects its key from the next eviction: in a container of
    capacity at least 2, after any sequence of operations, a key that is
    present and has just been read by [Get] is still present, with its
    value, after the [Add] of any other key. *)
Theorem X23_Get_protects_from_eviction (capacity : Z) (os : list (@op K V))
    (key key' : K) (val' : V) (h : gmap loc (@listElem K)) :
  ∃ c h0 h1 evicted c1 h2,
    session zeroK zeroV capacity os h = Some (c, h0) ∧
    Get zeroV c key h0 = Some ((Peek zeroV c key, c), h1) ∧
    Add zeroK c key' val' h1 = Some ((evicted, c1), h2) ∧
    (2 ≤ capacity → Contains c key = true → key' ≠ key →
     Contains c1 key = true ∧ Peek zeroV c1 key = Peek zeroV c key).
Proof.
  destruct (session_full_spec zeroK zeroV capacity os h)
    as (c & h0 & ps & Hrun & Hinv & Hcap & Hps & Hlat).
  destruct (Get_run zeroV capacity h0 c ps key Hinv)
    as (h1 & ps1 & HGet & Hinv1 & Hps1 & _).
  destruct (Add_run zeroK capacity h1 c ps1 key' val' Hinv1 Hcap)
    as (b & c1 & h2 & ps2 & HAdd & Hinv2 & Hcap2 & Hps2 & Hb & Hval & Hkeep & Hdom).
  exists c, h0, h1, b, c1, h2. split_and!; [done | done | done |].
  intros H2 HC Hne.
  rewrite (inv_Contains _ _ _ _ Hinv) in HC. apply bool_decide_eq_true in HC.
  cbn [spec_step] in Hps1. rewrite decide_True in Hps1 by done.
  pose proof (inv_NoDup _ _ _ Hinv1) as Hnd.
  assert (key ∈ ps2.*2) as Hin.
  { rewrite Hps2, spec_step_Add_elem; [| done | done].
    split; [rewrite Hps1; by left|]. intros (_ & Hfull & Hlast).
    rewrite Hps1 in Hfull, Hlast, Hnd.
    rewrite (last_cons_NoDup _ _ Hnd Hlast) in Hfull. simpl in Hfull. lia. }
  split.
  - rewrite (inv_Contains _ _ _ _ Hinv2). by apply bool_decide_eq_true_2.
  - apply Peek_ext. by apply Hkeep.
Qed.

End lru_extras.

(** ** The plugin's hooks *)

Section classic_proofs.

Lemma Is_threshold_run (t : Z) (num : loc) n (s : store) :
  s !! num = Some n →
  ∃ s', (z ← big.NewInt t; r ← big.Cmp (Some num) z; mret (bool_decide (0 ≤ r))) s
        = Some (bool_decide (t ≤ n), s') ∧ s ⊆ s'.
Proof.
  intros Hn.
  assert (wp (z ← big.NewInt t; r ← big.Cmp (Some num) z;
              mret (bool_decide (0 ≤ r))) s
            (λ b s', b = bool_decide (t ≤ n) ∧ s ⊆ s')) as Hwp.
  { apply wp_bind, wp_NewInt. intros l Hl.
    apply wp_bind. eapply wp_Cmp; [solve_lookup | solve_lookup |].
    apply wp_ret. split; [|by apply insert_subseteq].
    destruct (Z.compare_spec n t); apply bool_decide_ext; lia. }
  apply wp_run in Hwp as (b & s' & Hrun & -> & Hsub). eauto.
Qed.

(** X20: [Is160] holds from block 3,000,000 on and [IsShanghai] from block
    19,250,000 on, so that [IsShanghai] implies [Is160]; neither changes
    an existing integer, both panic on a [nil] number, [Is1559] never
    holds, and both heights are among the fork ids that [ForkIDs]
    returns, which are strictly increasing. *)
Theorem X20_fork_predicates_thresholds (num : loc) (n : Z) (s : store) :
  s !! num = Some n →
  (∃ s1 s2 b160 bSh,
     Is160 (Some num) s = Some (b160, s1) ∧
     IsShanghai (Some num) s = Some (bSh, s2) ∧
     s ⊆ s1 ∧ s ⊆ s2 ∧
     (b160 = true ↔ 3000000 ≤ n) ∧ (bSh = true ↔ 19250000 ≤ n) ∧
     (bSh = true → b160 = true)) ∧
  Is160 None s = None ∧ IsShanghai None s = None ∧
  (∀ p, Is1559 p = false) ∧
  (∀ a b, 3000000%N ∈ (ForkIDs a b).1 ∧ 19250000%N ∈ (ForkIDs a b).1 ∧
          StronglySorted N.lt (ForkIDs a b).1 ∧ (ForkIDs a b).2 = []).
Proof.
  intros Hn. split_and!; [| done | done | done |].
  - destruct (Is_threshold_run 3000000 num n s Hn) as (s1 & H1 & Hs1).
    destruct (Is_threshold_run 19250000 num n s Hn) as (s2 & H2 & Hs2).
    exists s1, s2, (bool_decide (3000000 ≤ n)), (bool_decide (19250000 ≤ n)).
    split_and!; [exact H1 | exact H2 | done | done | | |].
    + apply bool_decide_eq_true.
    + apply bool_decide_eq_true.
    + rewrite !bool_decide_eq_true. lia.
  - intros a b. cbn [ForkIDs fst snd]. split_and!; [| | | done].
    + unfold forkBlockIds. rewrite !elem_of_cons. tauto.
    + unfold forkBlockIds. rewrite !elem_of_cons. tauto.
    + unfold forkBlockIds.
      repeat constructor.
Qed.

Lemma X20_witness :
  ∃ s1 s2 b160 bSh,
     Is160 (Some 10%positive) (ex_store [5000000]) = Some (b160, s1) ∧
     IsShanghai (Some 10%positive) (ex_store [5000000]) = Some (bSh, s2) ∧
     b160 = true ∧ bSh = false.
Proof.
  destruct (X20_fork_predicates_thresholds 10%positive 5000000 (ex_store [5000000])
              ltac:(vm_compute; reflexivity))
    as ((s1 & s2 & b160 & bSh & H1 & H2 & _ & _ & Ha & Hb & _) & _).
  exists s1, s2, b160, bSh. split; [exact H1|]. split; [exact H2|].
  split; [apply Ha; lia|].
  destruct bSh; [|reflexivity]. exfalso.
  assert (19250000 ≤ 5000000) by (apply Hb; reflexivity). lia.
Defined.

(** X21: [String] prints "ethash" exactly for the value [IsEthash] accepts and
    "unknown" for every other value: for the value [IsUnknown] accepts,
    and also for the values outside the enumeration, which neither
    predicate accepts. *)
Theorem X21_ConsensusEngineT_String_predicates (c : Z) :
  (IsEthash c = true ↔ ConsensusEngineT_String c = "ethash") ∧
  (IsEthash c = false ↔ ConsensusEngineT_String c = "unknown") ∧
  (IsUnknown c = true → ConsensusEngineT_String c = "unknown") ∧
  (IsEthash c && IsUnknown c = false) ∧
  (IsEthash c || IsUnknown c = bool_decide (0 ≤ c ≤ 1)) ∧
  (BlockSealingT_String c = "ethereum" ↔ IsEthash c = true).
Proof.
  unfold IsEthash, IsUnknown, ConsensusEngineT_String, BlockSealingT_String,
    ConsensusEngineT_Ethash, ConsensusEngineT_Unknown, BlockSealing_Ethereum.
  destruct (decide (c = 1)) as [->|H1].
  - rewrite bool_decide_eq_true_2 by done. split_and!; try done.
  - rewrite (bool_decide_eq_false_2 (c = 1)) by done.
    split_and!; try done.
    simpl. apply bool_decide_ext. lia.
Qed.

(** X22: Whatever the package variable held, [SetETHDiscoveryURLs] returns one
    URL and stores the list it returns, which is what
    [SetSnapDiscoveryURLs] returns from then on; before any such call
    [SetSnapDiscoveryURLs] returns [nil].  The URL is the DNS network of
    the package, with its subdomain "all" made "les" for a light sync. *)
Theorem X22_discovery_URLs (lightSync : bool) (g : globals) :
  ∃ url g',
    SetETHDiscoveryURLs lightSync g = Some ([url], g') ∧
    SetSnapDiscoveryURLs g' = Some (Some [url], g') ∧
    url = dnsPrefixETC +:+
          (if lightSync then "les" else "all") +:+ ".classic.blockd.info" ∧
    SetSnapDiscoveryURLs None = Some (None, None).
Proof.
  destruct lightSync; eexists _, _; split_and!; reflexivity.
Qed.

End classic_proofs.

(** ** The further properties on examples *)

Section reward_extra_examples.
#[local] Existing Instance ChainConfig_Configurator.
#[local] Existing Instance ex_package.
#[local] Existing Instance Balances_RWStateDB.

(** Block 12 with eras of 5 blocks is in era 2, the blocks 11 to 15. *)
Lemma X1_witness :
  ∃ r s' e,
    GetBlockEra (Some 10%positive) (Some 11%positive) (ex_store [12; 5])
      = Some (Some r, s') ∧
    s' !! r = Some e ∧ e * 5 + 1 ≤ 12 ≤ (e + 1) * 5.
Proof.
  destruct (X1_GetBlockEra_eras 10%positive 11%positive 12 5 (ex_store [12; 5])
              ltac:(vm_compute; reflexivity) ltac:(vm_compute; reflexivity)
              ltac:(lia))
    as (r & s' & e & Hrun & _ & Hv & _ & _ & Hb & _).
  exists r, s', e. split; [exact Hrun|]. split; [exact Hv|]. apply Hb; lia.
Defined.

(** Block 0 and a [nil] era length. *)
Lemma X2_witness :
  ∃ r, ex_store [0] !! r = None ∧
       GetBlockEra (Some 10%positive) None (ex_store [0])
         = Some (Some r, <[r:=0]> (ex_store [0])).
Proof.
  destruct (X2_GetBlockEra_edge_cases (Cfg := ChainConfig_Configurator)
              (Pkg := ex_package) 10%positive 0 (ex_store [0])
              ltac:(vm_compute; reflexivity)) as (H0 & _).
  exact (H0 ltac:(lia) None).
Defined.

(** The Frontier reward of the example in eras 2 and 3. *)
Lemma X3_witness :
  ∃ r s' w,
    GetBlockWinnerRewardByEra (Some 10%positive) (Some FrontierBlockReward)
      (ex_store [2; 3]) = Some (Some r, s') ∧
    s' !! r = Some w ∧ 0 ≤ w ≤ 5 * 10 ^ 18.
Proof.
  destruct (X3_GetBlockWinnerRewardByEra_disinflation (Pkg := ex_package)
              10%positive FrontierBlockReward 2 (5 * 10 ^ 18) (ex_store [2; 3])
              (ex_constants_ok _) ltac:(vm_compute; reflexivity)
              ltac:(vm_compute; reflexivity) ltac:(lia))
    as (r & s' & w & Hrun & _ & Hv & Hw & _).
  exists r, s', w. split; [exact Hrun|]. split; [exact Hv | exact Hw].
Defined.

(** Header 10 with uncles 9 and 8: era 0 of eras of 50 blocks. *)
Lemma X4_witness :
  ∃ rw1 urs1 s1 rw2 urs2 s2,
    GetRewards [] (ex_ecip1017 50) (mkHeader (Some 10%positive) 0)
      [mkHeader (Some 11%positive) 0; mkHeader (Some 12%positive) 0]
      (ex_store [10; 9; 8]) = Some ((rw1, urs1), s1) ∧
    GetRewards [] ex_frontier (mkHeader (Some 10%positive) 0)
      [mkHeader (Some 11%positive) 0; mkHeader (Some 12%positive) 0]
      (ex_store [10; 9; 8]) = Some ((rw2, urs2), s2) ∧
    read s1 rw1 = read s2 rw2 ∧ read s1 <$> urs1 = read s2 <$> urs2.
Proof.
  destruct (X4_GetRewards_era0_is_frontier (Cfg := ChainConfig_Configurator)
              (Pkg := ex_package) [] [] (ex_ecip1017 50) ex_frontier
              (mkHeader (Some 10%positive) 0)
              [mkHeader (Some 11%positive) 0; mkHeader (Some 12%positive) 0]
              10%positive 50%N (5 * 10 ^ 18) 10 [9; 8] (ex_store [10; 9; 8])
              (ex_constants_ok _) ltac:(vm_compute; reflexivity)
              ltac:(vm_compute; reflexivity) ltac:(vm_compute; reflexivity)
              ltac:(repeat constructor)
              ltac:(vm_compute; reflexivity) ltac:(vm_compute; reflexivity)
              ltac:(done) ltac:(vm_compute; reflexivity)
              ltac:(vm_compute; reflexivity) ltac:(vm_compute; reflexivity)
              ltac:(vm_compute; reflexivity) ltac:(vm_compute; reflexivity))
    as (rw1 & urs1 & s1 & rw2 & urs2 & s2 & H1 & H2 & Hr1 & Hr2 & Hu1 & Hu2).
  exists rw1, urs1, s1, rw2, urs2, s2.
  split; [exact H1|]. split; [exact H2|].
  split; [exact (eq_trans Hr1 (eq_sym Hr2)) | exact (eq_trans Hu1 (eq_sym Hu2))].
Defined.

(** The example of the specification, credited to the balances of the
    coinbases [100] (the header) and [101], [102] (the uncles). *)
Lemma X5_witness :
  ∃ st s',
    AccumulateRewards [] ex_frontier (∅ : gmap N Z)
      (mkHeader (Some 10%positive) 100)
      [mkHeader (Some 11%positive) 101; mkHeader (Some 12%positive) 102]
      (ex_store [100; 99; 98]) = Some (st, s') ∧
    st !! 100%N = Some (5 * 10 ^ 18 + 2 * (5 * 10 ^ 18 / 32)) ∧
    st !! 101%N = Some (5 * 10 ^ 18 * 7 / 8) ∧
    st !! 102%N = Some (5 * 10 ^ 18 * 6 / 8).
Proof.
  destruct (X5_AccumulateRewards_flat_path (Cfg := ChainConfig_Configurator)
              (Pkg := ex_package) (DB := Balances_RWStateDB)
              [] ex_frontier (∅ : gmap N Z)
              (mkHeader (Some 10%positive) 100)
              [mkHeader (Some 11%positive) 101; mkHeader (Some 12%positive) 102]
              10%positive FrontierBlockReward (5 * 10 ^ 18) 100 [99; 98]
              (ex_store [100; 99; 98])
              ltac:(vm_compute; reflexivity) ltac:(vm_compute; reflexivity)
              ltac:(vm_compute; reflexivity) ltac:(vm_compute; reflexivity)
              ltac:(vm_compute; reflexivity) ltac:(vm_compute; reflexivity)
              ltac:(vm_compute; reflexivity) ltac:(repeat constructor))
    as (s' & Hrun & _).
  eexists _, s'. split; [exact Hrun|].
  split_and!; vm_compute; reflexivity.
Defined.

(** Header 100 with two uncles whose numbers are [nil], eras of 50
    blocks: era 1. *)
Lemma X6_witness :
  ∃ st s',
    AccumulateRewards [] (ex_ecip1017 50) (∅ : gmap N Z)
      (mkHeader (Some 10%positive) 100)
      [mkHeader None 101; mkHeader None 102]
      (ex_store [100]) = Some (st, s') ∧
    st !! 100%N = Some (4 * 10 ^ 18 + 2 * (4 * 10 ^ 18 / 32)) ∧
    st !! 101%N = Some (4 * 10 ^ 18 / 32) ∧
    st !! 102%N = Some (4 * 10 ^ 18 / 32).
Proof.
  destruct (X6_AccumulateRewards_era_path (Cfg := ChainConfig_Configurator)
              (Pkg := ex_package) (DB := Balances_RWStateDB)
              [] (ex_ecip1017 50) (∅ : gmap N Z)
              (mkHeader (Some 10%positive) 100)
              [mkHeader None 101; mkHeader None 102]
              10%positive 50%N (5 * 10 ^ 18) 100 (ex_store [100])
              (ex_constants_ok _) ltac:(vm_compute; reflexivity)
              ltac:(vm_compute; reflexivity) ltac:(vm_compute; reflexivity)
              ltac:(done) ltac:(vm_compute; reflexivity)
              ltac:(vm_compute; reflexivity)
              ltac:(vm_compute; intros ?; discriminate))
    as (s' & Hrun & _).
  eexists _, s'. split; [exact Hrun|].
  split_and!; vm_compute; reflexivity.
Defined.

(** A header whose number is [nil], without uncles. *)
Lemma X7_witness :
  ∃ rw s',
    GetRewards [] ex_frontier (mkHeader None 0) [] (ex_store [])
      = Some ((Some rw, []), s') ∧
    s' !! rw = Some (5 * 10 ^ 18).
Proof.
  destruct (X7_GetRewards_nil_numbers (Cfg := ChainConfig_Configurator)
              (Pkg := ex_package) [] ex_frontier (mkHeader None 0) []
              (ex_store []) ltac:(vm_compute; reflexivity))
    as (_ & _ & H3).
  destruct (H3 ltac:(reflexivity) ltac:(reflexivity) (5 * 10 ^ 18)
              ltac:(vm_compute; reflexivity))
    as (rw & s' & Hrun & _ & Hv & _).
  exists rw, s'. split; [exact Hrun | exact Hv].
Defined.

End reward_extra_examples.

Section lru_extra_examples.
Import lru.

(** Three distinct keys added to a container of capacity 2. *)
Lemma X18_witness :
  ∃ c h,
    session 0%N 0%N 2 [OpAdd 1%N 10%N; OpAdd 2%N 20%N; OpAdd 3%N 30%N] ∅
      = Some (c, h) ∧
    Keys 3 c h = Some ([2%N; 3%N], h) ∧ Peek 0%N c 3%N = (30%N, true).
Proof.
  destruct (X18_distinct_Adds_keep_the_newest 0%N 0%N 2
              [(1%N, 10%N); (2%N, 20%N); (3%N, 30%N)] ∅
              ltac:(apply (bool_decide_unpack _); vm_compute; exact I))
    as (c & h & Hrun & Hlen & Hkeys & Hvals).
  exists c, h. split; [exact Hrun|]. split.
  - apply (Hkeys 3%nat). rewrite Hlen. vm_compute. lia.
  - apply Hvals. vm_compute. apply elem_of_cons. right. apply elem_of_cons.
    left. reflexivity.
Defined.

End lru_extra_examples.
